(** * The websocket hub of qilin_core: registry, fan-out and connection pumps

    A shallow embedding of [internal/services/websocket] (the [Hub] with its
    serial command loop, and the [Client] with its read and write pumps),
    followed by the properties of the fan-out layer.

    Conventions of the embedding:
    - a [*Client] is an address ([ptr]); the objects live in a heap, and a
      dereference of an address that holds no object is Go's nil dereference;
    - a Go channel is a bounded FIFO buffer with a [closed] flag; sending on
      or closing a closed channel panics, as in Go; a blocking operation
      that cannot proceed in the current state is [Blocked];
    - every method of the hub that touches the membership tables does so
      under [h.mu], so each call is one transition of the [World]. The
      methods that write the tables take the write lock; the delivery
      methods take the read lock and only send on the queues of clients;
    - [go f(x)] adds a pending goroutine to the world; the scheduler runs it
      in a later transition;
    - a [select] with a [default] takes the first case that is ready; a
      [select] that waits takes the case the runtime picks, given as an
      argument wherever more than one can be ready, and the world does not
      change while it waits (other goroutines act between calls);
    - a [range] over a Go map visits the keys in an order Go does not
      specify; the model visits them in the order of [elements], and the
      order of a delivery loop is shown not to matter;
    - [time.Now()] reads the clock [now] of the world, in nanoseconds;
      logging is left out;
    - [trace] is an instrumentation of the effects the properties speak
      about (serialisations, enqueues, drops, closes, spawned goroutines). *)

From stdpp Require Import gmap list strings.
From Stdlib Require Import ZArith Lia.

Local Open Scope Z_scope.
#[local] Set Warnings "-clear-no-such-hyp".

(** ** Results of Go computations *)

(** A computation returns, panics, or waits on a channel that cannot take or
    give a value in the current state. *)
Inductive res (A : Type) : Type :=
| Ok (a : A)
| Panic (msg : string)
| Blocked.

Arguments Ok {A} a.
Arguments Panic {A} msg.
Arguments Blocked {A}.

#[export] Instance res_ret : MRet res := fun A a => Ok a.
#[export] Instance res_bind : MBind res := fun A B f m =>
  match m with
  | Ok a => f a
  | Panic msg => Panic msg
  | Blocked => Blocked
  end.

Definition is_Ok {A} (r : res A) : Prop := ∃ a, r = Ok a.

(** ** Channels *)

Record chan (A : Type) : Type := Chan {
  buf : list A;
  cap : nat;
  closed : bool }.

Arguments Chan {A} buf cap closed.
Arguments buf {A} c.
Arguments cap {A} c.
Arguments closed {A} c.

Section Channels.
Context {A : Type}.

(** [make(chan A, n)] *)
Definition make_chan (n : nat) : chan A := Chan [] n false.

(** [len(ch)] *)
Definition chan_len (ch : chan A) : nat := length (buf ch).

Definition chan_full (ch : chan A) : bool := bool_decide (cap ch ≤ chan_len ch)%nat.

Definition enqueue (v : A) (ch : chan A) : chan A :=
  Chan (buf ch ++ [v]) (cap ch) (closed ch).

(** [select { case ch <- v: ...; default: ... }]: [Some] the channel after
    the send, [None] when the default case is taken. *)
Definition try_send (v : A) (ch : chan A) : res (option (chan A)) :=
  if closed ch then Panic "send on closed channel"
  else if chan_full ch then Ok None
  else Ok (Some (enqueue v ch)).

(** [ch <- v] *)
Definition chan_send (v : A) (ch : chan A) : res (chan A) :=
  if closed ch then Panic "send on closed channel"
  else if chan_full ch then Blocked
  else Ok (enqueue v ch).

(** [close(ch)] *)
Definition chan_close (ch : chan A) : res (chan A) :=
  if closed ch then Panic "close of closed channel"
  else Ok (Chan (buf ch) (cap ch) true).

(** [v, ok := <-ch]: [Some v] is a received value, [None] is [ok = false]. *)
Definition chan_recv (ch : chan A) : res (option A * chan A) :=
  match buf ch with
  | v :: rest => Ok (Some v, Chan rest (cap ch) (closed ch))
  | [] => if closed ch then Ok (None, ch) else Blocked
  end.

End Channels.

(** ** Constants of the package *)

Definition second : Z := 1000000000.
Definition minute : Z := 60 * second.

Definition writeWait : Z := 10 * second.
Definition pongWait : Z := 60 * second.
Definition pingPeriod : Z := (pongWait * 9) `quot` 10.
Definition maxMessageSize : Z := 10 * 1024 * 1024.
Definition sendBufferSize : nat := 256.

(** ** Identifiers, addresses and payloads *)

(** [uuid.UUID] is sixteen bytes; [uuid.Nil] is the all-zero value. *)
Abbreviation UUID := N (only parsing).
Definition uuid_Nil : UUID := 0%N.

(** The address of a [Client]. *)
Abbreviation ptr := positive (only parsing).

Abbreviation bytes := (list Byte.byte) (only parsing).

Definition newline : Byte.byte := Byte.x0a.

(** ** The wire and the connection

    [websocket.Conn] belongs to gorilla/websocket; the model keeps the part
    of its state the pumps set and read: the two deadlines, the read limit,
    whether the pong handler of [ReadPump] is installed, whether the
    connection is closed, and the frames written to the peer. *)

Inductive WireFrame : Type :=
| TextMessage (payload : bytes)
| PingMessage
| CloseMessage.

Record Conn : Type := mkConn {
  readDeadline : option Z;
  writeDeadline : option Z;
  readLimit : Z;
  pongHandler : bool;
  conn_closed : bool;
  wire : list WireFrame }.

Definition new_conn : Conn := mkConn None None 0 false false [].

(** ** Messages *)

(** [IncomingMessage]: the decoded inbound frame. *)
Record IncomingMessage : Type := mkIncoming {
  Type_ : string;
  Content : string;
  in_ConversationID : UUID;
  AttachmentIDs : list UUID;
  Metadata : list (string * bytes) }.

(** Modelled from the spec: [models.WebSocketMessage] and its constructor
    [models.NewWebSocketMessage] are declared in [internal/models], which is
    not among the sources. The fields are those of the outbound wire frame
    of the spec (section 6): type, room id, message id, role, content,
    delta, error, metadata. *)
Record WebSocketMessage : Type := mkWS {
  ws_Type : string;
  ws_ConversationID : UUID;
  ws_MessageID : UUID;
  ws_Role : string;
  ws_Content : string;
  ws_Delta : string;
  ws_Error : string;
  ws_Metadata : list (string * bytes) }.

Definition NewWebSocketMessage (t : string) (conv mid : UUID) : WebSocketMessage :=
  mkWS t conv mid "" "" "" "" [].

Definition MessageTypeError : string := "error".
Definition MessageTypeTyping : string := "typing".

Definition with_Error (e : string) (m : WebSocketMessage) : WebSocketMessage :=
  mkWS (ws_Type m) (ws_ConversationID m) (ws_MessageID m) (ws_Role m)
       (ws_Content m) (ws_Delta m) e (ws_Metadata m).

(** [MessageHandler]: the router the application installs. Its methods run
    outside this package; the model keeps the error each returns. *)
Record MessageHandler : Type := mkHandler {
  HandleMessage : ptr → IncomingMessage → option string;
  HandleTyping : ptr → option string;
  HandleDisconnect : ptr → option string }.

(** ** Clients *)

Record Client : Type := mkClient {
  client_id : string;
  conn : Conn;
  send : chan bytes;
  userID : UUID;
  conversationID : UUID;
  lastActivity : Z;
  messageHandler : option MessageHandler;
  ctx : bool  (* [true] once [cancel()] was called *) }.

Definition NewClient (id : string) (uid conv : UUID)
    (handler : option MessageHandler) (t : Z) : Client :=
  mkClient id new_conn (make_chan sendBufferSize) uid conv t handler false.

Definition set_send (ch : chan bytes) (c : Client) : Client :=
  mkClient (client_id c) (conn c) ch (userID c) (conversationID c)
           (lastActivity c) (messageHandler c) (ctx c).

Definition set_conn (k : Conn) (c : Client) : Client :=
  mkClient (client_id c) k (send c) (userID c) (conversationID c)
           (lastActivity c) (messageHandler c) (ctx c).

Definition set_lastActivity (t : Z) (c : Client) : Client :=
  mkClient (client_id c) (conn c) (send c) (userID c) (conversationID c)
           t (messageHandler c) (ctx c).

Definition set_ctx (b : bool) (c : Client) : Client :=
  mkClient (client_id c) (conn c) (send c) (userID c) (conversationID c)
           (lastActivity c) (messageHandler c) b.

(** ** Observable effects *)

Inductive Event : Type :=
| EvMarshal                          (* one call of [json.Marshal] *)
| EvSend (c : ptr) (data : bytes)    (* [data] placed on [c.send] *)
| EvFull (c : ptr)                   (* [c.send] was full: the value is dropped *)
| EvGo (c : ptr)                     (* [go h.unregisterClient(c)] *)
| EvClose (c : ptr)                  (* [close(c.send)] *)
| EvSubmit (c : ptr)                 (* [c.hub.unregister <- c] *)
| EvConnClose (c : ptr)              (* [c.conn.Close()] *)
| EvCancel (c : ptr)                 (* [c.cancel()] *)
| EvDisconnect (c : ptr)             (* [HandleDisconnect] called *)
| EvWait (d : Z)                     (* a [select] waited for [d] *).

#[export] Instance byte_eq_dec : EqDecision Byte.byte := Byte.byte_eq_dec.

#[export] Instance Event_eq_dec : EqDecision Event.
Proof. solve_decision. Defined.

(** ** The hub and the world *)

Section Websocket.

(** The hub broadcasts values of any type ([interface{}]); [marshal] is
    [json.Marshal] on them, [unmarshal] is [json.Unmarshal] into an
    [IncomingMessage], and [ofWS] sees a [*models.WebSocketMessage] as such
    a value. *)
Context {Message : Type}.
Variable marshal : Message → option bytes.
Variable unmarshal : bytes → option IncomingMessage.
Variable ofWS : WebSocketMessage → Message.

#[local] Set Default Proof Using "Type".

Record BroadcastMessage : Type := mkBroadcast {
  ConversationID : UUID;
  UserID : UUID;
  Message_ : Message;
  ExcludeClient : option ptr }.

Record Hub : Type := mkHub {
  clients : gmap UUID (gset ptr);
  conversations : gmap UUID (gset ptr);
  broadcast : chan BroadcastMessage;
  register : chan ptr;
  unregister : chan ptr;
  hub_ctx : bool  (* [true] once [cancel()] was called *) }.

Definition NewHub : Hub :=
  mkHub ∅ ∅ (make_chan 256) (make_chan 64) (make_chan 64) false.

Record World : Type := mkWorld {
  heap : gmap ptr Client;
  hub : Hub;
  goroutines : list ptr;   (* the pending [go h.unregisterClient(c)] *)
  trace : list Event;
  now : Z }.

Definition set_heap (hp : gmap ptr Client) (w : World) : World :=
  mkWorld hp (hub w) (goroutines w) (trace w) (now w).

Definition set_hub (h : Hub) (w : World) : World :=
  mkWorld (heap w) h (goroutines w) (trace w) (now w).

Definition set_goroutines (g : list ptr) (w : World) : World :=
  mkWorld (heap w) (hub w) g (trace w) (now w).

Definition set_now (t : Z) (w : World) : World :=
  mkWorld (heap w) (hub w) (goroutines w) (trace w) t.

Definition emit (e : Event) (w : World) : World :=
  mkWorld (heap w) (hub w) (goroutines w) (trace w ++ [e]) (now w).

Definition set_tables (cl cv : gmap UUID (gset ptr)) (w : World) : World :=
  set_hub (mkHub cl cv (broadcast (hub w)) (register (hub w))
                 (unregister (hub w)) (hub_ctx (hub w))) w.

Definition set_hub_ctx (b : bool) (w : World) : World :=
  set_hub (mkHub (clients (hub w)) (conversations (hub w)) (broadcast (hub w))
                 (register (hub w)) (unregister (hub w)) b) w.

(** A world with a fresh hub, the given client objects, no goroutine. *)
Definition fresh_world (hp : gmap ptr Client) (t : Z) : World :=
  mkWorld hp NewHub [] [] t.

Definition deref (w : World) (c : ptr) : res Client :=
  match heap w !! c with
  | Some cl => Ok cl
  | None => Panic "nil pointer dereference"
  end.

Definition store (c : ptr) (cl : Client) (w : World) : World :=
  set_heap (<[c := cl]> (heap w)) w.

(** *** Registration *)

(** [if t[k] == nil { t[k] = make(...) }; t[k][c] = true] *)
Definition table_add (k : UUID) (c : ptr) (t : gmap UUID (gset ptr))
    : gmap UUID (gset ptr) :=
  <[k := {[c]} ∪ default ∅ (t !! k)]> t.

(** [delete(s, c); if len(s) == 0 { delete(t, k) }] for [s = t[k]] *)
Definition drop_member (k : UUID) (c : ptr) (s : gset ptr)
    (t : gmap UUID (gset ptr)) : gmap UUID (gset ptr) :=
  let s' := s ∖ {[c]} in
  if decide (size s' = 0)%nat then delete k t else <[k := s']> t.

Definition registerClient (client : ptr) (w : World) : res World :=
  cl ← deref w client;
  let cls := table_add (userID cl) client (clients (hub w)) in
  let cvs :=
    if decide (conversationID cl ≠ uuid_Nil)
    then table_add (conversationID cl) client (conversations (hub w))
    else conversations (hub w) in
  Ok (set_tables cls cvs w).

Definition unregisterClient (client : ptr) (w : World) : res World :=
  cl ← deref w client;
  w1 ← match clients (hub w) !! userID cl with
       | Some s =>
           if decide (client ∈ s) then
             ch ← chan_close (send cl);
             let w' := emit (EvClose client) (store client (set_send ch cl) w) in
             Ok (set_tables (drop_member (userID cl) client s (clients (hub w)))
                            (conversations (hub w)) w')
           else Ok w
       | None => Ok w
       end;
  if decide (conversationID cl ≠ uuid_Nil) then
    match conversations (hub w1) !! conversationID cl with
    | Some s =>
        Ok (set_tables (clients (hub w1))
                       (drop_member (conversationID cl) client s
                                    (conversations (hub w1))) w1)
    | None => Ok w1
    end
  else Ok w1.

(** *** Fan-out *)

(** A [for ... range] over clients, stopping at the first panic. *)
Fixpoint for_range (body : ptr → World → res World) (l : list ptr)
    (w : World) : res World :=
  match l with
  | [] => Ok w
  | c :: l' => w' ← body c w; for_range body l' w'
  end.

(** [go h.unregisterClient(client)] *)
Definition go_unregister (client : ptr) (w : World) : World :=
  emit (EvGo client) (set_goroutines (goroutines w ++ [client]) w).

(** The body of the loop of [broadcastMessage]. *)
Definition broadcast_one (data : bytes) (exclude : option ptr)
    (client : ptr) (w : World) : res World :=
  if decide (exclude = Some client) then Ok w
  else
    cl ← deref w client;
    r ← try_send data (send cl);
    match r with
    | Some ch => Ok (emit (EvSend client data) (store client (set_send ch cl) w))
    | None => Ok (go_unregister client (emit (EvFull client) w))
    end.

Definition broadcastMessage (b : BroadcastMessage) (w : World) : res World :=
  let w0 := emit EvMarshal w in
  match marshal (Message_ b) with
  | None => Ok w0
  | Some data =>
      match conversations (hub w0) !! ConversationID b with
      | Some cs =>
          for_range (broadcast_one data (ExcludeClient b)) (elements cs) w0
      | None => Ok w0
      end
  end.

(** [h.broadcast <- &BroadcastMessage{...}] *)
Definition BroadcastToConversation (conv : UUID) (m : Message)
    (exclude : option ptr) (w : World) : res World :=
  ch ← chan_send (mkBroadcast conv uuid_Nil m exclude) (broadcast (hub w));
  Ok (set_hub (mkHub (clients (hub w)) (conversations (hub w)) ch
                     (register (hub w)) (unregister (hub w)) (hub_ctx (hub w))) w).

(** The body of the loop of [BroadcastToUser]. *)
Definition user_one (data : bytes) (client : ptr) (w : World) : res World :=
  cl ← deref w client;
  r ← try_send data (send cl);
  match r with
  | Some ch => Ok (emit (EvSend client data) (store client (set_send ch cl) w))
  | None => Ok (emit (EvFull client) w)
  end.

Definition BroadcastToUser (uid : UUID) (m : Message) (w : World) : res World :=
  let w0 := emit EvMarshal w in
  match marshal m with
  | None => Ok w0
  | Some data =>
      match clients (hub w0) !! uid with
      | Some cs => for_range (user_one data) (elements cs) w0
      | None => Ok w0
      end
  end.

(** A [select] that found no case ready waits for [d]. *)
Definition wait (d : Z) (w : World) : World :=
  emit (EvWait d) (set_now (now w + d) w).

(** [SendToClient]: the returned [option] is the error. The [select] has the
    send and a five second timer; the timer wins only when the send is not
    ready, and the world does not change while the goroutine waits. *)
Definition SendToClient (client : ptr) (m : Message) (w : World)
    : res (option string * World) :=
  let w0 := emit EvMarshal w in
  match marshal m with
  | None => Ok (Some "json: unsupported value", w0)
  | Some data =>
      cl ← deref w0 client;
      if closed (send cl) || negb (chan_full (send cl)) then
        ch ← chan_send data (send cl);
        Ok (None, emit (EvSend client data) (store client (set_send ch cl) w0))
      else Ok (Some "timeout sending to client", wait (5 * second) w0)
  end.

(** *** Sweep, shutdown *)

Definition staleThreshold : Z := 5 * minute.

(** All the clients of the by-identity table, as the two nested [range]s
    visit them. *)
Definition all_clients (w : World) : list ptr :=
  concat (map (λ kv, elements (snd kv)) (map_to_list (clients (hub w)))).

Fixpoint collect_stale (t : Z) (l : list ptr) (w : World) : res (list ptr) :=
  match l with
  | [] => Ok []
  | c :: l' =>
      cl ← deref w c;
      rest ← collect_stale t l' w;
      Ok (if decide (t - lastActivity cl > staleThreshold) then c :: rest else rest)
  end.

Definition cleanupStaleConnections (w : World) : res World :=
  staleClients ← collect_stale (now w) (all_clients w) w;
  Ok (foldl (λ w' c, go_unregister c w') w staleClients).

Definition close_one (client : ptr) (w : World) : res World :=
  cl ← deref w client;
  ch ← chan_close (send cl);
  Ok (emit (EvClose client) (store client (set_send ch cl) w)).

Definition cleanup (w : World) : res World :=
  w' ← for_range close_one (all_clients w) w;
  Ok (set_tables ∅ ∅ w').

(** [Shutdown]: [h.cancel()]. *)
Definition Shutdown (w : World) : World := set_hub_ctx true w.

(** *** The command loop *)

(** The case a [select] of [Run] takes. *)
Inductive Select : Type :=
| SelDone
| SelRegister
| SelUnregister
| SelBroadcast
| SelCleanupTick
| SelStatsTick.

Inductive LoopState : Type := Running | Returned.

Definition set_register (ch : chan ptr) (w : World) : World :=
  set_hub (mkHub (clients (hub w)) (conversations (hub w)) (broadcast (hub w))
                 ch (unregister (hub w)) (hub_ctx (hub w))) w.

Definition set_unregister (ch : chan ptr) (w : World) : World :=
  set_hub (mkHub (clients (hub w)) (conversations (hub w)) (broadcast (hub w))
                 (register (hub w)) ch (hub_ctx (hub w))) w.

Definition set_broadcast (ch : chan BroadcastMessage) (w : World) : World :=
  set_hub (mkHub (clients (hub w)) (conversations (hub w)) ch
                 (register (hub w)) (unregister (hub w)) (hub_ctx (hub w))) w.

(** One iteration of the loop of [Run] that takes a case other than
    [ctx.Done()]. A receive from a closed channel gives nil. *)
Definition Run_case (s : Select) (w : World) : res World :=
  match s with
  | SelDone => Blocked
  | SelRegister =>
      '(v, ch) ← chan_recv (register (hub w));
      match v with
      | Some client => registerClient client (set_register ch w)
      | None => Panic "nil pointer dereference"
      end
  | SelUnregister =>
      '(v, ch) ← chan_recv (unregister (hub w));
      match v with
      | Some client => unregisterClient client (set_unregister ch w)
      | None => Panic "nil pointer dereference"
      end
  | SelBroadcast =>
      '(v, ch) ← chan_recv (broadcast (hub w));
      match v with
      | Some message => broadcastMessage message (set_broadcast ch w)
      | None => Panic "nil pointer dereference"
      end
  | SelCleanupTick => cleanupStaleConnections w
  | SelStatsTick => Ok w
  end.

(** [Run] along the cases the runtime picks; when the loop returns, the
    deferred [cleanup] runs. *)
Fixpoint Run (sels : list Select) (w : World) : res (LoopState * World) :=
  match sels with
  | [] => Ok (Running, w)
  | SelDone :: _ =>
      if hub_ctx (hub w) then w' ← cleanup w; Ok (Returned, w') else Blocked
  | s :: rest => w' ← Run_case s w; Run rest w'
  end.

(** ** The client *)

Definition SetReadDeadline (t : Z) (k : Conn) : Conn :=
  mkConn (Some t) (writeDeadline k) (readLimit k) (pongHandler k)
         (conn_closed k) (wire k).

Definition SetWriteDeadline (t : Z) (k : Conn) : Conn :=
  mkConn (readDeadline k) (Some t) (readLimit k) (pongHandler k)
         (conn_closed k) (wire k).

Definition SetReadLimit (n : Z) (k : Conn) : Conn :=
  mkConn (readDeadline k) (writeDeadline k) n (pongHandler k)
         (conn_closed k) (wire k).

Definition SetPongHandler (k : Conn) : Conn :=
  mkConn (readDeadline k) (writeDeadline k) (readLimit k) true
         (conn_closed k) (wire k).

Definition Conn_Close (k : Conn) : Conn :=
  mkConn (readDeadline k) (writeDeadline k) (readLimit k) (pongHandler k)
         true (wire k).

Definition write_frame (f : WireFrame) (k : Conn) : Conn :=
  mkConn (readDeadline k) (writeDeadline k) (readLimit k) (pongHandler k)
         (conn_closed k) (wire k ++ [f]).

Definition updateActivity (c : ptr) (w : World) : res World :=
  cl ← deref w c;
  Ok (store c (set_lastActivity (now w) cl) w).

(** [SendMessage]: the returned [option] is the error. The [select] has the
    send, a five second timer and [ctx.Done()]. The timer wins only when
    neither of the others is ready; when both others are ready the runtime
    picks one, [tie = true] standing for [ctx.Done()]. *)
Definition SendMessage (tie : bool) (c : ptr) (m : WebSocketMessage)
    (w : World) : res (option string * World) :=
  let w0 := emit EvMarshal w in
  match marshal (ofWS m) with
  | None => Ok (Some "failed to marshal message", w0)
  | Some data =>
      cl ← deref w0 c;
      if (closed (send cl) || negb (chan_full (send cl))) && negb (ctx cl && tie) then
        ch ← chan_send data (send cl);
        Ok (None, emit (EvSend c data) (store c (set_send ch cl) w0))
      else if ctx cl then Ok (Some "client context cancelled", w0)
      else Ok (Some "timeout sending message to client", wait (5 * second) w0)
  end.

Definition error_event (conv : UUID) (errorMsg : string) : WebSocketMessage :=
  with_Error errorMsg (NewWebSocketMessage MessageTypeError conv uuid_Nil).

Definition SendError (tie : bool) (c : ptr) (errorMsg : string) (w : World)
    : res World :=
  cl ← deref w c;
  '(_, w') ← SendMessage tie c (error_event (conversationID cl) errorMsg) w;
  Ok w'.

Definition handleIncomingMessage (tie : bool) (c : ptr) (msg : IncomingMessage)
    (w : World) : res (option string * World) :=
  cl ← deref w c;
  if String.eqb (Type_ msg) "message" then
    match messageHandler cl with
    | Some h => Ok (HandleMessage h c msg, w)
    | None => Ok (None, w)
    end
  else if String.eqb (Type_ msg) "typing" then
    match messageHandler cl with
    | Some h => Ok (HandleTyping h c, w)
    | None => Ok (None, w)
    end
  else if String.eqb (Type_ msg) "ping" then
    SendMessage tie c (NewWebSocketMessage "pong" (conversationID cl) uuid_Nil) w
  else Ok (Some ("unknown message type: " +:+ Type_ msg), w).

(** *** Reading from the connection

    What one call of [c.conn.ReadMessage()] meets: the pongs that arrive
    while it waits, then a data frame, a failure of the transport (the peer
    closed, the stream is corrupt), or nothing at all. [tie1] and [tie2]
    settle the [select]s of the replies sent within the iteration. *)

Inductive ReadOutcome : Type :=
| GotFrame (payload : bytes)
| ReadFailed
| Silence.

Record ReadInput : Type := mkInput {
  pongs : list Z;
  arrival : Z;
  outcome : ReadOutcome;
  tie1 : bool;
  tie2 : bool }.

(** The read waits until [t]: [false] when the read deadline passes first,
    and the read then fails at the deadline. *)
Definition await (t : Z) (c : ptr) (w : World) : res (bool * World) :=
  cl ← deref w c;
  let t' := Z.max (now w) t in
  match readDeadline (conn cl) with
  | Some d =>
      if decide (d < t') then Ok (false, set_now (Z.max (now w) d) w)
      else Ok (true, set_now t' w)
  | None => Ok (true, set_now t' w)
  end.

(** The pong handler [ReadPump] installs. *)
Definition on_pong (c : ptr) (w : World) : res World :=
  cl ← deref w c;
  if pongHandler (conn cl) then
    updateActivity c
      (store c (set_conn (SetReadDeadline (now w + pongWait) (conn cl)) cl) w)
  else Ok w.

Fixpoint read_pongs (ps : list Z) (c : ptr) (w : World) : res (bool * World) :=
  match ps with
  | [] => Ok (true, w)
  | t :: ps' =>
      '(alive, w1) ← await t c w;
      if (alive : bool) then w2 ← on_pong c w1; read_pongs ps' c w2
      else Ok (false, w1)
  end.

(** [c.conn.ReadMessage()]: [None] is an error. *)
Definition ReadMessage (inp : ReadInput) (c : ptr) (w : World)
    : res (option bytes * World) :=
  cl ← deref w c;
  if conn_closed (conn cl) then Ok (None, w)
  else
    '(alive, w1) ← read_pongs (pongs inp) c w;
    if (alive : bool) then
      cl1 ← deref w1 c;
      match outcome inp with
      | Silence =>
          match readDeadline (conn cl1) with
          | Some d => Ok (None, set_now (Z.max (now w1) d) w1)
          | None => Blocked
          end
      | ReadFailed =>
          '(_, w2) ← await (arrival inp) c w1; Ok (None, w2)
      | GotFrame payload =>
          '(alive', w2) ← await (arrival inp) c w1;
          if (alive' : bool) then
            if decide (0 < readLimit (conn cl1) ∧
                       readLimit (conn cl1) < Z.of_nat (length payload))
            then Ok (None, w2)
            else Ok (Some payload, w2)
          else Ok (None, w2)
      end
    else Ok (None, w1).

(** *** The read pump *)

Definition ReadPump_setup (c : ptr) (w : World) : res World :=
  cl ← deref w c;
  Ok (store c (set_conn (SetPongHandler (SetReadLimit maxMessageSize
         (SetReadDeadline (now w + pongWait) (conn cl)))) cl) w).

(** One iteration of the loop. *)
Definition ReadPump_iter (inp : ReadInput) (c : ptr) (w : World)
    : res (LoopState * World) :=
  cl ← deref w c;
  if ctx cl then Ok (Returned, w)
  else
    '(r, w1) ← ReadMessage inp c w;
    match r with
    | None => Ok (Returned, w1)
    | Some messageBytes =>
        w2 ← updateActivity c w1;
        match unmarshal messageBytes with
        | None =>
            w3 ← SendError (tie1 inp) c "Invalid message format" w2;
            Ok (Running, w3)
        | Some incomingMsg =>
            '(err, w3) ← handleIncomingMessage (tie1 inp) c incomingMsg w2;
            match err with
            | Some e =>
                w4 ← SendError (tie2 inp) c ("Error processing message: " +:+ e) w3;
                Ok (Running, w4)
            | None => Ok (Running, w3)
            end
        end
    end.

Fixpoint ReadPump_loop (inps : list ReadInput) (c : ptr) (w : World)
    : res (LoopState * World) :=
  match inps with
  | [] => Ok (Running, w)
  | inp :: rest =>
      '(st, w') ← ReadPump_iter inp c w;
      match st with
      | Returned => Ok (Returned, w')
      | Running => ReadPump_loop rest c w'
      end
  end.

(** The deferred function of [ReadPump]. *)
Definition ReadPump_defer (c : ptr) (w : World) : res World :=
  ch ← chan_send c (unregister (hub w));
  let w1 := emit (EvSubmit c) (set_unregister ch w) in
  cl ← deref w1 c;
  let w2 := emit (EvConnClose c) (store c (set_conn (Conn_Close (conn cl)) cl) w1) in
  cl2 ← deref w2 c;
  let w3 := emit (EvCancel c) (store c (set_ctx true cl2) w2) in
  match messageHandler cl2 with
  | Some _ => Ok (emit (EvDisconnect c) w3)
  | None => Ok w3
  end.

Definition ReadPump (inps : list ReadInput) (c : ptr) (w : World)
    : res (LoopState * World) :=
  w0 ← ReadPump_setup c w;
  '(st, w1) ← ReadPump_loop inps c w0;
  match st with
  | Returned => w2 ← ReadPump_defer c w1; Ok (Returned, w2)
  | Running => Ok (Running, w1)
  end.

(** *** The write pump *)

(** The case a [select] of [WritePump] takes, with the errors the
    connection answers the writes of the iteration with. *)
Inductive WSelect : Type :=
| WDone
| WRecv (nextWriterErr closeErr : bool)
| WTick (pingErr : bool).

(** [for i := 0; i < n; i++ { w.Write(newline); w.Write(<-c.send) }] *)
Fixpoint drain (n : nat) (ch : chan bytes) (acc : bytes)
    : res (bytes * chan bytes) :=
  match n with
  | O => Ok (acc, ch)
  | S n' =>
      '(v, ch') ← chan_recv ch;
      drain n' ch' (acc ++ newline :: default [] v)
  end.

Definition WritePump_iter (sel : WSelect) (c : ptr) (w : World)
    : res (LoopState * World) :=
  cl ← deref w c;
  match sel with
  | WDone => if ctx cl then Ok (Returned, w) else Blocked
  | WRecv nextWriterErr closeErr =>
      '(v, ch) ← chan_recv (send cl);
      let k := SetWriteDeadline (now w + writeWait) (conn cl) in
      match v with
      | None =>
          let k' := if conn_closed k then k else write_frame CloseMessage k in
          Ok (Returned, store c (set_conn k' (set_send ch cl)) w)
      | Some message =>
          if conn_closed k || nextWriterErr then
            Ok (Returned, store c (set_conn k (set_send ch cl)) w)
          else
            '(payload, ch') ← drain (chan_len ch) ch message;
            if closeErr then
              Ok (Returned, store c (set_conn k (set_send ch' cl)) w)
            else
              Ok (Running, store c (set_conn (write_frame (TextMessage payload) k)
                                             (set_send ch' cl)) w)
      end
  | WTick pingErr =>
      let k := SetWriteDeadline (now w + writeWait) (conn cl) in
      if conn_closed k || pingErr then Ok (Returned, store c (set_conn k cl) w)
      else Ok (Running, store c (set_conn (write_frame PingMessage k) cl) w)
  end.

(** The deferred function of [WritePump]. *)
Definition WritePump_defer (c : ptr) (w : World) : res World :=
  cl ← deref w c;
  let w1 := emit (EvConnClose c) (store c (set_conn (Conn_Close (conn cl)) cl) w) in
  cl1 ← deref w1 c;
  Ok (emit (EvCancel c) (store c (set_ctx true cl1) w1)).

Fixpoint WritePump (sels : list WSelect) (c : ptr) (w : World)
    : res (LoopState * World) :=
  match sels with
  | [] => Ok (Running, w)
  | sel :: rest =>
      '(st, w') ← WritePump_iter sel c w;
      match st with
      | Returned => w'' ← WritePump_defer c w'; Ok (Returned, w'')
      | Running => WritePump rest c w'
      end
  end.

(** ** The system: the loop, the goroutines and the callers

    One transition of the whole program. The hub's loop, a goroutine
    started by [go h.unregisterClient(c)], a caller of the hub's API, and a
    pump of a connection each take the lock (or none) for the length of one
    call, so each call is one transition. *)

Inductive Label : Type :=
| LLoop (s : Select)                       (* an iteration of [Run] *)
| LGoroutine (i : nat)                     (* the [i]-th pending goroutine runs *)
| LAdmit (c : ptr)                         (* [h.hub.register <- client] *)
| LBroadcastToConversation (conv : UUID) (m : Message) (exclude : option ptr)
| LBroadcastToUser (uid : UUID) (m : Message)
| LSendToClient (c : ptr) (m : Message)
| LShutdown
| LReadPump (c : ptr) (inp : ReadInput)    (* an iteration of a read pump *)
| LWritePump (c : ptr) (sel : WSelect)     (* an iteration of a write pump *)
| LTime (d : Z).                           (* [d] passes *)

Definition step (l : Label) (w : World) : res World :=
  match l with
  | LLoop SelDone =>
      if hub_ctx (hub w) then cleanup w else Blocked
  | LLoop s => Run_case s w
  | LGoroutine i =>
      match goroutines w !! i with
      | Some c => unregisterClient c (set_goroutines (delete i (goroutines w)) w)
      | None => Blocked
      end
  | LAdmit c =>
      ch ← chan_send c (register (hub w)); Ok (set_register ch w)
  | LBroadcastToConversation conv m exclude =>
      BroadcastToConversation conv m exclude w
  | LBroadcastToUser uid m => BroadcastToUser uid m w
  | LSendToClient c m => '(_, w') ← SendToClient c m w; Ok w'
  | LShutdown => Ok (Shutdown w)
  | LReadPump c inp =>
      '(st, w') ← ReadPump_iter inp c w;
      match st with
      | Returned => ReadPump_defer c w'
      | Running => Ok w'
      end
  | LWritePump c sel =>
      '(st, w') ← WritePump_iter sel c w;
      match st with
      | Returned => WritePump_defer c w'
      | Running => Ok w'
      end
  | LTime d => Ok (set_now (now w + Z.max 0 d) w)
  end.

Fixpoint steps (ls : list Label) (w : World) : res World :=
  match ls with
  | [] => Ok w
  | l :: ls' => w' ← step l w; steps ls' w'
  end.

(** The two membership tables. *)
Definition tables (w : World) : gmap UUID (gset ptr) * gmap UUID (gset ptr) :=
  (clients (hub w), conversations (hub w)).

(** ** Sequences of registrations and unregistrations *)

Inductive HubOp : Type :=
| OpRegister (c : ptr)
| OpUnregister (c : ptr).

Definition apply_op (o : HubOp) (w : World) : res World :=
  match o with
  | OpRegister c => registerClient c w
  | OpUnregister c => unregisterClient c w
  end.

Fixpoint run_ops (ops : list HubOp) (w : World) : res World :=
  match ops with
  | [] => Ok w
  | o :: ops' => w' ← apply_op o w; run_ops ops' w'
  end.

(** [c] is in the set the table holds for [k]. *)
Definition member (t : gmap UUID (gset ptr)) (k : UUID) (c : ptr) : Prop :=
  ∃ s, t !! k = Some s ∧ c ∈ s.

Definition no_empty (t : gmap UUID (gset ptr)) : Prop :=
  ∀ k s, t !! k = Some s → s ≠ ∅.

(** The invariant of the membership tables. *)
Record tables_inv (w : World) : Prop := mk_tables_inv {
  inv_clients_no_empty : no_empty (clients (hub w));
  inv_conversations_no_empty : no_empty (conversations (hub w));
  inv_identity :
    ∀ u c, member (clients (hub w)) u c →
      ∃ cl, heap w !! c = Some cl ∧ userID cl = u;
  inv_room :
    ∀ r c, member (conversations (hub w)) r c →
      ∃ cl, heap w !! c = Some cl ∧ conversationID cl = r ∧ r ≠ uuid_Nil ∧
            member (clients (hub w)) (userID cl) c }.


(** ** Vocabulary of the properties *)

(** The identity and the room of a client never change. *)
Definition same_ids (w w' : World) : Prop :=
  ∀ c cl, heap w !! c = Some cl →
    ∃ cl', heap w' !! c = Some cl' ∧ userID cl' = userID cl ∧
           conversationID cl' = conversationID cl.

(** The clients a sequence registers, in order. *)
Definition registers (ops : list HubOp) : list ptr :=
  omap (λ o, match o with OpRegister c => Some c | OpUnregister _ => None end) ops.

(** Every registered client is an object of the identity it is filed
    under, with an open queue. *)
Definition registered_open (w : World) : Prop :=
  ∀ u c, member (clients (hub w)) u c →
    ∃ cl, heap w !! c = Some cl ∧ userID cl = u ∧ closed (send cl) = false.

(** A sequence the hub can run from [w]: no client is registered twice,
    the clients it registers are objects with an open queue that are not
    registered yet, and the clients it unregisters are objects. *)
Record run_ready (ops : list HubOp) (w : World) : Prop := {
  rr_nodup : NoDup (registers ops);
  rr_fresh : ∀ c, c ∈ registers ops →
    (∃ cl, heap w !! c = Some cl ∧ closed (send cl) = false) ∧
    ∀ u, ¬ member (clients (hub w)) u c;
  rr_objects : ∀ c, OpUnregister c ∈ ops → is_Some (heap w !! c);
  rr_open : registered_open w }.

(** What the loop of a delivery did for one recipient: the value is at the
    tail of its queue, or the queue was full and has not changed. *)
Definition attempted (data : bytes) (c : ptr) (w w' : World)
    (evs : list Event) : Prop :=
  ∃ cl, heap w !! c = Some cl ∧ closed (send cl) = false ∧
    if chan_full (send cl)
    then heap w' !! c = Some cl ∧ EvFull c ∈ evs
    else heap w' !! c = Some (set_send (enqueue data (send cl)) cl) ∧
         EvSend c data ∈ evs.

(** The bodies of the two delivery loops differ in what they do on a full
    queue ([spawn]: start a goroutine that unregisters the client) and in
    whether a client can be excluded. *)
Definition deliver_one (spawn : bool) (data : bytes) (exclude : option ptr)
    (client : ptr) (w : World) : res World :=
  if decide (exclude = Some client) then Ok w
  else
    cl ← deref w client;
    r ← try_send data (send cl);
    match r with
    | Some ch => Ok (emit (EvSend client data) (store client (set_send ch cl) w))
    | None =>
        Ok (if spawn then go_unregister client (emit (EvFull client) w)
            else emit (EvFull client) w)
    end.

Definition all_open (l : list ptr) (w : World) : Prop :=
  ∀ c, c ∈ l → ∃ cl, heap w !! c = Some cl ∧ closed (send cl) = false.

(** The transitions of the command loop. *)
Definition in_command_loop (l : Label) : Prop :=
  match l with
  | LLoop _ => True
  | _ => False
  end.

(** The transitions that run [registerClient], [unregisterClient] or
    [cleanup]: the three methods that take the write lock and assign to the
    tables. Two are cases of the loop and its exit; the third also runs in
    the goroutines that [broadcastMessage] and [cleanupStaleConnections]
    start. *)
Definition writes_tables (l : Label) : Prop :=
  match l with
  | LLoop SelRegister | LLoop SelUnregister | LLoop SelDone => True
  | LGoroutine _ => True
  | _ => False
  end.

(** The part of a client a read touches is its connection and its
    last-activity time: the queue, the context, the identity, the room and
    the handler stay, and so do the hub, the goroutines and the trace. *)
Definition reads_only (c : ptr) (w w1 : World) : Prop :=
  hub w1 = hub w ∧ goroutines w1 = goroutines w ∧ trace w1 = trace w ∧
  ∀ cl, heap w !! c = Some cl →
    ∃ cl1, heap w1 !! c = Some cl1 ∧ send cl1 = send cl ∧ ctx cl1 = ctx cl ∧
           userID cl1 = userID cl ∧ conversationID cl1 = conversationID cl ∧
           messageHandler cl1 = messageHandler cl.

Definition known_type (t : string) : bool :=
  String.eqb t "message" || String.eqb t "typing" || String.eqb t "ping".

(** The text of the error reply a payload calls for: it does not decode, or
    it decodes to an event of an unknown type. *)
Definition protocol_error (payload : bytes) : option string :=
  match unmarshal payload with
  | None => Some "Invalid message format"
  | Some msg =>
      if known_type (Type_ msg) then None
      else Some ("Error processing message: " +:+
                 ("unknown message type: " +:+ Type_ msg))
  end.

(** The [select] that settles the reply to a payload. *)
Definition reply_tie (inp : ReadInput) (payload : bytes) : bool :=
  match unmarshal payload with
  | None => tie1 inp
  | Some _ => tie2 inp
  end.

Definition occurrences (e : Event) (evs : list Event) : nat :=
  length (filter (λ x, x = e) evs).

(** The events the loop of a pump can emit: those of a send. *)
Definition send_event (e : Event) : Prop :=
  match e with
  | EvMarshal | EvSend _ _ | EvWait _ => True
  | _ => False
  end.

(** [w'] extends the trace of [w] by events of sends, and keeps the
    handler of [c]. *)
Definition pumps_on (c : ptr) (w w' : World) : Prop :=
  (∃ evs, trace w' = trace w ++ evs ∧ Forall send_event evs) ∧
  ∀ cl, heap w !! c = Some cl →
    ∃ cl', heap w' !! c = Some cl' ∧ messageHandler cl' = messageHandler cl.

(** The connection of [c] is the same in [w'] as in [w]. *)
Definition keeps_conn (c : ptr) (w w' : World) : Prop :=
  ∀ cl, heap w !! c = Some cl →
    ∃ cl', heap w' !! c = Some cl' ∧ conn cl' = conn cl.

(** What a broadcast puts on the queue of [c], a member of room [R]: its
    serialisation, when it is for that room, does not exclude [c] and
    serialises. *)
Definition for_member (c : ptr) (R : UUID) (b : BroadcastMessage) : option bytes :=
  if decide (ConversationID b = R ∧ ExcludeClient b ≠ Some c)
  then marshal (Message_ b) else None.

(** The broadcasts waiting in the hub's channel, as [c] will get them. *)
Definition pending (c : ptr) (R : UUID) (w : World) : list bytes :=
  omap (for_member c R) (buf (broadcast (hub w))).

(** The broadcasts the callers of a run submit, in the order of the calls. *)
Definition calls (ls : list Label) : list BroadcastMessage :=
  omap (λ l, match l with
             | LBroadcastToConversation conv m x => Some (mkBroadcast conv uuid_Nil m x)
             | _ => None
             end) ls.

(** The payloads of the text frames written to a connection. *)
Definition wire_text (k : Conn) : list bytes :=
  omap (λ f, match f with TextMessage p => Some p | _ => None end) (wire k).

(** The payload of the frame that carries the queued items [chunk]: the
    items in order, a newline between two. *)
Definition frame_of (chunk : list bytes) : bytes :=
  match chunk with
  | [] => []
  | m :: rest => m ++ concat (map (λ x, newline :: x) rest)
  end.

(** The transitions of a run in which broadcasts are called, the loop
    processes them, and the write pump of [c] writes without error. *)
Definition fifo_label (c : ptr) (l : Label) : Prop :=
  match l with
  | LBroadcastToConversation _ _ _ => True
  | LLoop SelBroadcast => True
  | LWritePump c' (WRecv false false) => c' = c
  | _ => False
  end.

(** [c] is a registered member of room [R] and of no other, with an open
    queue and an open connection. *)
Record member_ok (c : ptr) (cl : Client) (R : UUID) (w : World) : Prop := {
  mo_heap : heap w !! c = Some cl;
  mo_open : closed (send cl) = false;
  mo_conn : conn_closed (conn cl) = false;
  mo_member : member (conversations (hub w)) R c;
  mo_only : ∀ r, member (conversations (hub w)) r c → r = R }.


(** A client whose last activity is more than [staleThreshold] before [t]. *)
Definition stale (t : Z) (w : World) (c : ptr) : Prop :=
  ∃ cl, heap w !! c = Some cl ∧ t - lastActivity cl > staleThreshold.

(** ** The queries of the hub

    Each takes the read lock for the length of the call and reads the
    tables. *)

(** [GetConversationClients]: the members of a room in the order of the
    [range], [nil] when the room has no entry. *)
Definition GetConversationClients (conv : UUID) (w : World) : list ptr :=
  match conversations (hub w) !! conv with
  | Some conversationClients => elements conversationClients
  | None => []
  end.

Definition GetUserClients (uid : UUID) (w : World) : list ptr :=
  match clients (hub w) !! uid with
  | Some userClients => elements userClients
  | None => []
  end.

(** [clients, ok := h.clients[userID]; return ok && len(clients) > 0] *)
Definition IsUserConnected (uid : UUID) (w : World) : bool :=
  match clients (hub w) !! uid with
  | Some cs => bool_decide (0 < size cs)%nat
  | None => false
  end.

Definition GetConversationClientCount (conv : UUID) (w : World) : nat :=
  match conversations (hub w) !! conv with
  | Some cs => size cs
  | None => 0%nat
  end.

(** [for _, clients := range h.clients { totalClients += len(clients) }] *)
Definition count_clients (t : gmap UUID (gset ptr)) : nat :=
  foldl (λ totalClients kv, (totalClients + size (snd kv))%nat) 0%nat
        (map_to_list t).

(** The map [GetStats] returns, by key. *)
Record Stats : Type := mkStats {
  total_clients : nat;
  unique_users : nat;
  active_conversations : nat;
  timestamp : Z }.

Definition GetStats (w : World) : Stats :=
  mkStats (count_clients (clients (hub w)))
          (size (clients (hub w)))
          (size (conversations (hub w)))
          (now w).

(** ** The other methods of a client *)

(** [uuid.UUID.String()] belongs to google/uuid. *)
Variable uuid_String : UUID → string.

Definition with_Metadata (md : list (string * bytes)) (m : WebSocketMessage)
    : WebSocketMessage :=
  mkWS (ws_Type m) (ws_ConversationID m) (ws_MessageID m) (ws_Role m)
       (ws_Content m) (ws_Delta m) (ws_Error m) md.

(** The event of [SendTypingIndicator]; the two values of the metadata are
    kept as their text. *)
Definition typing_event (cl : Client) (isTyping : bool) : WebSocketMessage :=
  with_Metadata
    [("user_id", String.list_byte_of_string (uuid_String (userID cl)));
     ("is_typing", String.list_byte_of_string (if isTyping then "true" else "false"))]
    (NewWebSocketMessage MessageTypeTyping (conversationID cl) uuid_Nil).

Definition SendTypingIndicator (isTyping : bool) (c : ptr) (w : World)
    : res World :=
  cl ← deref w c;
  BroadcastToConversation (conversationID cl) (ofWS (typing_event cl isTyping))
                          (Some c) w.

(** [Client.BroadcastToConversation] *)
Definition Client_BroadcastToConversation (c : ptr) (m : WebSocketMessage)
    (w : World) : res World :=
  cl ← deref w c;
  BroadcastToConversation (conversationID cl) (ofWS m) None w.

Definition BroadcastToConversationExceptSelf (c : ptr) (m : WebSocketMessage)
    (w : World) : res World :=
  cl ← deref w c;
  BroadcastToConversation (conversationID cl) (ofWS m) (Some c) w.

Definition GetLastActivity (c : ptr) (w : World) : res Z :=
  cl ← deref w c; Ok (lastActivity cl).

Definition GetUserID (c : ptr) (w : World) : res UUID :=
  cl ← deref w c; Ok (userID cl).

Definition GetConversationID (c : ptr) (w : World) : res UUID :=
  cl ← deref w c; Ok (conversationID cl).

Definition GetID (c : ptr) (w : World) : res string :=
  cl ← deref w c; Ok (client_id cl).

(** [Client.Close]: [c.cancel()], then [c.conn.Close()], whose error is the
    transport's and is left out. *)
Definition Client_Close (c : ptr) (w : World) : res World :=
  cl ← deref w c;
  let w1 := emit (EvCancel c) (store c (set_ctx true cl) w) in
  cl1 ← deref w1 c;
  Ok (emit (EvConnClose c) (store c (set_conn (Conn_Close (conn cl1)) cl1) w1)).

(** ** The chat handler, the router the application installs *)

(** [truncate]: [len] counts bytes, and [s[:maxLen]] panics when [maxLen]
    is negative. *)
Definition truncate (s : string) (maxLen : Z) : res string :=
  if decide (Z.of_nat (String.length s) ≤ maxLen) then Ok s
  else if decide (maxLen < 0) then Panic "slice bounds out of range"
  else Ok (String.substring 0 (Z.to_nat maxLen) s +:+ "...").

Definition generateMockResponse (input : string) : res string :=
  t ← truncate input 50;
  Ok ("I received your message: '" +:+ t +:+
      "'. I'm an AI assistant helping you create UGC ad content. How can I assist you with your product advertisement needs?").

(** [ChatHandler.HandleTyping] *)
Definition ChatHandler_HandleTyping (client : ptr) (w : World)
    : res (option string * World) :=
  w' ← SendTypingIndicator true client w;
  Ok (None, w').

(** ** More vocabulary *)

(** The clients a run admits, in order. *)
Definition admits (ls : list Label) : list ptr :=
  omap (λ l, match l with LAdmit c => Some c | _ => None end) ls.

(** A computation that does not panic: it returns, or it waits. *)
Definition safe {A : Type} (r : res A) : Prop := ∀ msg, r ≠ Panic msg.

(** No client changes its identity or its room, and no queue is closed or
    reopened. *)
Definition keeps_queues (w w' : World) : Prop :=
  ∀ c cl, heap w !! c = Some cl →
    ∃ cl', heap w' !! c = Some cl' ∧ userID cl' = userID cl ∧
      conversationID cl' = conversationID cl ∧
      closed (send cl') = closed (send cl).

(** A call that leaves the hub and the goroutines as they are, and keeps
    the queues. *)
Definition quiet (w w' : World) : Prop :=
  hub w' = hub w ∧ goroutines w' = goroutines w ∧ keeps_queues w w'.

(** The transitions that name a client name one that exists. *)
Definition label_ok (hp : gmap ptr Client) (l : Label) : Prop :=
  match l with
  | LSendToClient c _ | LReadPump c _ | LWritePump c _ => is_Some (hp !! c)
  | _ => True
  end.

(** The client a transition sends to on its own queue, outside the
    delivery loops of the hub: the target of [SendToClient], and the client
    whose read pump got a frame, which it may answer. *)
Definition sends_directly (l : Label) : option ptr :=
  match l with
  | LSendToClient c _ => Some c
  | LReadPump c inp =>
      match outcome inp with
      | GotFrame _ => Some c
      | _ => None
      end
  | _ => None
  end.

Definition queue_closed (c : ptr) (w : World) : Prop :=
  ∃ cl, heap w !! c = Some cl ∧ closed (send cl) = true.

(** The invariant of a run from a fresh hub. [pend] are the clients still
    to be admitted. The tables are well formed and hold clients with open
    queues; the channels of the hub are open; the clients waiting to be
    registered are distinct, have open queues and are not registered; the
    clients submitted for unregistration and those of the pending
    goroutines exist. *)
Record hub_inv (hp : gmap ptr Client) (pend : list ptr) (w : World) : Prop := {
  hi_tables : tables_inv w;
  hi_open : registered_open w;
  hi_register : closed (register (hub w)) = false;
  hi_unregister : closed (unregister (hub w)) = false;
  hi_broadcast : closed (broadcast (hub w)) = false;
  hi_heap : ∀ c, is_Some (hp !! c) → is_Some (heap w !! c);
  hi_nodup : NoDup (buf (register (hub w)) ++ pend);
  hi_pending : ∀ c, c ∈ buf (register (hub w)) ++ pend →
    (∃ cl, heap w !! c = Some cl ∧ closed (send cl) = false) ∧
    ∀ u, ¬ member (clients (hub w)) u c;
  hi_submitted : ∀ c, c ∈ buf (unregister (hub w)) → is_Some (heap w !! c);
  hi_goroutines : ∀ c, c ∈ goroutines w → is_Some (heap w !! c) }.

(** What the handler of a client answers to a frame of type [message] or
    [typing]; no handler, no error. *)
Definition handler_result (cl : Client) (c : ptr) (msg : IncomingMessage)
    : option string :=
  match messageHandler cl with
  | Some h =>
      if String.eqb (Type_ msg) "message" then HandleMessage h c msg
      else HandleTyping h c
  | None => None
  end.

(** What the hub has done with an event for room [conv] that excludes [x],
    between [w] and [w2]: the tables are the same; the clients outside the
    room and the excluded client are as they were; and each other member
    has the serialised event at the tail of its queue, or, its queue being
    full, is as it was. *)
Definition delivered (conv : UUID) (m : Message) (x : option ptr)
    (w w2 : World) : Prop :=
  tables w2 = tables w ∧
  (∀ c, ¬ member (conversations (hub w)) conv c ∨ x = Some c →
        heap w2 !! c = heap w !! c) ∧
  ∀ data c, marshal m = Some data →
    member (conversations (hub w)) conv c → x ≠ Some c →
    ∃ cl, heap w !! c = Some cl ∧
      heap w2 !! c
      = Some (if chan_full (send cl) then cl
              else set_send (enqueue data (send cl)) cl).
End Websocket.

Arguments BroadcastMessage : clear implicits.
Arguments Hub : clear implicits.
Arguments World : clear implicits.
Arguments Label : clear implicits.

Definition demo_marshal (m : WebSocketMessage) : option bytes :=
  if String.eqb (ws_Type m) "" then None
  else Some (String.list_byte_of_string (ws_Type m +:+ ":" +:+ ws_Error m)).

Definition demo_unmarshal (b : bytes) : option IncomingMessage :=
  match b with
  | [] => None
  | _ => Some (mkIncoming (String.string_of_list_byte b) "" 0%N [] [])
  end.

Definition demo_handler : MessageHandler :=
  mkHandler (λ _ _, None) (λ _, None) (λ _, None).

Definition full_chan : chan bytes := Chan (replicate sendBufferSize []) sendBufferSize false.

Definition demo_heap : gmap positive Client :=
  <[1%positive := NewClient "tab-1" 1%N 7%N (Some demo_handler) 0]>
  (<[2%positive := NewClient "tab-2" 1%N 7%N (Some demo_handler) 0]>
  (<[3%positive := NewClient "other" 2%N 7%N (Some demo_handler) 0]>
  (<[4%positive := NewClient "roomless" 3%N uuid_Nil None 0]>
  (<[5%positive := set_send full_chan (NewClient "slow" 4%N 7%N (Some demo_handler) 0)]>
   ∅)))).

Definition demo_world : World WebSocketMessage := fresh_world demo_heap 0.

(** The world a result holds, [demo_world] when there is none. *)
Definition world_of (r : res (World WebSocketMessage)) : World WebSocketMessage :=
  match r with
  | Ok w => w
  | _ => demo_world
  end.

Definition demo_ops : list HubOp :=
  [OpRegister 1; OpRegister 2; OpRegister 3; OpRegister 4; OpRegister 5;
   OpUnregister 2; OpUnregister 4; OpUnregister 2]%positive.

(** All five registered. *)
Definition registered_world : World WebSocketMessage :=
  world_of (run_ops [OpRegister 1; OpRegister 2; OpRegister 3; OpRegister 4;
                     OpRegister 5]%positive demo_world).

Definition hello : WebSocketMessage := NewWebSocketMessage "stream_start" 7%N 1%N.

(** A broadcast to room 7 that excludes tab 1. *)
Definition demo_broadcast : BroadcastMessage WebSocketMessage :=
  mkBroadcast 7%N uuid_Nil hello (Some 1%positive).

Definition after_broadcast : World WebSocketMessage :=
  world_of (broadcastMessage demo_marshal demo_broadcast registered_world).

(** C3 at an input: client 6 registers through the loop and falls silent;
    the sweep case of the loop starts a goroutine for it; the transition
    that then empties both tables is that goroutine's, not one of the
    loop. *)
Definition stale_heap : gmap positive Client :=
  <[6%positive := NewClient "silent" 9%N 8%N None 0]> ∅.

Definition swept_world : World WebSocketMessage :=
  world_of (steps demo_marshal demo_unmarshal id
              [LAdmit 6%positive; LLoop SelRegister; LTime (6 * minute);
               LLoop SelCleanupTick]
              (fresh_world stale_heap 0)).

(** The five registered clients six minutes later, none of them heard
    from since it was admitted. *)
Definition idle_world : World WebSocketMessage :=
  world_of (step demo_marshal demo_unmarshal id (LTime (6 * minute))
              registered_world).

(** C5 at an input: the queue of client 5 is full; a direct delivery to its
    identity drops the event, leaves the client in both tables and starts
    no goroutine, and the next iterations of the loop do not remove it. *)
Definition after_direct : World WebSocketMessage :=
  world_of (BroadcastToUser demo_marshal 4%N hello registered_world).

(** The object at an address, a blank client when there is none. *)
Definition client_of (w : World WebSocketMessage) (c : positive) : Client :=
  default (NewClient "" 0%N 0%N None 0) (heap w !! c).

(** Inputs of the read pump: a frame at time [t], and a failed read. *)
Definition frame_at (t : Z) (payload : string) : ReadInput :=
  mkInput [] t (GotFrame (String.list_byte_of_string payload)) false false.

Definition peer_closes (t : Z) : ReadInput := mkInput [] t ReadFailed false false.

(** C4 at an input. The pump of client 1 starts at time 0, so the deadline
    is at 60 s. A typing event arrives at 30 s and is handled; the deadline
    is still at 60 s, not at 90 s. The next frame arrives at 70 s, 40 s
    after the last one: the read has failed at 60 s and the pump returns. *)
Definition pump_started : World WebSocketMessage :=
  world_of (ReadPump_setup 1%positive registered_world).

Definition after_typing : World WebSocketMessage :=
  world_of (step demo_marshal demo_unmarshal id
              (LReadPump 1%positive (frame_at (30 * second) "typing")) pump_started).

(** C6 at an input: two broadcasts to room 7 are called, the loop processes
    one, the write pump of client 3 writes, the loop processes the other,
    the pump writes again. *)
Definition delta (s : string) : WebSocketMessage :=
  mkWS "content_delta" 7%N 1%N "" "" s s [].

Definition fifo_run : list (Label WebSocketMessage) :=
  [LBroadcastToConversation 7%N (delta "a") None;
   LBroadcastToConversation 7%N (delta "b") None;
   LLoop SelBroadcast;
   LWritePump 3%positive (WRecv false false);
   LBroadcastToConversation 7%N (delta "c") None;
   LLoop SelBroadcast;
   LLoop SelBroadcast;
   LWritePump 3%positive (WRecv false false)].

Definition after_fifo_run : World WebSocketMessage :=
  world_of (steps demo_marshal demo_unmarshal id fifo_run registered_world).

(** C8 at an input: client 1 handles a frame, then its peer closes. *)
Definition after_pump : World WebSocketMessage :=
  match ReadPump demo_marshal demo_unmarshal id
          [frame_at 5 "bogus"; peer_closes 9] 1%positive registered_world with
  | Ok (_, w) => w
  | _ => demo_world
  end.

(** The stand-in for [uuid.UUID.String()]. *)
Definition demo_uuid_String (u : N) : string := "user".

(** The world a pump leaves, [demo_world] when it did not return a world. *)
Definition world_of_pump (r : res (LoopState * World WebSocketMessage))
    : World WebSocketMessage :=
  match r with
  | Ok (_, w) => w
  | _ => demo_world
  end.

(** Clients 1 and 5 are admitted and registered; a broadcast to their room
    finds the queue of client 5 full, and the goroutine it starts
    unregisters client 5, whose write pump writes what was queued; then a
    frame of an unknown type arrives for client 5. *)
Definition evicted_run : list (Label WebSocketMessage) :=
  [LAdmit 1%positive; LLoop SelRegister; LAdmit 5%positive; LLoop SelRegister;
   LBroadcastToConversation 7%N hello None; LLoop SelBroadcast;
   LGoroutine 0; LWritePump 5%positive (WRecv false false);
   LReadPump 5%positive (frame_at 5 "bogus")].

Definition ping_msg : IncomingMessage := mkIncoming "ping" "" 0%N [] [].
Definition typing_msg : IncomingMessage := mkIncoming "typing" "" 0%N [] [].

(** * Properties *)

Section Properties.

Context {Message : Type}.
Variable marshal : Message → option bytes.
Variable unmarshal : bytes → option IncomingMessage.
Variable ofWS : WebSocketMessage → Message.

#[local] Set Default Proof Using "Type".

Local Abbreviation BroadcastMessage := (BroadcastMessage Message).
Local Abbreviation World := (World Message).
Local Abbreviation Label := (Label Message).
Local Abbreviation fresh_world := (@fresh_world Message).
Local Abbreviation broadcast_one := (@broadcast_one Message).
Local Abbreviation deliver_one := (@deliver_one Message).
Local Abbreviation broadcastMessage := (broadcastMessage marshal).
Local Abbreviation BroadcastToUser := (BroadcastToUser marshal).
Local Abbreviation SendToClient := (SendToClient marshal).
Local Abbreviation Run_case := (Run_case marshal).
Local Abbreviation Run := (Run marshal).
Local Abbreviation SendMessage := (SendMessage marshal ofWS).
Local Abbreviation SendError := (SendError marshal ofWS).
Local Abbreviation handleIncomingMessage := (handleIncomingMessage marshal ofWS).
Local Abbreviation ReadPump_iter := (ReadPump_iter marshal unmarshal ofWS).
Local Abbreviation ReadPump_loop := (ReadPump_loop marshal unmarshal ofWS).
Local Abbreviation ReadPump := (ReadPump marshal unmarshal ofWS).
Local Abbreviation step := (step marshal unmarshal ofWS).
Local Abbreviation steps := (steps marshal unmarshal ofWS).
Local Abbreviation protocol_error := (protocol_error unmarshal).
Local Abbreviation reply_tie := (reply_tie unmarshal).
Local Abbreviation for_member := (for_member marshal).
Local Abbreviation pending := (pending marshal).

Implicit Types w v : World.



(** ** Basic facts on results and channels *)

Lemma bind_Ok {A B} (m : res A) (f : A → res B) (b : B) :
  m ≫= f = Ok b ↔ ∃ a, m = Ok a ∧ f a = Ok b.
Proof.
  destruct m as [a|msg|]; simpl; split.
  - eauto.
  - by intros (a' & [= ->] & ?).
  - done.
  - by intros (? & ? & ?).
  - done.
  - by intros (? & ? & ?).
Qed.

Lemma deref_Ok (w : World) c cl : deref w c = Ok cl ↔ heap w !! c = Some cl.
Proof. unfold deref. destruct (heap w !! c); naive_solver. Qed.

Lemma chan_close_Ok {A} (ch ch' : chan A) :
  chan_close ch = Ok ch' ↔ closed ch = false ∧ ch' = Chan (buf ch) (cap ch) true.
Proof. unfold chan_close. destruct (closed ch); naive_solver. Qed.

Lemma try_send_open {A} (v : A) (ch : chan A) :
  closed ch = false →
  try_send v ch = Ok (if chan_full ch then None else Some (enqueue v ch)).
Proof. unfold try_send. intros ->. by destruct (chan_full ch). Qed.

(** ** The table operations *)

Lemma member_table_add t k c k' c' :
  member (table_add k c t) k' c' ↔ (k' = k ∧ c' = c) ∨ member t k' c'.
Proof.
  unfold member, table_add. destruct (decide (k' = k)) as [->|Hne].
  - rewrite lookup_insert_eq. split.
    + intros (s & [= <-] & Hin). apply elem_of_union in Hin as [Hin|Hin].
      * left. split; [done|]. by apply elem_of_singleton in Hin.
      * right. destruct (t !! k) as [s0|] eqn:Hk; simpl in Hin; [eauto|set_solver].
    + intros [[_ ->]|(s & Hs & Hin)].
      * eexists. split; [done|]. set_solver.
      * eexists. split; [done|]. rewrite Hs. simpl. set_solver.
  - rewrite lookup_insert_ne by done. naive_solver.
Qed.

Lemma no_empty_table_add t k c : no_empty t → no_empty (table_add k c t).
Proof.
  intros Ht k' s. unfold table_add. destruct (decide (k' = k)) as [->|Hne].
  - rewrite lookup_insert_eq. intros [= <-]. set_solver.
  - rewrite lookup_insert_ne by done. apply Ht.
Qed.

Lemma member_drop_member t k c s k' c' :
  t !! k = Some s →
  member (drop_member k c s t) k' c' ↔ member t k' c' ∧ ¬ (k' = k ∧ c' = c).
Proof.
  intros Hs. unfold member, drop_member.
  destruct (decide (size (s ∖ {[c]}) = 0)%nat) as [Hz|Hnz].
  - apply size_empty_iff in Hz. destruct (decide (k' = k)) as [->|Hne].
    + rewrite lookup_delete_eq. split; [by intros (? & ? & ?)|].
      intros [(s0 & Hs0 & Hin) Hn]. rewrite Hs in Hs0. injection Hs0 as <-.
      destruct (decide (c' = c)) as [->|]; [naive_solver|]. set_solver.
    + rewrite lookup_delete_ne by done. naive_solver.
  - destruct (decide (k' = k)) as [->|Hne].
    + rewrite lookup_insert_eq, Hs. split.
      * intros (s0 & [= <-] & Hin). split; [exists s; set_solver|]. set_solver.
      * intros [(s0 & [= <-] & Hin) Hn]. eexists. split; [done|].
        apply elem_of_difference. split; [done|].
        rewrite elem_of_singleton. naive_solver.
    + rewrite lookup_insert_ne by done. naive_solver.
Qed.

Lemma no_empty_drop_member t k c s : no_empty t → no_empty (drop_member k c s t).
Proof.
  intros Ht k' s'. unfold drop_member.
  destruct (decide (size (s ∖ {[c]}) = 0)%nat) as [Hz|Hnz].
  - destruct (decide (k' = k)) as [->|Hne].
    + rewrite lookup_delete_eq. intros [=].
    + rewrite lookup_delete_ne by done. apply Ht.
  - destruct (decide (k' = k)) as [->|Hne].
    + rewrite lookup_insert_eq. intros [= <-] He. apply Hnz.
      by rewrite He, size_empty.
    + rewrite lookup_insert_ne by done. apply Ht.
Qed.

(** Removing a client that is not in the set changes nothing, as long as
    the table holds no empty set. *)
Lemma drop_member_absent t k c s :
  t !! k = Some s → s ≠ ∅ → c ∉ s → drop_member k c s t = t.
Proof.
  intros Hs Hne Hc. unfold drop_member.
  assert (s ∖ {[c]} = s) as -> by set_solver.
  destruct (decide (size s = 0)%nat) as [Hz|_].
  - apply size_empty_iff in Hz. set_solver.
  - by apply insert_id.
Qed.

(** Unfolds the binds of a computation that returned. *)
Ltac res_inv :=
  repeat match goal with
  | H : Ok _ = Ok _ |- _ => injection H as H; try subst
  | H : Panic _ = Ok _ |- _ => discriminate H
  | H : Blocked = Ok _ |- _ => discriminate H
  | H : (_ ≫= _) = Ok _ |- _ =>
      let x := fresh "x" in
      let Hx := fresh "Hx" in
      apply bind_Ok in H as (x & Hx & H)
  | H : (let '(_, _) := ?p in _) = Ok _ |- _ => destruct p
  | H : match ?x with _ => _ end = Ok _ |- _ => destruct x eqn:?
  | H : (if ?b then _ else _) = Ok _ |- _ => destruct b eqn:?
  end.

(** ** Registration and unregistration *)

Lemma same_ids_refl w : same_ids w w.
Proof. intros c cl ?. eauto. Qed.

Lemma registerClient_Ok client w w' :
  registerClient client w = Ok w' ↔
  ∃ cl, heap w !! client = Some cl ∧
    w' = set_tables
           (table_add (userID cl) client (clients (hub w)))
           (if decide (conversationID cl ≠ uuid_Nil)
            then table_add (conversationID cl) client (conversations (hub w))
            else conversations (hub w)) w.
Proof.
  unfold registerClient. rewrite bind_Ok. setoid_rewrite deref_Ok.
  split; intros (cl & Hcl & Hw); exists cl; split; try done; congruence.
Qed.

Lemma registerClient_inv client w w' :
  tables_inv w → registerClient client w = Ok w' → tables_inv w'.
Proof.
  intros [Hc Hv Hi Hr] (cl & Hcl & ->)%registerClient_Ok. split; simpl.
  - by apply no_empty_table_add.
  - destruct (decide (conversationID cl ≠ uuid_Nil)); [|done].
    by apply no_empty_table_add.
  - intros u c [[-> ->]|Hm]%member_table_add; [by exists cl|by apply Hi].
  - intros r c Hm.
    assert ((r = conversationID cl ∧ c = client ∧ r ≠ uuid_Nil) ∨
            member (conversations (hub w)) r c) as [(-> & -> & Hnil)|Hold].
    { destruct (decide (conversationID cl ≠ uuid_Nil)); [|by right].
      apply member_table_add in Hm as [[-> ->]|?]; [left|right]; done. }
    + exists cl. split_and!; try done. apply member_table_add. by left.
    + destruct (Hr r c Hold) as (cl0 & ? & ? & ? & ?).
      exists cl0. split_and!; try done. apply member_table_add. by right.
Qed.

(** What a call of [unregisterClient] that returns has done to the tables
    and to the heap. *)
Lemma unregisterClient_Ok client w w' :
  unregisterClient client w = Ok w' →
  ∃ cl, heap w !! client = Some cl ∧
    (∀ k c, member (clients (hub w')) k c ↔
            member (clients (hub w)) k c ∧ ¬ (k = userID cl ∧ c = client)) ∧
    (∀ k c, member (conversations (hub w')) k c ↔
            member (conversations (hub w)) k c ∧
            ¬ (k = conversationID cl ∧ c = client ∧ k ≠ uuid_Nil)) ∧
    (no_empty (clients (hub w)) → no_empty (clients (hub w'))) ∧
    (no_empty (conversations (hub w)) → no_empty (conversations (hub w'))) ∧
    same_ids w w'.
Proof.
  unfold unregisterClient. rewrite bind_Ok. setoid_rewrite deref_Ok.
  intros (cl & Hcl & H). exists cl. split; [done|].
  apply bind_Ok in H as (w1 & H1 & H2).
  assert ((∀ k c, member (clients (hub w1)) k c ↔
             member (clients (hub w)) k c ∧ ¬ (k = userID cl ∧ c = client)) ∧
          conversations (hub w1) = conversations (hub w) ∧
          (no_empty (clients (hub w)) → no_empty (clients (hub w1))) ∧
          same_ids w w1) as (Hcl1 & Hcv1 & Hne1 & Hid1).
  { destruct (clients (hub w) !! userID cl) as [s|] eqn:Hs.
    - destruct (decide (client ∈ s)) as [Hin|Hout].
      + apply bind_Ok in H1 as (ch & Hch & [= <-]). simpl. split_and!.
        * intros k c. by apply member_drop_member.
        * done.
        * apply no_empty_drop_member.
        * intros c cl0 Hc0. simpl. destruct (decide (c = client)) as [->|Hne].
          -- rewrite lookup_insert_eq. rewrite Hcl in Hc0. injection Hc0 as <-.
             eauto.
          -- rewrite lookup_insert_ne by done. eauto.
      + injection H1 as <-. split_and!; try done; [|apply same_ids_refl].
        intros k c. split; [|by intros [? _]]. intros Hm. split; [done|].
        intros [-> ->]. destruct Hm as (s' & Hs' & ?). congruence.
    - injection H1 as <-. split_and!; try done; [|apply same_ids_refl].
      intros k c. split; [|by intros [? _]]. intros Hm. split; [done|].
      intros [-> ->]. destruct Hm as (s' & Hs' & ?). congruence. }
  destruct (decide (conversationID cl ≠ uuid_Nil)) as [Hnil|Hnil].
  - destruct (conversations (hub w1) !! conversationID cl) as [s|] eqn:Hs.
    + injection H2 as <-. simpl. split_and!; try done.
      * intros k c. rewrite member_drop_member by done. rewrite Hcv1.
        naive_solver.
      * rewrite <- Hcv1. apply no_empty_drop_member.
    + injection H2 as <-. split_and!; try done.
      * intros k c. rewrite Hcv1. split; [|by intros [? _]]. intros Hm.
        split; [done|]. intros (-> & -> & _). destruct Hm as (s' & Hs' & ?).
        congruence.
      * by rewrite Hcv1.
  - injection H2 as <-. split_and!; try done.
    + intros k c. rewrite Hcv1. split; [|by intros [? _]]. intros Hm.
      split; [done|]. intros (-> & _ & ?). done.
    + by rewrite Hcv1.
Qed.

Lemma unregisterClient_inv client w w' :
  tables_inv w → unregisterClient client w = Ok w' → tables_inv w'.
Proof.
  intros [Hc Hv Hi Hr] (cl & Hcl & Hmc & Hmv & Hnc & Hnv & Hid)%unregisterClient_Ok.
  split; [by apply Hnc|by apply Hnv| |].
  { intros u c [Hm _]%Hmc. destruct (Hi u c Hm) as (cl0 & Hcl0 & Hu0).
    destruct (Hid c cl0 Hcl0) as (cl' & Hcl' & Hu & _).
    exists cl'. split; [done|congruence]. }
  intros r c [Hm Hn]%Hmv.
  destruct (Hr r c Hm) as (cl0 & Hcl0 & Hr0 & Hnil & Hm0).
  destruct (Hid c cl0 Hcl0) as (cl' & Hcl' & Hu & Hv').
  exists cl'. split_and!; try done; [congruence|].
  apply Hmc. rewrite Hu. split; [done|]. intros [_ ->].
  apply Hn. rewrite Hcl in Hcl0. injection Hcl0 as <-. done.
Qed.

Lemma fresh_world_inv hp t : tables_inv (fresh_world hp t).
Proof.
  split; simpl.
  - intros k s. by rewrite lookup_empty.
  - intros k s. by rewrite lookup_empty.
  - intros u c (s & Hs & _). by rewrite lookup_empty in Hs.
  - intros r c (s & Hs & _). by rewrite lookup_empty in Hs.
Qed.

Lemma run_ops_inv ops w w' :
  tables_inv w → run_ops ops w = Ok w' → tables_inv w'.
Proof.
  revert w. induction ops as [|o ops IH]; intros w Hinv; simpl.
  - by intros [= <-].
  - intros (w1 & H1 & H2)%bind_Ok. apply (IH w1); [|done].
    destruct o; simpl in H1.
    + by eapply registerClient_inv.
    + by eapply unregisterClient_inv.
Qed.

(** ** Runs that do not panic *)

(** What [unregisterClient] does to the heap. *)
Lemma unregisterClient_heap client w w' cl :
  heap w !! client = Some cl →
  unregisterClient client w = Ok w' →
  (¬ member (clients (hub w)) (userID cl) client ∧ heap w' = heap w) ∨
  (member (clients (hub w)) (userID cl) client ∧ closed (send cl) = false ∧
   heap w' = <[client := set_send (Chan (buf (send cl)) (cap (send cl)) true) cl]>
               (heap w)).
Proof.
  intros Hcl. unfold unregisterClient, deref. rewrite Hcl. simpl.
  destruct (clients (hub w) !! userID cl) as [s|] eqn:Hs.
  - destruct (decide (client ∈ s)) as [Hin|Hout].
    + unfold chan_close. destruct (closed (send cl)); [done|]. simpl.
      intros H. right. split; [by exists s|]. split; [done|].
      destruct (decide (conversationID cl ≠ uuid_Nil)); [|by injection H as <-].
      simpl in H.
      destruct (conversations (hub w) !! conversationID cl); by injection H as <-.
    + simpl. intros H. left. split.
      { intros (s' & Hs' & Hin). congruence. }
      destruct (decide (conversationID cl ≠ uuid_Nil)); [|by injection H as <-].
      destruct (conversations (hub w) !! conversationID cl); by injection H as <-.
  - simpl. intros H. left. split.
    { intros (s' & Hs' & Hin). congruence. }
    destruct (decide (conversationID cl ≠ uuid_Nil)); [|by injection H as <-].
    destruct (conversations (hub w) !! conversationID cl); by injection H as <-.
Qed.

(** [unregisterClient] returns unless it has to close a closed queue. *)
Lemma unregisterClient_returns client w cl :
  heap w !! client = Some cl →
  (member (clients (hub w)) (userID cl) client → closed (send cl) = false) →
  is_Ok (unregisterClient client w).
Proof.
  intros Hcl Hopen. unfold unregisterClient, deref. rewrite Hcl. simpl.
  destruct (clients (hub w) !! userID cl) as [s|] eqn:Hs; simpl.
  - destruct (decide (client ∈ s)) as [Hin|]; simpl.
    + unfold chan_close. rewrite Hopen by by exists s. simpl.
      destruct (decide (conversationID cl ≠ uuid_Nil)); [|by eexists].
      match goal with |- is_Ok (match ?x with _ => _ end) => destruct x end;
        by eexists.
    + destruct (decide (conversationID cl ≠ uuid_Nil)); [|by eexists].
      destruct (conversations (hub w) !! conversationID cl); by eexists.
  - destruct (decide (conversationID cl ≠ uuid_Nil)); [|by eexists].
    destruct (conversations (hub w) !! conversationID cl); by eexists.
Qed.

Lemma apply_op_ready o ops w :
  run_ready (o :: ops) w →
  ∃ w1, apply_op o w = Ok w1 ∧ run_ready ops w1.
Proof.
  intros [Hnd Hfresh Hobj Hopen]. destruct o as [c|c]; simpl in *.
  - (* register *)
    apply NoDup_cons in Hnd as [Hc Hnd].
    destruct (Hfresh c) as [(cl & Hcl & Hcl_open) Hnew]; [by left|].
    assert (registerClient c w =
            Ok (set_tables (table_add (userID cl) c (clients (hub w)))
                  (if decide (conversationID cl ≠ uuid_Nil)
                   then table_add (conversationID cl) c (conversations (hub w))
                   else conversations (hub w)) w)) as ->.
    { apply registerClient_Ok. by exists cl. }
    eexists. split; [done|]. split; simpl.
    + done.
    + intros c' Hin. destruct (Hfresh c') as [Hobj' Hnew']; [by right|].
      split; [done|]. intros u [[_ ->]|Hm]%member_table_add; [done|].
      by apply (Hnew' u).
    + intros c' Hin. apply Hobj. by right.
    + intros u c' [[-> ->]|Hm]%member_table_add; [by exists cl|by apply Hopen].
  - (* unregister *)
    destruct (Hobj c) as [cl Hcl]; [by left|].
    destruct (unregisterClient_returns c w cl Hcl) as [w1 Hun].
    { intros Hm. by destruct (Hopen _ _ Hm) as (cl' & [= <-]%(eq_trans (eq_sym Hcl)) & _ & ?). }
    exists w1. split; [done|].
    destruct (unregisterClient_Ok _ _ _ Hun) as (cl0 & Hcl0 & Hmc & _).
    rewrite Hcl in Hcl0. injection Hcl0 as <-.
    assert (∀ c', c' ≠ c → heap w1 !! c' = heap w !! c') as Hothers.
    { intros c' Hne.
      destruct (unregisterClient_heap _ _ _ _ Hcl Hun) as [[_ ->]|(_ & _ & ->)];
        [done|by rewrite lookup_insert_ne]. }
    split.
    + done.
    + intros c' Hin. destruct (Hfresh c' Hin) as [(cl' & Hcl' & Hop') Hnew'].
      split.
      * destruct (unregisterClient_heap _ _ _ _ Hcl Hun) as [[_ ->]|(Hm & _ & _)];
          [by exists cl'|].
        destruct (decide (c' = c)) as [->|Hne]; [by destruct (Hnew' (userID cl))|].
        exists cl'. by rewrite Hothers.
      * intros u [Hm _]%Hmc. by apply (Hnew' u).
    + intros c' Hin. destruct (decide (c' = c)) as [->|Hne].
      * destruct (unregisterClient_heap _ _ _ _ Hcl Hun) as [[_ ->]|(_ & _ & ->)];
          [by eexists|]. rewrite lookup_insert_eq. by eexists.
      * rewrite Hothers by done. apply Hobj. by right.
    + intros u c' [Hm Hn]%Hmc.
      destruct (Hopen u c' Hm) as (cl' & Hcl' & Hu & Hop').
      assert (c' ≠ c) as Hne.
      { intros ->. apply Hn. rewrite Hcl in Hcl'. by injection Hcl' as <-. }
      exists cl'. by rewrite Hothers.
Qed.

(** A ready sequence runs to the end, and leaves every registered client
    with an open queue. *)
Lemma run_ops_total ops w :
  run_ready ops w → ∃ w', run_ops ops w = Ok w' ∧ registered_open w'.
Proof.
  revert w. induction ops as [|o ops IH]; intros w Hready; simpl.
  - exists w. split; [done|]. by destruct Hready.
  - destruct (apply_op_ready _ _ _ Hready) as (w1 & -> & Hready1). simpl.
    by apply IH.
Qed.

Lemma fresh_world_ready hp t ops :
  NoDup (registers ops) →
  (∀ c, c ∈ registers ops → ∃ cl, hp !! c = Some cl ∧ closed (send cl) = false) →
  (∀ c, OpUnregister c ∈ ops → is_Some (hp !! c)) →
  run_ready ops (fresh_world hp t).
Proof.
  intros Hnd Hfresh Hobj. split; try done.
  - intros c Hin. split; [by apply Hfresh|].
    intros u (s & Hs & _). simpl in Hs. by rewrite lookup_empty in Hs.
  - intros u c (s & Hs & _). simpl in Hs. by rewrite lookup_empty in Hs.
Qed.

(** C1. For every sequence of registrations and unregistrations from a
    fresh hub, in every state the sequence reaches, neither table maps a key
    to an empty set, and every connection in the set of a room is the
    connection of a client whose room is that room, whose room is not
    [uuid.Nil], and which is in the set of its identity. The sequence does
    reach a state when it registers no client twice, registers clients with
    an open queue and names only clients that exist (a client that is
    registered again after its queue was closed makes a later [close]
    panic). *)
Theorem register_unregister_tables_invariant hp t ops :
  (∀ w : World,
     run_ops ops (fresh_world hp t) = Ok w →
     (∀ u s, clients (hub w) !! u = Some s → s ≠ ∅) ∧
     (∀ r s, conversations (hub w) !! r = Some s → s ≠ ∅) ∧
     (∀ r s c, conversations (hub w) !! r = Some s → c ∈ s →
        ∃ cl s', heap w !! c = Some cl ∧ conversationID cl = r ∧ r ≠ uuid_Nil ∧
                 clients (hub w) !! userID cl = Some s' ∧ c ∈ s')) ∧
  (NoDup (registers ops) →
   (∀ c, c ∈ registers ops → ∃ cl, hp !! c = Some cl ∧ closed (send cl) = false) →
   (∀ c, OpUnregister c ∈ ops → is_Some (hp !! c)) →
   ∃ w : World, run_ops ops (fresh_world hp t) = Ok w).
Proof.
  split.
  - intros w Hrun.
    destruct (run_ops_inv ops _ _ (fresh_world_inv hp t) Hrun) as [Hc Hv _ Hr].
    split_and!; [exact Hc|exact Hv|].
    intros r s c Hs Hin.
    destruct (Hr r c) as (cl & Hcl & Hconv & Hnil & s' & Hs' & Hin').
    { by exists s. }
    by exists cl, s'.
  - intros Hnd Hfresh Hobj.
    destruct (run_ops_total ops (fresh_world hp t)) as (w & Hrun & _);
      [by apply fresh_world_ready|]. by exists w.
Qed.

(** ** Idempotence of unregistration and shutdown *)

Lemma set_tables_same (w : World) :
  set_tables (clients (hub w)) (conversations (hub w)) w = w.
Proof. by destruct w as [hp [cl cv b r u x] g tr t]. Qed.

Lemma lookup_drop_member t k c s :
  drop_member k c s t !! k =
  if decide (size (s ∖ {[c]}) = 0)%nat then None else Some (s ∖ {[c]}).
Proof.
  unfold drop_member. destruct (decide (size (s ∖ {[c]}) = 0)%nat).
  - apply lookup_delete_eq.
  - apply lookup_insert_eq.
Qed.

(** After a call of [unregisterClient] the client is in neither table, and
    the set of its room, when one is left, is not empty. *)
Lemma unregisterClient_after client w w' :
  unregisterClient client w = Ok w' →
  ∃ cl', heap w' !! client = Some cl' ∧
    (∀ s, clients (hub w') !! userID cl' = Some s → client ∉ s) ∧
    (conversationID cl' ≠ uuid_Nil →
     ∀ s, conversations (hub w') !! conversationID cl' = Some s →
          (client ∉ s) ∧ s ≠ ∅).
Proof.
  intros H.
  destruct (unregisterClient_Ok _ _ _ H) as (cl & Hcl & Hmc & Hmv & _ & _ & Hid).
  destruct (Hid _ _ Hcl) as (cl' & Hcl' & Hu & Hv).
  exists cl'. split; [done|]. rewrite Hu, Hv. split.
  - intros s Hs Hin. assert (member (clients (hub w')) (userID cl) client) as Hm
      by by exists s.
    apply Hmc in Hm as [_ Hn]. by apply Hn.
  - intros Hnil s Hs. split.
    + intros Hin.
      assert (member (conversations (hub w')) (conversationID cl) client) as Hm
        by by exists s.
      apply Hmv in Hm as [_ Hn]. by apply Hn.
    + revert H Hs. unfold unregisterClient. rewrite bind_Ok.
      setoid_rewrite deref_Ok. intros (cl0 & Hcl0 & H).
      rewrite Hcl in Hcl0. injection Hcl0 as <-.
      apply bind_Ok in H as (w1 & _ & H2).
      destruct (decide (conversationID cl ≠ uuid_Nil)); [|done].
      destruct (conversations (hub w1) !! conversationID cl) as [s1|] eqn:Hs1.
      * injection H2 as <-. simpl. rewrite lookup_drop_member.
        destruct (decide (size (s1 ∖ {[client]}) = 0)%nat) as [|Hnz]; [done|].
        intros [= <-] He. apply Hnz. by rewrite He, size_empty.
      * injection H2 as <-. by rewrite Hs1.
Qed.

(** A second [unregisterClient] of the same client returns the world as the
    first one left it. *)
Lemma unregisterClient_twice client w w1 :
  unregisterClient client w = Ok w1 → unregisterClient client w1 = Ok w1.
Proof.
  intros (cl' & Hcl' & Hc & Hv)%unregisterClient_after.
  unfold unregisterClient, deref. rewrite Hcl'. simpl.
  assert (match clients (hub w1) !! userID cl' with
          | Some s =>
              if decide (client ∈ s) then
                ch ← chan_close (send cl');
                Ok (set_tables (drop_member (userID cl') client s (clients (hub w1)))
                      (conversations (hub w1))
                      (emit (EvClose client) (store client (set_send ch cl') w1)))
              else Ok w1
          | None => Ok w1
          end = Ok w1) as ->.
  { destruct (clients (hub w1) !! userID cl') as [s|] eqn:Hs; [|done].
    destruct (decide (client ∈ s)) as [Hin|]; [|done]. by destruct (Hc s). }
  simpl. destruct (decide (conversationID cl' ≠ uuid_Nil)) as [Hnil|]; [|done].
  destruct (conversations (hub w1) !! conversationID cl') as [s|] eqn:Hs; [|done].
  destruct (Hv Hnil s eq_refl) as [Hout Hne].
  rewrite drop_member_absent by done. by rewrite set_tables_same.
Qed.

Lemma Shutdown_twice (w : World) : Shutdown (Shutdown w) = Shutdown w.
Proof. done. Qed.

Lemma all_clients_empty (w : World) : clients (hub w) = ∅ → all_clients w = [].
Proof. unfold all_clients. intros ->. by rewrite map_to_list_empty. Qed.

Lemma for_range_heap_hub body l w w' :
  (∀ c v v', body c v = Ok v' → hub v' = hub v) →
  for_range body l w = Ok w' → hub w' = hub w.
Proof.
  intros Hb. revert w. induction l as [|c l IH]; intros w; simpl.
  - by intros [= <-].
  - intros (w1 & H1 & H2)%bind_Ok. rewrite (IH _ H2). by eapply Hb.
Qed.

Lemma close_one_hub c (v v' : World) : close_one c v = Ok v' → hub v' = hub v.
Proof.
  unfold close_one. intros (cl & _ & (ch & _ & [= <-])%bind_Ok)%bind_Ok. done.
Qed.

(** [cleanup] leaves both tables empty; run again, it does nothing. *)
Lemma cleanup_twice w w1 :
  cleanup w = Ok w1 → tables w1 = (∅, ∅) ∧ cleanup w1 = Ok w1.
Proof.
  unfold cleanup. intros (w' & Hr & [= <-])%bind_Ok. split; [done|].
  by rewrite all_clients_empty.
Qed.

(** ** [cleanup] on a well-formed hub *)

Lemma elem_of_concat_elements (l : list (UUID * gset ptr)) c :
  c ∈ concat (map (λ kv, elements (snd kv)) l) ↔ ∃ k s, (k, s) ∈ l ∧ c ∈ s.
Proof.
  induction l as [|[k s] l IH]; simpl.
  - split; [by intros ?%elem_of_nil|by intros (? & ? & ?%elem_of_nil & _)].
  - rewrite elem_of_app, IH, elem_of_elements. split.
    + intros [Hin|(k' & s' & Hin & Hc)].
      * exists k, s. split; [by left|done].
      * exists k', s'. split; [by right|done].
    + intros (k' & s' & [[= -> ->]|Hin]%elem_of_cons & Hc); [by left|].
      right. by exists k', s'.
Qed.

Lemma elem_of_all_clients (w : World) c :
  c ∈ all_clients w ↔ ∃ u, member (clients (hub w)) u c.
Proof.
  unfold all_clients, member. rewrite elem_of_concat_elements. split.
  - intros (k & s & Hin%elem_of_map_to_list & Hc). by exists k, s.
  - intros (k & s & Hs & Hc). exists k, s. by rewrite elem_of_map_to_list.
Qed.

Lemma NoDup_concat_elements (l : list (UUID * gset ptr)) :
  NoDup (l.*1) →
  (∀ k1 s1 k2 s2 c, (k1, s1) ∈ l → (k2, s2) ∈ l → c ∈ s1 → c ∈ s2 → k1 = k2) →
  NoDup (concat (map (λ kv, elements (snd kv)) l)).
Proof.
  induction l as [|[k s] l IH]; simpl; [constructor|].
  intros [Hk Hnd]%NoDup_cons Hdisj. apply NoDup_app. split_and!.
  - apply NoDup_elements.
  - intros c Hc%elem_of_elements (k' & s' & Hin & Hc')%elem_of_concat_elements.
    apply Hk. rewrite (Hdisj k s k' s' c); try done; [|by left|by right].
    apply list_elem_of_fmap. by exists (k', s').
  - apply IH; [done|]. intros k1 s1 k2 s2 c H1 H2. apply Hdisj; by right.
Qed.

Lemma all_clients_NoDup (w : World) : registered_open w → NoDup (all_clients w).
Proof.
  intros Hreg. apply NoDup_concat_elements; [apply NoDup_fst_map_to_list|].
  intros k1 s1 k2 s2 c H1%elem_of_map_to_list H2%elem_of_map_to_list Hc1 Hc2.
  destruct (Hreg k1 c) as (cl1 & Hcl1 & <- & _); [by exists s1|].
  destruct (Hreg k2 c) as (cl2 & Hcl2 & <- & _); [by exists s2|].
  congruence.
Qed.

(** Closing the queues of distinct clients, all open. *)
Lemma for_range_close_one l w :
  NoDup l →
  (∀ c, c ∈ l → ∃ cl, heap w !! c = Some cl ∧ closed (send cl) = false) →
  ∃ w', for_range close_one l w = Ok w' ∧
    trace w' = trace w ++ map EvClose l ∧ hub w' = hub w ∧
    (∀ c, c ∈ l → ∃ cl, heap w' !! c = Some cl ∧ closed (send cl) = true) ∧
    (∀ c, c ∉ l → heap w' !! c = heap w !! c).
Proof.
  intros Hnd. revert w. induction Hnd as [|c l Hc Hnd IH]; intros w Hopen; simpl.
  - exists w. rewrite app_nil_r. split_and!; try done. by intros ? ?%elem_of_nil.
  - destruct (Hopen c) as (cl & Hcl & Hcl_open); [by left|].
    set (w1 := emit (EvClose c)
                 (store c (set_send (Chan (buf (send cl)) (cap (send cl)) true) cl) w)).
    assert (close_one c w = Ok w1) as ->.
    { unfold close_one, deref, chan_close. rewrite Hcl. simpl.
      by rewrite Hcl_open. }
    simpl.
    destruct (IH w1) as (w' & -> & Htr & Hhub & Hclosed & Hrest).
    { intros c' Hin. subst w1. simpl. rewrite lookup_insert_ne.
      - apply Hopen. by right.
      - intros ->. done. }
    exists w'. split; [done|]. split_and!.
    + rewrite Htr. subst w1. simpl. by rewrite <- app_assoc.
    + by rewrite Hhub.
    + intros c' [->|Hin]%elem_of_cons; [|by apply Hclosed].
      rewrite (Hrest c Hc). subst w1. simpl. rewrite lookup_insert_eq. by eexists.
    + intros c' [Hne Hout]%not_elem_of_cons. rewrite (Hrest c' Hout).
      subst w1. simpl. by rewrite lookup_insert_ne.
Qed.

(** On a well-formed hub [cleanup] returns: it closes the queue of every
    registered client, each once, and leaves both tables empty. *)
Lemma cleanup_total w :
  registered_open w →
  ∃ w', cleanup w = Ok w' ∧ tables w' = (∅, ∅) ∧
    trace w' = trace w ++ map EvClose (all_clients w) ∧
    NoDup (all_clients w) ∧
    (∀ u c, member (clients (hub w)) u c →
       ∃ cl, heap w' !! c = Some cl ∧ closed (send cl) = true).
Proof.
  intros Hreg. pose proof (all_clients_NoDup w Hreg) as Hnd.
  destruct (for_range_close_one (all_clients w) w Hnd)
    as (w' & Hrun & Htr & Hhub & Hclosed & _).
  { intros c (u & Hm)%elem_of_all_clients.
    destruct (Hreg u c Hm) as (cl & ? & _ & ?). by exists cl. }
  unfold cleanup. rewrite Hrun. simpl. eexists. split; [done|].
  split_and!; try done.
  intros u c Hm. apply Hclosed. apply elem_of_all_clients. by exists u.
Qed.

(** C9. Unregistering a connection a second time returns without error the
    very world the first call left: no table changes, and the outbound
    queue is not closed again. [Shutdown] twice is [Shutdown] once; the
    [cleanup] the loop runs on its way out empties both tables, and a second
    [cleanup] closes no queue and changes nothing. On a hub whose
    registered clients have open queues that first [cleanup] does return,
    and it closes the queue of every registered client, each once. *)
Theorem unregister_and_shutdown_idempotent :
  (∀ client (w w1 : World),
     unregisterClient client w = Ok w1 →
     unregisterClient client w1 = Ok w1) ∧
  (∀ w : World, Shutdown (Shutdown w) = Shutdown w) ∧
  (∀ w w1 : World,
     cleanup w = Ok w1 → tables w1 = (∅, ∅) ∧ cleanup w1 = Ok w1) ∧
  (∀ w : World,
     registered_open w →
     ∃ w1, cleanup w = Ok w1 ∧
       trace w1 = trace w ++ map EvClose (all_clients w) ∧
       NoDup (all_clients w) ∧
       ∀ u c, member (clients (hub w)) u c →
         ∃ cl, heap w1 !! c = Some cl ∧ closed (send cl) = true).
Proof.
  split_and!.
  - apply unregisterClient_twice.
  - apply Shutdown_twice.
  - apply cleanup_twice.
  - intros w Hreg.
    destruct (cleanup_total w Hreg) as (w1 & ? & _ & ? & ? & ?). by exists w1.
Qed.

(** ** Delivery loops *)

Lemma broadcast_one_deliver data x :
  broadcast_one data x = deliver_one true data x.
Proof. done. Qed.

Lemma user_one_deliver data c w :
  user_one data c w = deliver_one false data None c w.
Proof. unfold user_one, deliver_one. by destruct (decide (None = Some c)). Qed.

Lemma for_range_ext body1 body2 l w :
  (∀ c v, body1 c v = body2 c v) → for_range body1 l w = for_range body2 l w.
Proof.
  intros Hb. revert w. induction l as [|c l IH]; intros w; simpl; [done|].
  rewrite Hb. destruct (body2 c w); simpl; by rewrite ?IH.
Qed.

Lemma try_send_Ok {A} (v : A) (ch : chan A) r :
  try_send v ch = Ok r ↔
  closed ch = false ∧ r = if chan_full ch then None else Some (enqueue v ch).
Proof.
  unfold try_send. destruct (closed ch), (chan_full ch); naive_solver.
Qed.

Lemma deliver_one_Ok spawn data x c w w' :
  deliver_one spawn data x c w = Ok w' →
  (x = Some c ∧ w' = w) ∨
  (x ≠ Some c ∧ ∃ cl, heap w !! c = Some cl ∧ closed (send cl) = false ∧
     w' = if chan_full (send cl)
          then (if spawn then go_unregister c (emit (EvFull c) w)
                else emit (EvFull c) w)
          else emit (EvSend c data)
                 (store c (set_send (enqueue data (send cl)) cl) w)).
Proof.
  unfold deliver_one. destruct (decide (x = Some c)) as [->|Hx].
  - intros [= <-]. by left.
  - intros (cl & Hcl%deref_Ok & (r & [Hopen ->]%try_send_Ok & H)%bind_Ok)%bind_Ok.
    right. split; [done|]. exists cl. split_and!; try done.
    destruct (chan_full (send cl)); by injection H as <-.
Qed.

(** The effect of a whole delivery loop over distinct clients. *)
Lemma for_range_deliver spawn data x l w w' :
  NoDup l →
  for_range (deliver_one spawn data x) l w = Ok w' →
  hub w' = hub w ∧
  ∃ evs gs, trace w' = trace w ++ evs ∧ goroutines w' = goroutines w ++ gs ∧
    (EvMarshal ∉ evs) ∧
    (∀ c, c ∈ gs ↔ spawn = true ∧ EvFull c ∈ evs) ∧
    (∀ c d, EvSend c d ∈ evs → c ∈ l ∧ x ≠ Some c ∧ d = data) ∧
    (∀ c, c ∉ l ∨ x = Some c → heap w' !! c = heap w !! c) ∧
    (∀ c, c ∈ l → x ≠ Some c → attempted data c w w' evs).
Proof.
  clear marshal unmarshal ofWS.
  intros Hnd. revert w. induction Hnd as [|c l Hc Hnd IH]; intros w; simpl.
  - intros [= <-]. split; [done|]. exists [], []. rewrite !app_nil_r.
    split_and!; try done.
    + by intros ?%elem_of_nil.
    + intros c. split; [by intros ?%elem_of_nil|by intros [_ ?%elem_of_nil]].
    + by intros ? ? ?%elem_of_nil.
    + by intros ? ?%elem_of_nil.
  - intros (w1 & H1 & H2)%bind_Ok.
    destruct (IH _ H2) as (Hhub & evs2 & gs2 & Htr & Hgo & Hm2 & Hg2 & Hs2 & Hk2 & Ha2).
    apply deliver_one_Ok in H1 as [[-> ->]|(Hx & cl & Hcl & Hopen & ->)].
    + split; [done|]. exists evs2, gs2. split_and!; try done.
      * intros c0 d Hin. destruct (Hs2 c0 d Hin) as (? & ? & ?).
        split_and!; try done. by right.
      * intros c0 [Hout|Hex]; apply Hk2; [|by right].
        left. intros ?. apply Hout. by right.
      * intros c0 [->|Hin]%elem_of_cons Hne; [done|]. by apply Ha2.
    + destruct (chan_full (send cl)) eqn:Hfull.
      * assert (heap (if spawn then go_unregister c (emit (EvFull c) w)
                      else emit (EvFull c) w) = heap w) as Hheap
          by by destruct spawn.
        split; [rewrite Hhub; by destruct spawn|].
        exists ((EvFull c :: if spawn then [EvGo c] else []) ++ evs2),
               ((if spawn then [c] else []) ++ gs2).
        split_and!.
        -- rewrite Htr. destruct spawn; simpl; by rewrite <- !app_assoc.
        -- rewrite Hgo. destruct spawn; simpl; by rewrite <- ?app_assoc.
        -- destruct spawn; simpl; rewrite !not_elem_of_cons; done.
        -- intros c0. rewrite elem_of_app, Hg2.
           destruct spawn; simpl; rewrite ?elem_of_cons, ?elem_of_nil;
             naive_solver.
        -- intros c0 d Hin.
           assert (EvSend c0 d ∈ evs2) as Hin2.
           { destruct spawn; simpl in Hin;
               rewrite ?elem_of_cons in Hin; naive_solver. }
           destruct (Hs2 c0 d Hin2) as (? & ? & ?). split_and!; try done.
           by right.
        -- intros c0 Hc0. rewrite Hk2, Hheap; [done|].
           destruct Hc0 as [Hout|]; [left|by right].
           intros ?. apply Hout. by right.
        -- intros c0 [->|Hin]%elem_of_cons Hne.
           ++ exists cl. rewrite Hfull. split_and!; try done.
              ** rewrite Hk2 by by left. by rewrite Hheap.
              ** by left.
           ++ destruct (Ha2 c0 Hin Hne) as (cl0 & Hcl0 & Hop0 & Hres).
              rewrite Hheap in Hcl0.
              exists cl0. split_and!; try done.
              destruct (chan_full (send cl0)); destruct Hres as [? ?];
                split; try done; apply elem_of_app; by right.
      * split; [by rewrite Hhub|].
        exists (EvSend c data :: evs2), gs2. split_and!.
        -- rewrite Htr. simpl. by rewrite <- !app_assoc.
        -- done.
        -- rewrite !not_elem_of_cons. done.
        -- intros c0. rewrite Hg2, elem_of_cons. naive_solver.
        -- intros c0 d [[= -> ->]|Hin]%elem_of_cons.
           ++ split_and!; try done. by left.
           ++ destruct (Hs2 c0 d Hin) as (? & ? & ?). split_and!; try done.
              by right.
        -- intros c0 Hc0.
           assert (c0 ≠ c) as Hne.
           { intros ->. destruct Hc0 as [Hout|Heq]; [apply Hout; by left|done]. }
           rewrite Hk2; [simpl; by rewrite lookup_insert_ne|].
           destruct Hc0 as [Hout|]; [left|by right].
           intros ?. apply Hout. by right.
        -- intros c0 [->|Hin]%elem_of_cons Hne.
           ++ exists cl. rewrite Hfull. split_and!; try done.
              ** rewrite Hk2 by by left. simpl. by rewrite lookup_insert_eq.
              ** by left.
           ++ assert (c0 ≠ c) as Hne' by (intros ->; done).
              destruct (Ha2 c0 Hin Hne) as (cl0 & Hcl0 & Hop0 & Hres).
              simpl in Hcl0. rewrite lookup_insert_ne in Hcl0 by done.
              exists cl0. split_and!; try done.
              destruct (chan_full (send cl0)); destruct Hres as [? ?];
                split; try done; by right.
Qed.

(** A delivery loop never waits, and it returns when every recipient is an
    object with an open queue. *)
Lemma for_range_deliver_never_blocks spawn data x l w :
  for_range (deliver_one spawn data x) l w ≠ Blocked.
Proof.
  revert w. induction l as [|c l IH]; intros w; simpl; [done|].
  destruct (deliver_one spawn data x c w) as [w1|msg|] eqn:H1; simpl;
    [apply IH|done|].
  revert H1. unfold deliver_one. destruct (decide (x = Some c)); [done|].
  unfold deref. destruct (heap w !! c) as [cl|]; simpl; [|done].
  unfold try_send. destruct (closed (send cl)); simpl; [done|].
  by destruct (chan_full (send cl)).
Qed.

Lemma for_range_deliver_returns spawn data x l w :
  (∀ c, c ∈ l → x ≠ Some c →
        ∃ cl, heap w !! c = Some cl ∧ closed (send cl) = false) →
  is_Ok (for_range (deliver_one spawn data x) l w).
Proof.
  revert w. induction l as [|c l IH]; intros w Hopen; simpl; [by eexists|].
  assert (∃ w1, deliver_one spawn data x c w = Ok w1 ∧
            ∀ c0, c0 ∈ l → x ≠ Some c0 →
                  ∃ cl, heap w1 !! c0 = Some cl ∧ closed (send cl) = false)
    as (w1 & -> & Hopen1).
  { unfold deliver_one. destruct (decide (x = Some c)) as [|Hx].
    - eexists. split; [done|]. intros c0 ? ?. apply Hopen; [by right|done].
    - destruct (Hopen c) as (cl & Hcl & Hcl_open); [by left|done|].
      unfold deref. rewrite Hcl. simpl. rewrite try_send_open by done. simpl.
      destruct (chan_full (send cl)).
      + eexists. split; [done|]. intros c0 Hin Hx0.
        destruct (Hopen c0) as (cl0 & ? & ?); [by right|done|].
        exists cl0. by destruct spawn.
      + eexists. split; [done|]. intros c0 Hin Hx0. simpl.
        destruct (decide (c0 = c)) as [->|Hne].
        * rewrite lookup_insert_eq. eauto.
        * rewrite lookup_insert_ne by done. apply Hopen; [by right|done]. }
  simpl. by apply IH.
Qed.

Lemma for_range_deliver_total spawn data x l w :
  all_open l w → is_Ok (for_range (deliver_one spawn data x) l w).
Proof. intros Hopen. apply for_range_deliver_returns. intros c ? _. by apply Hopen. Qed.

(** The clients a delivery loop found full are the recipients whose queue
    was full. *)
Lemma for_range_deliver_dropped spawn data x l w w' c :
  NoDup l →
  for_range (deliver_one spawn data x) l w = Ok w' →
  EvFull c ∈ drop (length (trace w)) (trace w') →
  c ∈ l ∧ x ≠ Some c ∧ ∃ cl, heap w !! c = Some cl ∧ chan_full (send cl) = true.
Proof.
  clear marshal unmarshal ofWS.
  intros Hnd. revert w. induction Hnd as [|c0 l Hc0 Hnd IH]; intros w; simpl.
  - intros [= <-]. rewrite drop_all. by intros ?%elem_of_nil.
  - intros (w1 & H1 & H2)%bind_Ok.
    destruct (for_range_deliver _ _ _ _ _ _ Hnd H2) as (_ & evs2 & _ & Htr2 & _).
    intros Hin. specialize (IH _ H2).
    rewrite Htr2, drop_app_length in IH.
    apply deliver_one_Ok in H1 as [[-> ->]|(Hx & cl & Hcl & Hopen & ->)].
    + rewrite Htr2, drop_app_length in Hin.
      destruct (IH Hin) as (? & ? & ?). split_and!; try done. by right.
    + destruct (chan_full (send cl)) eqn:Hfull.
      * assert (EvFull c ∈ EvFull c0 :: evs2) as [[= ->]|Hin2]%elem_of_cons.
        { revert Hin. rewrite Htr2.
          destruct spawn; simpl; rewrite <- ?app_assoc, drop_app_length;
            simpl; rewrite ?elem_of_cons; naive_solver. }
        -- split_and!; [by left|done|by exists cl].
        -- destruct (IH Hin2) as (? & ? & cl' & Hcl' & ?).
           split_and!; try done; [by right|]. exists cl'. split; [|done].
           by destruct spawn.
      * assert (EvFull c ∈ evs2) as Hin2.
        { revert Hin. rewrite Htr2. simpl.
          rewrite <- ?app_assoc, drop_app_length. simpl.
          rewrite elem_of_cons. naive_solver. }
        destruct (IH Hin2) as (Hcl0 & ? & cl' & Hcl' & ?).
        split_and!; try done; [by right|]. exists cl'. split; [|done].
        simpl in Hcl'. rewrite lookup_insert_ne in Hcl'; [done|].
        intros ->. done.
Qed.

(** Go ranges over a map in an order it does not specify, and the model
    ranges over [elements]: for a delivery loop the order does not matter.
    Any other order of the same recipients returns too, with the same heap
    and hub, and starts goroutines for the same clients. *)
Lemma delivery_order_irrelevant spawn data x l1 l2 w w1 :
  l1 ≡ₚ l2 → NoDup l1 →
  for_range (deliver_one spawn data x) l1 w = Ok w1 →
  ∃ w2, for_range (deliver_one spawn data x) l2 w = Ok w2 ∧
    heap w2 = heap w1 ∧ hub w2 = hub w1 ∧
    ∀ c, c ∈ drop (length (goroutines w)) (goroutines w2) ↔
         c ∈ drop (length (goroutines w)) (goroutines w1).
Proof.
  intros Hperm Hnd1 H1.
  assert (NoDup l2) as Hnd2 by by rewrite <- Hperm.
  destruct (for_range_deliver _ _ _ _ _ _ Hnd1 H1)
    as (Hhub1 & evs1 & gs1 & Htr1 & Hgo1 & _ & Hg1 & _ & Hk1 & Ha1).
  destruct (for_range_deliver_returns spawn data x l2 w) as [w2 H2].
  { intros c Hin Hx. destruct (Ha1 c) as (cl & ? & ? & _); [by rewrite Hperm|done|].
    by exists cl. }
  exists w2. split; [done|].
  destruct (for_range_deliver _ _ _ _ _ _ Hnd2 H2)
    as (Hhub2 & evs2 & gs2 & Htr2 & Hgo2 & _ & Hg2 & _ & Hk2 & Ha2).
  split_and!.
  - apply map_eq. intros c.
    destruct (decide (c ∈ l1 ∧ x ≠ Some c)) as [[Hin Hx]|Hout].
    + destruct (Ha1 c Hin Hx) as (cl & Hcl & _ & Hr1).
      destruct (Ha2 c) as (cl' & Hcl' & _ & Hr2); [by rewrite <- Hperm|done|].
      rewrite Hcl in Hcl'. injection Hcl' as <-.
      destruct (chan_full (send cl)); destruct Hr1 as [-> _], Hr2 as [-> _]; done.
    + assert (c ∉ l1 ∨ x = Some c) as Hskip.
      { destruct (decide (c ∈ l1)); [|by left].
        destruct (decide (x = Some c)); [by right|]. by destruct Hout. }
      rewrite Hk1 by done. apply Hk2. by rewrite <- Hperm.
  - congruence.
  - intros c. rewrite Hgo1, Hgo2, !drop_app_length, Hg1, Hg2.
    assert (∀ l w' evs, l ≡ₚ l1 → NoDup l →
              for_range (deliver_one spawn data x) l w = Ok w' →
              trace w' = trace w ++ evs →
              (∀ c, c ∈ l → x ≠ Some c → attempted data c w w' evs) →
              EvFull c ∈ evs ↔
              c ∈ l1 ∧ x ≠ Some c ∧
              ∃ cl, heap w !! c = Some cl ∧ chan_full (send cl) = true) as Hchar.
    { intros l w' evs Hl Hnd H Htr Ha. split.
      - intros Hin. rewrite <- Hl.
        eapply for_range_deliver_dropped; [done..|].
        by rewrite Htr, drop_app_length.
      - intros (Hin & Hx & cl & Hcl & Hfull).
        destruct (Ha c) as (cl' & Hcl' & _ & Hr); [by rewrite Hl|done|].
        rewrite Hcl in Hcl'. injection Hcl' as <-. rewrite Hfull in Hr.
        by destruct Hr. }
    rewrite (Hchar l1 w1 evs1), (Hchar l2 w2 evs2); done.
Qed.

(** ** Room broadcast *)

Lemma broadcastMessage_hub b w w' :
  broadcastMessage b w = Ok w' → hub w' = hub w.
Proof.
  unfold broadcastMessage. simpl.
  destruct (marshal (Message_ b)) as [data|]; [|by intros [= <-]].
  destruct (conversations (hub w) !! ConversationID b) as [cs|];
    [|by intros [= <-]].
  rewrite broadcast_one_deliver.
  intros H. apply for_range_deliver in H as [Hhub _]; [done|apply NoDup_elements].
Qed.

(** C2. A broadcast calls [json.Marshal] once, whatever the number of
    recipients; it never waits for a queue, and it returns when the members
    of the room are objects with open queues; every member of the room
    other than the excluded connection gets the serialised event at the
    tail of its queue, or, its queue being full, the event is dropped for
    it; and the excluded connection is not sent anything and is left as it
    was, whoever else is in the room. *)
Theorem broadcast_serialises_once_and_skips_excluded
    (b : BroadcastMessage) (w w' : World) :
  broadcastMessage b w ≠ Blocked ∧
  ((∀ cs, conversations (hub w) !! ConversationID b = Some cs →
          all_open (elements cs) w) →
   is_Ok (broadcastMessage b w)) ∧
  (broadcastMessage b w = Ok w' →
   tables w' = tables w ∧
   ∃ evs, trace w' = trace w ++ EvMarshal :: evs ∧ (EvMarshal ∉ evs) ∧
     (∀ x, ExcludeClient b = Some x →
        heap w' !! x = heap w !! x ∧ ∀ d, EvSend x d ∉ evs) ∧
     (∀ data cs c,
        marshal (Message_ b) = Some data →
        conversations (hub w) !! ConversationID b = Some cs →
        c ∈ cs → ExcludeClient b ≠ Some c →
        attempted data c w w' evs)).
Proof.
  unfold broadcastMessage. simpl. split_and!.
  - destruct (marshal (Message_ b)) as [data|]; [|done].
    destruct (conversations (hub w) !! ConversationID b) as [cs|]; [|done].
    rewrite broadcast_one_deliver. apply for_range_deliver_never_blocks.
  - intros Hopen. destruct (marshal (Message_ b)) as [data|]; [|by eexists].
    destruct (conversations (hub w) !! ConversationID b) as [cs|]; [|by eexists].
    rewrite broadcast_one_deliver. apply for_range_deliver_total. intros c Hin.
    destruct (Hopen cs eq_refl c Hin) as (cl & ? & ?). by exists cl.
  - destruct (marshal (Message_ b)) as [data|] eqn:Hdata.
    + destruct (conversations (hub w) !! ConversationID b) as [cs|] eqn:Hcs.
      * rewrite broadcast_one_deliver. intros H. apply for_range_deliver in H
          as (Hhub & evs & gs & Htr & _ & Hm & _ & Hs & Hk & Ha);
          [|apply NoDup_elements].
        split; [unfold tables; by rewrite Hhub|].
        exists evs. split_and!.
        -- rewrite Htr. simpl. by rewrite <- app_assoc.
        -- done.
        -- intros x Hx. split.
           ++ rewrite Hk; [done|by right].
           ++ intros d Hin. by destruct (Hs x d Hin) as (_ & ? & _).
        -- intros data' cs' c [= <-] [= <-] Hin Hne.
           destruct (Ha c) as (cl & ? & ? & ?); [by apply elem_of_elements|done|].
           by exists cl.
      * intros [= <-]. split; [done|]. exists []. split_and!; try done.
        -- by intros ?%elem_of_nil.
        -- intros x _. split; [done|]. by intros ? ?%elem_of_nil.
    + intros [= <-]. split; [done|]. exists []. split_and!; try done.
      * by intros ?%elem_of_nil.
      * intros x _. split; [done|]. by intros ? ?%elem_of_nil.
Qed.

(** ** Full queues: eviction after a room broadcast, none after a direct
    delivery *)

Lemma unregisterClient_total client w cl :
  heap w !! client = Some cl → closed (send cl) = false →
  is_Ok (unregisterClient client w).
Proof.
  intros Hcl Hopen. unfold unregisterClient, deref. rewrite Hcl. simpl.
  destruct (clients (hub w) !! userID cl) as [s|]; simpl.
  - destruct (decide (client ∈ s)); simpl.
    + unfold chan_close. rewrite Hopen. simpl.
      destruct (decide (conversationID cl ≠ uuid_Nil)); [|by eexists].
      match goal with |- is_Ok (match ?x with _ => _ end) => destruct x end;
        by eexists.
    + destruct (decide (conversationID cl ≠ uuid_Nil)); [|by eexists].
      destruct (conversations (hub w) !! conversationID cl); by eexists.
  - destruct (decide (conversationID cl ≠ uuid_Nil)); [|by eexists].
    destruct (conversations (hub w) !! conversationID cl); by eexists.
Qed.

(** Unregistering a client that is in the set of its identity closes its
    queue. *)
Lemma unregisterClient_registered client w w' cl s :
  heap w !! client = Some cl →
  clients (hub w) !! userID cl = Some s → client ∈ s →
  unregisterClient client w = Ok w' →
  heap w' = <[client := set_send (Chan (buf (send cl)) (cap (send cl)) true) cl]>
              (heap w) ∧
  closed (send cl) = false ∧
  trace w' = trace w ++ [EvClose client] ∧
  goroutines w' = goroutines w.
Proof.
  intros Hcl Hs Hin. unfold unregisterClient, deref. rewrite Hcl. simpl.
  rewrite Hs. destruct (decide (client ∈ s)); [|done]. unfold chan_close.
  destruct (closed (send cl)); [done|]. simpl.
  destruct (decide (conversationID cl ≠ uuid_Nil)).
  - match goal with |- match ?x with _ => _ end = _ → _ => destruct x end;
      by intros [= <-].
  - by intros [= <-].
Qed.

Lemma BroadcastToUser_Ok uid m w w' :
  BroadcastToUser uid m w = Ok w' →
  tables w' = tables w ∧ goroutines w' = goroutines w ∧
  ∃ evs, trace w' = trace w ++ EvMarshal :: evs ∧
    (∀ data cs c,
       marshal m = Some data → clients (hub w) !! uid = Some cs → c ∈ cs →
       attempted data c w w' evs).
Proof.
  unfold BroadcastToUser. simpl.
  destruct (marshal m) as [data|].
  - destruct (clients (hub w) !! uid) as [cs|] eqn:Hcs.
    + rewrite (for_range_ext _ (deliver_one false data None))
        by apply user_one_deliver.
      intros H. apply for_range_deliver in H
        as (Hhub & evs & gs & Htr & Hgo & _ & Hg & _ & _ & Ha);
        [|apply NoDup_elements].
      assert (gs = []) as ->.
      { destruct gs as [|c gs]; [done|]. by destruct (proj1 (Hg c)); [left|]. }
      split_and!.
      * unfold tables. by rewrite Hhub.
      * by rewrite Hgo, app_nil_r.
      * exists evs. split.
        -- rewrite Htr. simpl. by rewrite <- app_assoc.
        -- intros data' cs' c [= <-] [= <-] Hin.
           apply Ha; [by apply elem_of_elements|done].
    + intros [= <-]. split_and!; try done. by exists [].
  - intros [= <-]. split_and!; try done. by exists [].
Qed.

Lemma broadcastMessage_full b w w' data cs c cl :
  broadcastMessage b w = Ok w' →
  marshal (Message_ b) = Some data →
  conversations (hub w) !! ConversationID b = Some cs →
  c ∈ cs → ExcludeClient b ≠ Some c →
  heap w !! c = Some cl → chan_full (send cl) = true →
  hub w' = hub w ∧ heap w' !! c = Some cl ∧ closed (send cl) = false ∧
  c ∈ goroutines w'.
Proof.
  unfold broadcastMessage. simpl. intros H Hdata Hcs Hin Hne Hcl Hfull.
  rewrite Hdata, Hcs, broadcast_one_deliver in H.
  apply for_range_deliver in H
    as (Hhub & evs & gs & _ & Hgo & _ & Hg & _ & _ & Ha); [|apply NoDup_elements].
  destruct (Ha c) as (cl0 & Hcl0 & Hopen & Hres); [by apply elem_of_elements|done|].
  simpl in Hcl0. rewrite Hcl in Hcl0. injection Hcl0 as <-.
  rewrite Hfull in Hres. destruct Hres as [Hheap Hev].
  split_and!; try done.
  rewrite Hgo. apply elem_of_app. right. by apply Hg.
Qed.

(** C5, as the code has it. After a room broadcast, a member whose queue
    was full has had the event dropped and a goroutine started for it that
    unregisters it: the tables still hold it when the broadcast returns, and
    once that goroutine has run it is in neither table and its queue is
    closed. A direct delivery to an identity enqueues or drops in the same
    way, and that is all it does: it starts no goroutine and changes no
    table. *)
Theorem full_queue_eviction_by_broadcast_only :
  (∀ (b : BroadcastMessage) (w w' : World) data cs c cl,
     tables_inv w →
     broadcastMessage b w = Ok w' →
     marshal (Message_ b) = Some data →
     conversations (hub w) !! ConversationID b = Some cs →
     c ∈ cs → ExcludeClient b ≠ Some c →
     heap w !! c = Some cl → chan_full (send cl) = true →
     heap w' !! c = Some cl ∧ tables w' = tables w ∧
     ∃ i, goroutines w' !! i = Some c ∧
     ∃ w'', step (LGoroutine i) w' = Ok w'' ∧
       (∀ u, ¬ member (clients (hub w'')) u c) ∧
       (∀ r, ¬ member (conversations (hub w'')) r c) ∧
       ∃ cl'', heap w'' !! c = Some cl'' ∧ closed (send cl'') = true) ∧
  (∀ uid (m : Message) (w w' : World),
     BroadcastToUser uid m w = Ok w' →
     tables w' = tables w ∧ goroutines w' = goroutines w ∧
     ∃ evs, trace w' = trace w ++ EvMarshal :: evs ∧
       ∀ data cs c,
         marshal m = Some data → clients (hub w) !! uid = Some cs → c ∈ cs →
         attempted data c w w' evs).
Proof.
  split; [|apply BroadcastToUser_Ok].
  intros b w w' data cs c cl [_ _ Hi Hr] H Hdata Hcs Hin Hne Hcl Hfull.
  destruct (broadcastMessage_full _ _ _ _ _ _ _ H Hdata Hcs Hin Hne Hcl Hfull)
    as (Hhub & Hcl' & Hopen & Hgo).
  split; [done|]. split; [unfold tables; by rewrite Hhub|].
  apply list_elem_of_lookup in Hgo as [i Hi']. exists i. split; [done|].
  simpl. rewrite Hi'.
  set (w1 := set_goroutines (delete i (goroutines w')) w').
  destruct (unregisterClient_total c w1 cl Hcl' Hopen) as [w'' Hun].
  exists w''. split; [done|].
  destruct (Hr (ConversationID b) c) as (cl0 & Hcl0 & Hconv & Hnil & s & Hs & Hins);
    [by exists cs|].
  rewrite Hcl in Hcl0. injection Hcl0 as <-.
  destruct (unregisterClient_registered c w1 w'' cl s) as (Hheap & _ & _ & _);
    try done; [simpl; by rewrite Hhub|].
  destruct (unregisterClient_Ok _ _ _ Hun) as (cl1 & Hcl1 & Hmc & Hmv & _).
  simpl in Hcl1. rewrite Hcl' in Hcl1. injection Hcl1 as <-.
  split_and!.
  - intros u [Hm Hn]%Hmc. apply Hn. split; [|done].
    simpl in Hm. rewrite Hhub in Hm.
    destruct (Hi u c Hm) as (cl1 & Hcl1 & <-). congruence.
  - intros r [Hm Hn]%Hmv. apply Hn.
    simpl in Hm. rewrite Hhub in Hm.
    destruct (Hr r c Hm) as (cl1 & Hcl1 & <- & ? & _).
    split_and!; try done; congruence.
  - eexists. rewrite Hheap. simpl. by rewrite lookup_insert_eq.
Qed.

(** ** Which transitions change the membership tables *)

Lemma SendMessage_hub tie c m w e w' :
  SendMessage tie c m w = Ok (e, w') → hub w' = hub w.
Proof. unfold SendMessage. intros H. res_inv; done. Qed.

Lemma SendToClient_hub c m w e w' :
  SendToClient c m w = Ok (e, w') → hub w' = hub w.
Proof. unfold SendToClient. intros H. res_inv; done. Qed.

Lemma SendError_hub tie c msg w w' :
  SendError tie c msg w = Ok w' → hub w' = hub w.
Proof.
  unfold SendError. intros H. res_inv. by eapply SendMessage_hub.
Qed.

Lemma handleIncomingMessage_hub tie c msg w e w' :
  handleIncomingMessage tie c msg w = Ok (e, w') → hub w' = hub w.
Proof.
  unfold handleIncomingMessage. intros H. res_inv; try done.
  by eapply SendMessage_hub.
Qed.

Lemma updateActivity_hub c w w' :
  updateActivity c w = Ok w' → hub w' = hub w.
Proof. unfold updateActivity. intros H. res_inv; done. Qed.

Lemma await_hub t c w b w' :
  await t c w = Ok (b, w') → hub w' = hub w.
Proof. unfold await. intros H. res_inv; done. Qed.

Lemma on_pong_hub c w w' : on_pong c w = Ok w' → hub w' = hub w.
Proof.
  unfold on_pong. intros H. res_inv; [|done].
  by apply updateActivity_hub in H.
Qed.

Lemma read_pongs_hub ps c w b w' :
  read_pongs ps c w = Ok (b, w') → hub w' = hub w.
Proof.
  revert w. induction ps as [|t ps IH]; intros w; simpl.
  - by intros [= _ <-].
  - intros H. res_inv.
    + apply IH in H. apply on_pong_hub in Hx0. apply await_hub in Hx.
      congruence.
    + by apply await_hub in Hx.
Qed.

Lemma ReadMessage_hub inp c w r w' :
  ReadMessage inp c w = Ok (r, w') → hub w' = hub w.
Proof.
  unfold ReadMessage. intros H. res_inv;
    repeat match goal with
    | H : read_pongs _ _ _ = Ok _ |- _ => apply read_pongs_hub in H
    | H : await _ _ _ = Ok _ |- _ => apply await_hub in H
    end; simpl in *; congruence.
Qed.

Lemma ReadPump_iter_hub inp c w st w' :
  ReadPump_iter inp c w = Ok (st, w') → hub w' = hub w.
Proof.
  unfold ReadPump_iter. intros H. res_inv;
    repeat match goal with
    | H : ReadMessage _ _ _ = Ok _ |- _ => apply ReadMessage_hub in H
    | H : updateActivity _ _ = Ok _ |- _ => apply updateActivity_hub in H
    | H : SendError _ _ _ _ = Ok _ |- _ => apply SendError_hub in H
    | H : handleIncomingMessage _ _ _ _ = Ok _ |- _ =>
        apply handleIncomingMessage_hub in H
    end; congruence.
Qed.

Lemma ReadPump_defer_tables c w w' :
  ReadPump_defer c w = Ok w' → tables w' = tables w.
Proof. unfold ReadPump_defer. intros H. res_inv; done. Qed.

Lemma WritePump_iter_hub sel c w st w' :
  WritePump_iter sel c w = Ok (st, w') → hub w' = hub w.
Proof. unfold WritePump_iter. intros H. res_inv; done. Qed.

Lemma WritePump_defer_hub c w w' :
  WritePump_defer c w = Ok w' → hub w' = hub w.
Proof. unfold WritePump_defer. intros H. res_inv; done. Qed.

Lemma foldl_go_unregister_tables l (w : World) :
  tables (foldl (λ w' c, go_unregister c w') w l) = tables w.
Proof. revert w. induction l as [|c l IH]; intros w; simpl; [done|]. by rewrite IH. Qed.

Lemma cleanupStaleConnections_tables w w' :
  cleanupStaleConnections w = Ok w' → tables w' = tables w.
Proof.
  unfold cleanupStaleConnections. intros H. res_inv.
  apply foldl_go_unregister_tables.
Qed.

Lemma broadcastMessage_tables b w w' :
  broadcastMessage b w = Ok w' → tables w' = tables w.
Proof.
  intros H. unfold tables. by rewrite (broadcastMessage_hub _ _ _ H).
Qed.

Lemma step_tables l w w' :
  step l w = Ok w' → writes_tables l ∨ tables w' = tables w.
Proof.
  destruct l as [s|i|c|conv m x|uid m|c m| |c inp|c sel|d]; simpl.
  - destruct s; simpl; auto; intros H; right.
    + destruct (chan_recv (broadcast (hub w))) as [[[v|] ch]| |] eqn:Hrecv;
        simpl in H; try done.
      apply broadcastMessage_tables in H. by rewrite H.
    + by apply cleanupStaleConnections_tables.
    + by injection H as <-.
  - auto.
  - intros H. right. by res_inv.
  - unfold BroadcastToConversation. intros H. right. by res_inv.
  - intros H. right. by apply BroadcastToUser_Ok in H as [? _].
  - intros H. right. res_inv. unfold tables. by erewrite SendToClient_hub.
  - intros [= <-]. by right.
  - intros H. right. res_inv.
    + unfold tables. by erewrite ReadPump_iter_hub.
    + apply ReadPump_iter_hub in Hx. apply ReadPump_defer_tables in H.
      unfold tables in *. congruence.
  - intros H. right. res_inv.
    + unfold tables. by erewrite WritePump_iter_hub.
    + apply WritePump_iter_hub in Hx. apply WritePump_defer_hub in H.
      unfold tables. congruence.
  - intros [= <-]. by right.
Qed.


(** ** The single-client send path *)

Lemma reads_only_refl c w : reads_only c w w.
Proof. split_and!; try done. intros cl ?. by exists cl. Qed.

Lemma reads_only_trans c w1 w2 w3 :
  reads_only c w1 w2 → reads_only c w2 w3 → reads_only c w1 w3.
Proof.
  intros (Hh & Hg & Ht & Hc) (Hh' & Hg' & Ht' & Hc').
  split_and!; try congruence.
  intros cl Hcl. destruct (Hc cl Hcl) as (cl1 & Hcl1 & ? & ? & ? & ? & ?).
  destruct (Hc' cl1 Hcl1) as (cl2 & Hcl2 & ? & ? & ? & ? & ?).
  exists cl2. split_and!; congruence.
Qed.

Lemma updateActivity_reads_only c w w' :
  updateActivity c w = Ok w' → reads_only c w w'.
Proof.
  unfold updateActivity. intros (cl & Hcl%deref_Ok & [= <-])%bind_Ok.
  split_and!; try done. intros cl0 Hcl0. simpl. rewrite lookup_insert_eq.
  rewrite Hcl in Hcl0. injection Hcl0 as <-. by eexists.
Qed.

Lemma await_reads_only t c w b w' : await t c w = Ok (b, w') → reads_only c w w'.
Proof.
  unfold await. intros H. res_inv; (split_and!; [done..|]);
    intros cl0 ?; by exists cl0.
Qed.

Lemma on_pong_reads_only c w w' : on_pong c w = Ok w' → reads_only c w w'.
Proof.
  unfold on_pong. intros (cl & Hcl%deref_Ok & H)%bind_Ok.
  destruct (pongHandler (conn cl)); [|injection H as <-; apply reads_only_refl].
  apply updateActivity_reads_only in H. eapply reads_only_trans; [|exact H].
  split_and!; try done. intros cl0 Hcl0. simpl. rewrite lookup_insert_eq.
  rewrite Hcl in Hcl0. injection Hcl0 as <-. by eexists.
Qed.

Lemma read_pongs_reads_only ps c w b w' :
  read_pongs ps c w = Ok (b, w') → reads_only c w w'.
Proof.
  revert w. induction ps as [|t ps IH]; intros w; simpl.
  - intros [= _ <-]. apply reads_only_refl.
  - intros H. res_inv.
    + eapply reads_only_trans; [by eapply await_reads_only|].
      eapply reads_only_trans; [by eapply on_pong_reads_only|by apply IH].
    + by eapply await_reads_only.
Qed.

Lemma ReadMessage_reads_only inp c w r w' :
  ReadMessage inp c w = Ok (r, w') → reads_only c w w'.
Proof.
  unfold ReadMessage. intros H. res_inv;
    try apply reads_only_refl;
    repeat match goal with
    | H : read_pongs _ _ _ = Ok _ |- _ => apply read_pongs_reads_only in H
    | H : await _ _ _ = Ok _ |- _ => apply await_reads_only in H
    end;
    try done; by eapply reads_only_trans.
Qed.

(** [SendMessage], case by case. *)
Lemma SendMessage_full tie c m w cl data :
  heap w !! c = Some cl → marshal (ofWS m) = Some data →
  closed (send cl) = false → chan_full (send cl) = true → ctx cl = false →
  SendMessage tie c m w =
    Ok (Some "timeout sending message to client",
        wait (5 * second) (emit EvMarshal w)).
Proof.
  intros Hcl Hdata Hopen Hfull Hctx. unfold SendMessage, deref. simpl.
  rewrite Hdata, Hcl. simpl. by rewrite Hopen, Hfull, Hctx.
Qed.

Lemma SendMessage_room tie c m w cl data :
  heap w !! c = Some cl → marshal (ofWS m) = Some data →
  closed (send cl) = false → chan_full (send cl) = false → ctx cl = false →
  SendMessage tie c m w =
    Ok (None, emit (EvSend c data)
                (store c (set_send (enqueue data (send cl)) cl) (emit EvMarshal w))).
Proof.
  intros Hcl Hdata Hopen Hfull Hctx. unfold SendMessage, deref, chan_send. simpl.
  rewrite Hdata, Hcl. simpl. by rewrite Hopen, Hfull, Hctx.
Qed.

Lemma SendToClient_full c m w cl data :
  heap w !! c = Some cl → marshal m = Some data →
  closed (send cl) = false → chan_full (send cl) = true →
  SendToClient c m w =
    Ok (Some "timeout sending to client", wait (5 * second) (emit EvMarshal w)).
Proof.
  intros Hcl Hdata Hopen Hfull. unfold SendToClient, deref. simpl.
  rewrite Hdata, Hcl. simpl. by rewrite Hopen, Hfull.
Qed.

(** A client with an open queue whose context is live gets a result from
    [SendMessage]: sent, refused by the serialiser, or timed out. *)
Lemma SendMessage_open tie c m w cl :
  heap w !! c = Some cl → closed (send cl) = false → ctx cl = false →
  ∃ e w', SendMessage tie c m w = Ok (e, w') ∧
    hub w' = hub w ∧ goroutines w' = goroutines w ∧
    Forall (λ ev, ev = EvMarshal ∨ (∃ d, ev = EvSend c d) ∨ ∃ d, ev = EvWait d)
           (drop (length (trace w)) (trace w')) ∧
    (∀ c', c' ≠ c → heap w' !! c' = heap w !! c') ∧
    ∃ cl', heap w' !! c = Some cl' ∧
      cl' = set_send (send cl') cl ∧ closed (send cl') = false ∧
      (∀ data, marshal (ofWS m) = Some data →
         send cl' = if chan_full (send cl) then send cl
                    else enqueue data (send cl)).
Proof.
  clear unmarshal.
  intros Hcl Hopen Hctx. destruct cl as [i k s u v la mh x]. simpl in *. subst.
  unfold SendMessage, deref. simpl. rewrite Hcl. simpl.
  destruct (marshal (ofWS m)) as [data|] eqn:Hdata; simpl.
  - rewrite Hopen. destruct (chan_full s) eqn:Hfull; simpl.
    + do 2 eexists. split; [done|]. simpl. split_and!; try done.
      * rewrite <- ?app_assoc, drop_app_length.
        repeat (apply Forall_cons; split; [naive_solver|]). by apply Forall_nil.
      * exists (mkClient i k s u v la mh false).
        split_and!; try done; by intros ? [= <-].
    + unfold chan_send. simpl. rewrite Hopen, Hfull. simpl.
      do 2 eexists. split; [done|]. simpl. split_and!; try done.
      * rewrite <- ?app_assoc, drop_app_length.
        repeat (apply Forall_cons; split; [naive_solver|]). by apply Forall_nil.
      * intros c' Hne. by rewrite lookup_insert_ne.
      * rewrite lookup_insert_eq. eexists.
        split_and!; try done; by intros ? [= <-].
  - do 2 eexists. split; [done|]. simpl. split_and!; try done.
    + rewrite <- ?app_assoc, drop_app_length.
        repeat (apply Forall_cons; split; [naive_solver|]). by apply Forall_nil.
    + exists (mkClient i k s u v la mh false). split_and!; done.
Qed.

(** ** The read pump and malformed frames *)

Lemma updateActivity_Ok c w cl :
  heap w !! c = Some cl →
  updateActivity c w = Ok (store c (set_lastActivity (now w) cl) w).
Proof. intros Hcl. unfold updateActivity, deref. by rewrite Hcl. Qed.

(** An iteration that received a payload calling for an error reply is the
    reply, and the loop goes on. *)
Lemma ReadPump_iter_protocol_error inp c w cl payload w1 cl1 text :
  heap w !! c = Some cl → ctx cl = false →
  ReadMessage inp c w = Ok (Some payload, w1) →
  heap w1 !! c = Some cl1 →
  protocol_error payload = Some text →
  ReadPump_iter inp c w =
    '(_, w') ← SendMessage (reply_tie inp payload) c
                 (error_event (conversationID cl1) text)
                 (store c (set_lastActivity (now w1) cl1) w1);
    Ok (Running, w').
Proof.
  intros Hcl Hctx Hread Hcl1 Hperr. unfold ReadPump_iter, deref.
  rewrite Hcl. simpl. rewrite Hctx, Hread. simpl.
  rewrite (updateActivity_Ok _ _ _ Hcl1). simpl.
  unfold protocol_error, reply_tie in *.
  destruct (unmarshal payload) as [msg|].
  - destruct (known_type (Type_ msg)) eqn:Hk; [done|]. injection Hperr as <-.
    unfold known_type in Hk. apply orb_false_iff in Hk as [Hk Hping].
    apply orb_false_iff in Hk as [Hmsg Htyping].
    unfold handleIncomingMessage, deref. simpl. rewrite lookup_insert_eq. simpl.
    rewrite Hmsg, Htyping, Hping. simpl.
    unfold SendError, deref. simpl. rewrite lookup_insert_eq. simpl.
    by destruct (SendMessage _ _ _ _) as [[e w']| |].
  - injection Hperr as <-.
    unfold SendError, deref. simpl. rewrite lookup_insert_eq. simpl.
    by destruct (SendMessage _ _ _ _) as [[e w']| |].
Qed.

(** A frame that arrives alone on an open connection, before the deadline
    and within the size limit, is what [ReadMessage] returns. *)
Lemma ReadMessage_frame inp c w cl payload :
  heap w !! c = Some cl → conn_closed (conn cl) = false →
  pongs inp = [] → outcome inp = GotFrame payload →
  (∀ d, readDeadline (conn cl) = Some d → Z.max (now w) (arrival inp) ≤ d) →
  ¬ (0 < readLimit (conn cl) ∧ readLimit (conn cl) < Z.of_nat (length payload)) →
  ReadMessage inp c w = Ok (Some payload, set_now (Z.max (now w) (arrival inp)) w).
Proof.
  intros Hcl Hopen Hpongs Hout Hdl Hlim. unfold ReadMessage, deref, await, deref.
  rewrite Hcl. simpl. rewrite Hopen, Hpongs. simpl. rewrite ?Hcl, Hout. simpl.
  rewrite ?Hcl. simpl.
  destruct (readDeadline (conn cl)) as [d|] eqn:Hd; simpl.
  - destruct (decide (d < Z.max (now w) (arrival inp))) as [Hlt|_]; simpl.
    + specialize (Hdl d eq_refl). lia.
    + by destruct (decide _).
  - by destruct (decide _).
Qed.


(** C10. The single-client send is not the drop-and-disconnect enqueue of a
    broadcast. On a client whose queue is full (and open, with a live
    context), [SendMessage] and [SendToClient] wait five seconds and return
    a timeout error; the wait changes the clock and the trace and nothing
    else, so the client stays in the tables and no goroutine is started for
    it. The error reply of the read pump to a frame that does not decode is
    such a send: the iteration ends five seconds after the read, the loop
    still running and the client still registered, its queue untouched. *)
Theorem single_client_send_waits_and_keeps_client_registered
    tie c (w : World) cl :
  heap w !! c = Some cl → closed (send cl) = false →
  chan_full (send cl) = true → ctx cl = false →
  (∀ m data, marshal (ofWS m) = Some data →
     SendMessage tie c m w =
       Ok (Some "timeout sending message to client",
           wait (5 * second) (emit EvMarshal w))) ∧
  (∀ m data, marshal m = Some data →
     SendToClient c m w =
       Ok (Some "timeout sending to client",
           wait (5 * second) (emit EvMarshal w))) ∧
  (now (wait (5 * second) (emit EvMarshal w)) = now w + 5 * second ∧
   heap (wait (5 * second) (emit EvMarshal w)) = heap w ∧
   hub (wait (5 * second) (emit EvMarshal w)) = hub w ∧
   goroutines (wait (5 * second) (emit EvMarshal w)) = goroutines w) ∧
  (∀ inp payload w1 data,
     ReadMessage inp c w = Ok (Some payload, w1) →
     unmarshal payload = None →
     marshal (ofWS (error_event (conversationID cl) "Invalid message format"))
       = Some data →
     ∃ w', ReadPump_iter inp c w = Ok (Running, w') ∧
       now w' = now w1 + 5 * second ∧
       hub w' = hub w ∧ goroutines w' = goroutines w ∧
       ∃ cl', heap w' !! c = Some cl' ∧ send cl' = send cl).
Proof.
  intros Hcl Hopen Hfull Hctx. split; [|split; [|split]].
  - intros m data Hdata. by eapply SendMessage_full.
  - intros m data Hdata. by eapply SendToClient_full.
  - done.
  - intros inp payload w1 data Hread Hun Hdata.
    destruct (ReadMessage_reads_only _ _ _ _ _ Hread) as (Hh & Hg & Ht & Hc).
    destruct (Hc cl Hcl) as (cl1 & Hcl1 & Hsend & Hctx1 & Hu & Hv & Hmh).
    rewrite (ReadPump_iter_protocol_error _ _ _ _ _ _ _ "Invalid message format"
               Hcl Hctx Hread Hcl1)
      by (unfold protocol_error; by rewrite Hun).
    rewrite (SendMessage_full _ _ _ _ (set_lastActivity (now w1) cl1) data);
      simpl; try congruence; [|by rewrite lookup_insert_eq].
    eexists. split; [done|]. simpl. split_and!; try done.
    rewrite lookup_insert_eq. by eexists.
Qed.

(** ** The exits of the read pump *)

Lemma pumps_on_refl c w : pumps_on c w w.
Proof.
  split; [exists []; by rewrite app_nil_r|]. intros cl ?. by exists cl.
Qed.

Lemma pumps_on_trans c w1 w2 w3 :
  pumps_on c w1 w2 → pumps_on c w2 w3 → pumps_on c w1 w3.
Proof.
  intros [(e1 & Ht1 & Hf1) Hc1] [(e2 & Ht2 & Hf2) Hc2]. split.
  - exists (e1 ++ e2). rewrite Ht2, Ht1, app_assoc. split; [done|].
    by apply Forall_app.
  - intros cl Hcl. destruct (Hc1 cl Hcl) as (cl1 & Hcl1 & ?).
    destruct (Hc2 cl1 Hcl1) as (cl2 & Hcl2 & ?). exists cl2. split; congruence.
Qed.

Lemma reads_only_pumps_on c w w' : reads_only c w w' → pumps_on c w w'.
Proof.
  intros (_ & _ & Ht & Hc). split.
  - exists []. by rewrite app_nil_r.
  - intros cl Hcl. destruct (Hc cl Hcl) as (cl' & ? & _ & _ & _ & _ & ?).
    by exists cl'.
Qed.

Lemma SendMessage_pumps_on tie c m w e w' :
  SendMessage tie c m w = Ok (e, w') → pumps_on c w w'.
Proof.
  unfold SendMessage. intros H. res_inv; simpl; (split; [eexists; split|]);
    try (simpl; rewrite <- ?app_assoc; reflexivity);
    try (repeat (apply Forall_cons; split; [done|]); by apply Forall_nil).
  all: intros cl Hcl; simpl in *.
  all: try (by exists cl).
  apply deref_Ok in Hx. simpl in Hx. rewrite Hx in Hcl. injection Hcl as <-.
  rewrite lookup_insert_eq. by eexists.
Qed.

Lemma SendError_pumps_on tie c msg w w' :
  SendError tie c msg w = Ok w' → pumps_on c w w'.
Proof. unfold SendError. intros H. res_inv. by eapply SendMessage_pumps_on. Qed.

Lemma handleIncomingMessage_pumps_on tie c msg w e w' :
  handleIncomingMessage tie c msg w = Ok (e, w') → pumps_on c w w'.
Proof.
  unfold handleIncomingMessage. intros H. res_inv; try apply pumps_on_refl.
  by eapply SendMessage_pumps_on.
Qed.

Lemma ReadPump_iter_pumps_on inp c w st w' :
  ReadPump_iter inp c w = Ok (st, w') → pumps_on c w w'.
Proof.
  unfold ReadPump_iter. intros H. res_inv; try apply pumps_on_refl;
    repeat match goal with
    | H : ReadMessage _ _ _ = Ok _ |- _ =>
        apply ReadMessage_reads_only, reads_only_pumps_on in H
    | H : updateActivity _ _ = Ok _ |- _ =>
        apply updateActivity_reads_only, reads_only_pumps_on in H
    | H : SendError _ _ _ _ = Ok _ |- _ => apply SendError_pumps_on in H
    | H : handleIncomingMessage _ _ _ _ = Ok _ |- _ =>
        apply handleIncomingMessage_pumps_on in H
    end;
    eauto using pumps_on_trans.
Qed.

Lemma ReadPump_loop_pumps_on inps c w st w' :
  ReadPump_loop inps c w = Ok (st, w') → pumps_on c w w'.
Proof.
  revert w. induction inps as [|inp inps IH]; intros w; simpl.
  - intros [= _ <-]. apply pumps_on_refl.
  - intros H. res_inv.
    + eapply pumps_on_trans; [by eapply ReadPump_iter_pumps_on|by apply IH].
    + by eapply ReadPump_iter_pumps_on.
Qed.

Lemma ReadPump_loop_hub inps c w st w' :
  ReadPump_loop inps c w = Ok (st, w') → hub w' = hub w.
Proof.
  revert w. induction inps as [|inp inps IH]; intros w; simpl.
  - by intros [= _ <-].
  - intros H. res_inv.
    + apply ReadPump_iter_hub in Hx. apply IH in H. congruence.
    + by eapply ReadPump_iter_hub.
Qed.

Lemma ReadPump_loop_app inps1 inps2 c w w1 :
  ReadPump_loop inps1 c w = Ok (Running, w1) →
  ReadPump_loop (inps1 ++ inps2) c w = ReadPump_loop inps2 c w1.
Proof.
  revert w. induction inps1 as [|inp inps1 IH]; intros w; simpl.
  - by intros [= <-].
  - intros H. destruct (ReadPump_iter inp c w) as [[[] w2]| |]; simpl in *;
      try done. by apply IH.
Qed.

Lemma occurrences_app e l1 l2 :
  occurrences e (l1 ++ l2) = (occurrences e l1 + occurrences e l2)%nat.
Proof. unfold occurrences. by rewrite filter_app, length_app. Qed.

Lemma occurrences_send_events e evs :
  ¬ send_event e → Forall send_event evs → occurrences e evs = 0%nat.
Proof.
  intros He Hevs. unfold occurrences. induction Hevs as [|x evs Hx _ IH]; [done|].
  rewrite filter_cons. destruct (decide (x = e)) as [->|]; [done|]. exact IH.
Qed.

Lemma no_exit_events c evs :
  Forall send_event evs →
  occurrences (EvSubmit c) evs = 0%nat ∧ occurrences (EvDisconnect c) evs = 0%nat.
Proof. intros H. split; apply occurrences_send_events; try done; intros []. Qed.

(** The deferred function: what it emits and what it leaves. *)
Lemma ReadPump_defer_Ok c w cl :
  heap w !! c = Some cl →
  closed (unregister (hub w)) = false → chan_full (unregister (hub w)) = false →
  ∃ w', ReadPump_defer c w = Ok w' ∧
    trace w' = trace w ++ [EvSubmit c; EvConnClose c; EvCancel c] ++
                 match messageHandler cl with
                 | Some _ => [EvDisconnect c]
                 | None => []
                 end ∧
    unregister (hub w') = enqueue c (unregister (hub w)) ∧
    heap w' = <[c := set_ctx true (set_conn (Conn_Close (conn cl)) cl)]> (heap w).
Proof.
  intros Hcl Hopen Hfull. unfold ReadPump_defer, chan_send, deref.
  rewrite Hopen, Hfull. simpl. rewrite Hcl. simpl. rewrite lookup_insert_eq. simpl.
  destruct (messageHandler cl); eexists; (split; [done|]); simpl;
    rewrite <- ?app_assoc, insert_insert_eq; done.
Qed.

Lemma ReadPump_defer_inv c w w' :
  ReadPump_defer c w = Ok w' →
  ∃ cl, heap w !! c = Some cl ∧
    closed (unregister (hub w)) = false ∧ chan_full (unregister (hub w)) = false.
Proof.
  unfold ReadPump_defer, chan_send. intros H.
  destruct (closed (unregister (hub w))); [done|].
  destruct (chan_full (unregister (hub w))); [done|]. simpl in H.
  unfold deref in H. simpl in H. destruct (heap w !! c) as [cl|]; [|done].
  by exists cl.
Qed.


(** ** The read deadline *)

Lemma keeps_conn_refl c w : keeps_conn c w w.
Proof. intros cl ?. by exists cl. Qed.

Lemma keeps_conn_heap c (w w' : World) : heap w' = heap w → keeps_conn c w w'.
Proof. intros Hh cl ?. exists cl. by rewrite Hh. Qed.

Lemma keeps_conn_trans c w1 w2 w3 :
  keeps_conn c w1 w2 → keeps_conn c w2 w3 → keeps_conn c w1 w3.
Proof.
  intros H1 H2 cl Hcl. destruct (H1 cl Hcl) as (cl1 & Hcl1 & ?).
  destruct (H2 cl1 Hcl1) as (cl2 & ? & ?). exists cl2. split; congruence.
Qed.

Lemma store_keeps_conn c cl' (w : World) :
  (∀ cl, heap w !! c = Some cl → conn cl' = conn cl) →
  keeps_conn c w (store c cl' w).
Proof.
  intros H cl Hcl. exists cl'. simpl. rewrite lookup_insert_eq. split; [done|].
  by apply H.
Qed.

Lemma updateActivity_keeps_conn c w w' :
  updateActivity c w = Ok w' → keeps_conn c w w'.
Proof.
  unfold updateActivity. intros (cl & Hcl%deref_Ok & [= <-])%bind_Ok.
  apply store_keeps_conn. intros cl0 Hcl0. simpl. congruence.
Qed.

Lemma await_keeps_conn t c w b w' : await t c w = Ok (b, w') → keeps_conn c w w'.
Proof. unfold await. intros H. res_inv; by apply keeps_conn_heap. Qed.

Lemma SendMessage_keeps_conn tie c m w e w' :
  SendMessage tie c m w = Ok (e, w') → keeps_conn c w w'.
Proof.
  unfold SendMessage. intros H. res_inv; try (by apply keeps_conn_heap).
  apply deref_Ok in Hx. simpl in Hx.
  intros cl Hcl. simpl. rewrite lookup_insert_eq. eexists. split; [done|].
  simpl. congruence.
Qed.

Lemma SendError_keeps_conn tie c msg w w' :
  SendError tie c msg w = Ok w' → keeps_conn c w w'.
Proof. unfold SendError. intros H. res_inv. by eapply SendMessage_keeps_conn. Qed.

Lemma handleIncomingMessage_keeps_conn tie c msg w e w' :
  handleIncomingMessage tie c msg w = Ok (e, w') → keeps_conn c w w'.
Proof.
  unfold handleIncomingMessage. intros H. res_inv;
    try (by apply keeps_conn_heap).
  by eapply SendMessage_keeps_conn.
Qed.

Lemma ReadMessage_keeps_conn inp c w r w' :
  pongs inp = [] → ReadMessage inp c w = Ok (r, w') → keeps_conn c w w'.
Proof.
  unfold ReadMessage. intros ->. simpl. intros H. res_inv;
    try (by apply keeps_conn_heap);
    repeat match goal with
    | H : await _ _ _ = Ok _ |- _ => apply await_keeps_conn in H
    end; done.
Qed.

(** An iteration in which no pong arrives leaves the connection, and so
    the read deadline, as it was. *)
Lemma ReadPump_iter_keeps_conn inp c w st w' :
  pongs inp = [] → ReadPump_iter inp c w = Ok (st, w') → keeps_conn c w w'.
Proof.
  intros Hp. unfold ReadPump_iter. intros H. res_inv;
    try (by apply keeps_conn_heap);
    repeat match goal with
    | H : ReadMessage _ _ _ = Ok _ |- _ => apply ReadMessage_keeps_conn in H; [|done]
    | H : updateActivity _ _ = Ok _ |- _ => apply updateActivity_keeps_conn in H
    | H : SendError _ _ _ _ = Ok _ |- _ => apply SendError_keeps_conn in H
    | H : handleIncomingMessage _ _ _ _ = Ok _ |- _ =>
        apply handleIncomingMessage_keeps_conn in H
    end;
    eauto using keeps_conn_trans.
Qed.

(** A read on an open connection whose deadline passes before anything
    arrives fails. *)
Lemma ReadMessage_expired inp c w cl d :
  heap w !! c = Some cl → conn_closed (conn cl) = false →
  pongs inp = [] → readDeadline (conn cl) = Some d →
  d < Z.max (now w) (arrival inp) ∨ outcome inp = Silence →
  ReadMessage inp c w = Ok (None, set_now (Z.max (now w) d) w).
Proof.
  intros Hcl Hopen Hp Hd Hexp. unfold ReadMessage, deref, await, deref.
  rewrite Hcl. simpl. rewrite Hopen, Hp. simpl. rewrite ?Hcl. simpl.
  destruct (outcome inp) as [payload| |] eqn:Hout; simpl.
  - destruct Hexp as [Hlt|]; [|done]. rewrite ?Hcl. simpl. rewrite Hd.
    destruct (decide (d < Z.max (now w) (arrival inp))); [done|lia].
  - destruct Hexp as [Hlt|]; [|done]. rewrite ?Hcl. simpl. rewrite Hd.
    destruct (decide (d < Z.max (now w) (arrival inp))); [done|lia].
  - by rewrite Hd.
Qed.

(** C4, as the code has it. The read deadline is set to [pongWait] from now
    when the pump starts and again at each pong; a frame that is received
    leaves the deadline where it was (what it refreshes is the last-activity
    time the sweep reads). When the deadline passes, the read fails, the
    pump returns, the connection is submitted to the hub for unregistration
    and is closed. *)
Theorem read_deadline_is_refreshed_by_pongs_only c (w : World) cl :
  heap w !! c = Some cl →
  (∃ w0 cl0, ReadPump_setup c w = Ok w0 ∧ heap w0 !! c = Some cl0 ∧
     readDeadline (conn cl0) = Some (now w + pongWait) ∧
     pongHandler (conn cl0) = true) ∧
  (pongHandler (conn cl) = true →
   ∃ w' cl', on_pong c w = Ok w' ∧ heap w' !! c = Some cl' ∧
     readDeadline (conn cl') = Some (now w + pongWait) ∧
     lastActivity cl' = now w) ∧
  (∀ inp st w', pongs inp = [] → ReadPump_iter inp c w = Ok (st, w') →
     ∃ cl', heap w' !! c = Some cl' ∧
       readDeadline (conn cl') = readDeadline (conn cl)) ∧
  (∀ inp payload w1, ReadMessage inp c w = Ok (Some payload, w1) →
     ∃ w2 cl2, updateActivity c w1 = Ok w2 ∧ heap w2 !! c = Some cl2 ∧
       lastActivity cl2 = now w1) ∧
  (∀ inp d, ctx cl = false → conn_closed (conn cl) = false →
     pongs inp = [] → readDeadline (conn cl) = Some d →
     d < Z.max (now w) (arrival inp) ∨ outcome inp = Silence →
     closed (unregister (hub w)) = false →
     chan_full (unregister (hub w)) = false →
     ∃ w' cl',
       step (LReadPump c inp) w = Ok w' ∧
       unregister (hub w') = enqueue c (unregister (hub w)) ∧
       heap w' !! c = Some cl' ∧ conn_closed (conn cl') = true).
Proof.
  intros Hcl. split_and!.
  - unfold ReadPump_setup, deref. rewrite Hcl. simpl. do 2 eexists.
    split; [done|]. simpl. rewrite lookup_insert_eq. done.
  - intros Hph. unfold on_pong, deref. rewrite Hcl. simpl. rewrite Hph.
    unfold updateActivity, deref. simpl. rewrite lookup_insert_eq. simpl.
    do 2 eexists. split; [done|]. simpl. rewrite lookup_insert_eq. done.
  - intros inp st w' Hp H.
    destruct (ReadPump_iter_keeps_conn _ _ _ _ _ Hp H cl Hcl) as (cl' & ? & Hconn).
    exists cl'. by rewrite Hconn.
  - intros inp payload w1 Hread.
    destruct (ReadMessage_reads_only _ _ _ _ _ Hread) as (_ & _ & _ & Hc).
    destruct (Hc cl Hcl) as (cl1 & Hcl1 & _).
    rewrite (updateActivity_Ok _ _ _ Hcl1). do 2 eexists. split; [done|].
    simpl. rewrite lookup_insert_eq. done.
  - intros inp d Hctx Hopen Hp Hd Hexp Hchan Hroom. simpl.
    unfold ReadPump_iter, deref. rewrite Hcl. simpl. rewrite Hctx.
    rewrite (ReadMessage_expired _ _ _ _ _ Hcl Hopen Hp Hd Hexp). simpl.
    destruct (ReadPump_defer_Ok c (set_now (Z.max (now w) d) w) cl)
      as (w' & -> & _ & Hun & Hheap); try done.
    do 2 eexists. split; [done|]. rewrite Hheap, lookup_insert_eq. done.
Qed.

(** ** Order of delivery *)

Lemma drain_all (l : list bytes) n b acc :
  drain (length l) (Chan l n b) acc
  = Ok (acc ++ concat (map (λ x, newline :: x) l), Chan [] n b).
Proof.
  revert acc. induction l as [|x l IH]; intros acc; simpl.
  - by rewrite app_nil_r.
  - unfold chan_recv. simpl. rewrite IH. by rewrite <- app_assoc.
Qed.

Lemma option_list_for_member c R (b : BroadcastMessage) rest :
  omap (for_member c R) (b :: rest)
  = option_list (for_member c R b) ++ omap (for_member c R) rest.
Proof. simpl. by destruct (for_member c R b). Qed.

(** The effect of one processed broadcast on a member that is not dropped. *)
Lemma broadcastMessage_member b w w' c cl R :
  broadcastMessage b w = Ok w' →
  member_ok c cl R w →
  EvFull c ∉ drop (length (trace w)) (trace w') →
  ∃ cl', heap w' !! c = Some cl' ∧
    cl' = set_send (send cl') cl ∧ cap (send cl') = cap (send cl) ∧
    closed (send cl') = false ∧
    buf (send cl') = buf (send cl) ++ option_list (for_member c R b).
Proof.
  intros H [Hcl Hopen Hconn Hmem Honly] Hresp. revert H Hresp.
  unfold broadcastMessage, for_member. simpl.
  destruct (marshal (Message_ b)) as [data|] eqn:Hdata.
  2: { intros [= <-] _. exists cl. destruct cl. simpl.
       case_decide; by rewrite app_nil_r. }
  destruct (conversations (hub w) !! ConversationID b) as [cs|] eqn:Hcs.
  2: { intros [= <-] _. exists cl. case_decide as Hd.
       - destruct Hd as [HR _]. destruct Hmem as (s & Hs & _). congruence.
       - destruct cl. simpl. by rewrite app_nil_r. }
  rewrite broadcast_one_deliver. intros H.
  apply for_range_deliver in H
    as (_ & evs & gs & Htr & _ & _ & _ & _ & Hk & Ha); [|apply NoDup_elements].
  simpl in Htr. rewrite Htr, <- app_assoc, drop_app_length. intros Hresp.
  destruct (decide (c ∈ cs ∧ ExcludeClient b ≠ Some c)) as [[Hin Hx]|Hskip].
  - assert (ConversationID b = R) as HR by (apply Honly; by exists cs).
    rewrite decide_True by done.
    destruct (Ha c) as (cl0 & Hcl0 & _ & Hres); [by apply elem_of_elements|done|].
    simpl in Hcl0. rewrite Hcl in Hcl0. injection Hcl0 as <-.
    destruct (chan_full (send cl)).
    + destruct Hres as [_ Hev]. destruct Hresp. by right.
    + destruct Hres as [Hcl' _]. eexists. split; [done|]. by destruct cl.
  - assert (heap w' !! c = Some cl) as Hcl'.
    { rewrite Hk; [done|]. destruct (decide (c ∈ cs)) as [Hin|Hout].
      - right. destruct (decide (ExcludeClient b = Some c)); [done|].
        destruct Hskip. done.
      - left. by rewrite elem_of_elements. }
    exists cl. rewrite decide_False.
    + destruct cl. simpl. by rewrite app_nil_r.
    + intros [HR Hx]. apply Hskip. split; [|done].
      destruct Hmem as (s & Hs & Hin). congruence.
Qed.

Lemma broadcastMessage_trace b w w' :
  broadcastMessage b w = Ok w' → ∃ e, trace w' = trace w ++ e.
Proof.
  unfold broadcastMessage. simpl.
  destruct (marshal (Message_ b)) as [data|]; [|intros [= <-]; by eexists].
  destruct (conversations (hub w) !! ConversationID b) as [cs|];
    [|intros [= <-]; by eexists].
  rewrite broadcast_one_deliver. intros H.
  apply for_range_deliver in H as (_ & evs & _ & Htr & _); [|apply NoDup_elements].
  simpl in Htr. rewrite Htr, <- app_assoc. by eexists.
Qed.

Lemma step_trace_extends c l w w1 :
  fifo_label c l → step l w = Ok w1 → ∃ e, trace w1 = trace w ++ e.
Proof.
  destruct l as [[]|i|c0|conv m x|uid m|c0 m| |c0 inp|c0 [|[] []|]|d]; simpl;
    try done; intros Hl H.
  - destruct (chan_recv (broadcast (hub w))) as [[[b|] ch]| |]; simpl in H;
      try done. by apply broadcastMessage_trace in H.
  - unfold BroadcastToConversation in H. res_inv. exists []. by rewrite app_nil_r.
  - revert H. unfold WritePump_iter, WritePump_defer. intros H.
    res_inv; simpl; rewrite <- ?app_assoc;
      first [exists []; by rewrite app_nil_r | by eexists].
Qed.

Lemma steps_trace_extends c ls w w' :
  Forall (fifo_label c) ls → steps ls w = Ok w' → ∃ e, trace w' = trace w ++ e.
Proof.
  intros Hls. revert w. induction Hls as [|l ls Hl _ IH]; intros w; simpl.
  - intros [= <-]. exists []. by rewrite app_nil_r.
  - intros (w1 & H1 & H2)%bind_Ok.
    destruct (step_trace_extends _ _ _ _ Hl H1) as [e1 He1].
    destruct (IH _ H2) as [e2 He2]. exists (e1 ++ e2).
    by rewrite He2, He1, app_assoc.
Qed.

Lemma wire_text_write k p :
  wire_text (write_frame (TextMessage p) k) = wire_text k ++ [p].
Proof. unfold wire_text. simpl. by rewrite omap_app. Qed.

(** One transition of such a run, seen from a member that is not dropped:
    what it has been written, then what its queue holds, then what the hub
    has still to process for it, is the same sequence as before, with the
    broadcast that was called, if one was, at its end. *)
Lemma step_fifo l w w1 c cl R :
  fifo_label c l → step l w = Ok w1 → member_ok c cl R w →
  EvFull c ∉ drop (length (trace w)) (trace w1) →
  ∃ cl1 chunks,
    member_ok c cl1 R w1 ∧
    Forall (λ ch, ch ≠ []) chunks ∧
    wire_text (conn cl1) = wire_text (conn cl) ++ map frame_of chunks ∧
    concat chunks ++ buf (send cl1) ++ pending c R w1
      = buf (send cl) ++ pending c R w ++ omap (for_member c R) (calls [l]).
Proof.
  destruct l as [[]|i|c0|conv m x|uid m|c0 m| |c0 inp|c0 [|[] []|]|d]; simpl;
    try done; intros Hl H Hok Hresp.
  - (* the loop processes a broadcast *)
    destruct (chan_recv (broadcast (hub w))) as [[[b|] ch]| |] eqn:Hrecv;
      simpl in H; try done.
    unfold chan_recv in Hrecv.
    destruct (buf (broadcast (hub w))) as [|b0 rest] eqn:Hbuf;
      [by destruct (closed (broadcast (hub w)))|].
    injection Hrecv as <- <-.
    set (w0 := set_broadcast _ w) in H.
    assert (member_ok c cl R w0) as Hok0 by (by destruct Hok).
    destruct (broadcastMessage_member _ _ _ _ _ _ H Hok0 Hresp)
      as (cl' & Hcl' & Heq & Hcap & Hopen' & Hbuf').
    pose proof (broadcastMessage_hub _ _ _ H) as Hhub.
    exists cl', []. destruct Hok as [Hcl Hopen Hconn Hmem Honly]. split_and!.
    + split; try done; rewrite ?Hhub; try done. by rewrite Heq.
    + done.
    + rewrite Heq. simpl. by rewrite app_nil_r.
    + unfold pending. rewrite Hhub, Hbuf, Hbuf'. simpl.
      rewrite app_nil_r, <- app_assoc. f_equal.
      by destruct (for_member c R b0).
  - (* a broadcast is called *)
    unfold BroadcastToConversation, chan_send in H.
    destruct (closed (broadcast (hub w))); [done|].
    destruct (chan_full (broadcast (hub w))); [done|]. simpl in H.
    injection H as <-. exists cl, []. destruct Hok. split_and!; try done.
    + simpl. by rewrite app_nil_r.
    + unfold pending. simpl. rewrite omap_app. simpl.
      by rewrite app_assoc.
  - (* the write pump of [c] takes what is queued and writes it *)
    subst c0. destruct Hok as [Hcl Hopen Hconn Hmem Honly].
    revert H. unfold WritePump_iter, deref. rewrite Hcl. simpl.
    unfold chan_recv. destruct (send cl) as [b n x] eqn:Hsend. simpl in *.
    subst x. destruct b as [|message rest]; [done|]. simpl.
    rewrite Hconn. simpl. unfold chan_len. simpl. rewrite drain_all. simpl.
    intros [= <-].
    eexists _, [message :: rest]. split_and!.
    + split; simpl; rewrite ?lookup_insert_eq; done.
    + by repeat constructor.
    + simpl. by rewrite wire_text_write.
    + simpl. rewrite !app_nil_r. done.
Qed.


(** ** The sweep *)

Lemma collect_stale_Ok t l w :
  (∀ c, c ∈ l → is_Some (heap w !! c)) →
  ∃ gs, collect_stale t l w = Ok gs ∧ ∀ c, c ∈ gs ↔ c ∈ l ∧ stale t w c.
Proof.
  induction l as [|c l IH]; intros Hl; simpl.
  - exists []. split; [done|]. intros c. rewrite !elem_of_nil. tauto.
  - destruct (Hl c) as [cl Hcl]; [by left|].
    destruct IH as (gs & -> & Hgs); [intros c' Hc'; apply Hl; by right|].
    unfold deref. rewrite Hcl. simpl. eexists. split; [done|].
    intros c'. case_decide as Hd.
    + rewrite !elem_of_cons, Hgs. split.
      * intros [-> | [? ?]]; [|tauto]. split; [by left|]. by exists cl.
      * intros [[-> | ?] ?]; [by left | right; tauto].
    + rewrite elem_of_cons, Hgs. split; [tauto|].
      intros [[-> | ?] Hs]; [|tauto].
      destruct Hs as (cl' & Hcl' & Hlt). rewrite Hcl in Hcl'.
      injection Hcl' as <-. done.
Qed.

Lemma foldl_go_unregister l w :
  heap (foldl (λ w' c, go_unregister c w') w l) = heap w ∧
  hub (foldl (λ w' c, go_unregister c w') w l) = hub w ∧
  goroutines (foldl (λ w' c, go_unregister c w') w l) = goroutines w ++ l.
Proof.
  revert w. induction l as [|c l IH]; intros w; simpl.
  - by rewrite app_nil_r.
  - destruct (IH (go_unregister c w)) as (-> & -> & ->). simpl.
    by rewrite <- app_assoc.
Qed.

(** X1. A sweep of a hub whose registered clients are objects returns; it
    leaves the objects and the hub, and with it both tables, as they were,
    and the goroutines it starts to unregister are for the registered
    clients whose last activity is more than five minutes old, and for no
    other client. *)
Theorem sweep_starts_unregister_for_stale_clients w :
  (∀ u c, member (clients (hub w)) u c → is_Some (heap w !! c)) →
  ∃ w' gs, cleanupStaleConnections w = Ok w' ∧
    heap w' = heap w ∧ hub w' = hub w ∧
    goroutines w' = goroutines w ++ gs ∧
    ∀ c, c ∈ gs ↔ (∃ u, member (clients (hub w)) u c) ∧ stale (now w) w c.
Proof.
  intros Hobj. unfold cleanupStaleConnections.
  destruct (collect_stale_Ok (now w) (all_clients w) w) as (gs & -> & Hgs).
  { intros c (u & Hu)%elem_of_all_clients. by apply (Hobj u). }
  simpl. destruct (foldl_go_unregister gs w) as (Hh & Hb & Hg).
  eexists _, gs. split; [done|]. split; [done|]. split; [done|].
  split; [done|]. intros c. by rewrite Hgs, elem_of_all_clients.
Qed.

(** ** The order of a [range] *)

(** X2. Go does not specify the order in which [range] visits the members
    of a room. Whatever the order, the delivery loop of a broadcast that
    returns in one order returns in every other, with the same queues, the
    same hub, and goroutines started for the same clients. *)
Theorem broadcast_range_order_irrelevant data x l1 l2 w w1 :
  l1 ≡ₚ l2 → NoDup l1 →
  for_range (broadcast_one data x) l1 w = Ok w1 →
  ∃ w2, for_range (broadcast_one data x) l2 w = Ok w2 ∧
    heap w2 = heap w1 ∧ hub w2 = hub w1 ∧
    ∀ c, c ∈ drop (length (goroutines w)) (goroutines w2) ↔
         c ∈ drop (length (goroutines w)) (goroutines w1).
Proof. exact (delivery_order_irrelevant true data x l1 l2 w w1). Qed.

(** * Properties of the rest of the package *)

Local Abbreviation GetStats := (@GetStats Message).
Local Abbreviation Client_BroadcastToConversation :=
  (Client_BroadcastToConversation ofWS).
Local Abbreviation BroadcastToConversationExceptSelf :=
  (BroadcastToConversationExceptSelf ofWS).
Local Abbreviation BroadcastToConversation := (@BroadcastToConversation Message).
Local Abbreviation WritePump := (@WritePump Message).
Local Abbreviation WritePump_iter := (@WritePump_iter Message).

(** ** The queries of the hub *)

(** The set a table holds for a key, empty when it has no entry. *)
Lemma member_default (t : gmap UUID (gset ptr)) k c :
  member t k c ↔ c ∈ default ∅ (t !! k).
Proof.
  unfold member. destruct (t !! k) as [s|]; simpl.
  - split; [by intros (s' & [= <-] & ?)|]. intros ?. by exists s.
  - split; [by intros (? & ? & ?)|]. set_solver.
Qed.

Lemma elem_of_GetUserClients u c w :
  c ∈ GetUserClients u w ↔ member (clients (hub w)) u c.
Proof.
  rewrite member_default. unfold GetUserClients.
  destruct (clients (hub w) !! u); simpl; [apply elem_of_elements|set_solver].
Qed.

Lemma elem_of_GetConversationClients r c w :
  c ∈ GetConversationClients r w ↔ member (conversations (hub w)) r c.
Proof.
  rewrite member_default. unfold GetConversationClients.
  destruct (conversations (hub w) !! r); simpl;
    [apply elem_of_elements|set_solver].
Qed.

Lemma GetConversationClientCount_size r w :
  GetConversationClientCount r w
  = size (default ∅ (conversations (hub w) !! r)).
Proof.
  unfold GetConversationClientCount.
  destruct (conversations (hub w) !! r); [done|].
  exact (eq_sym (size_empty (C := gset ptr))).
Qed.

Lemma IsUserConnected_true u w :
  IsUserConnected u w = true ↔ ∃ c, member (clients (hub w)) u c.
Proof.
  unfold IsUserConnected, member.
  destruct (clients (hub w) !! u) as [s|]; simpl.
  - rewrite bool_decide_eq_true. split.
    + intros Hs. destruct (set_choose_L s) as [c Hc].
      * intros ->. rewrite size_empty in Hs. lia.
      * exists c, s. done.
    + intros (c & s' & [= <-] & Hc).
      assert (size s ≠ 0)%nat; [|lia]. intros ?%size_empty_inv. set_solver.
  - split; [done|]. by intros (? & ? & ? & ?).
Qed.

Lemma size_remove (s : gset ptr) c :
  size (s ∖ {[c]}) = (size s - if bool_decide (c ∈ s) then 1 else 0)%nat.
Proof.
  case_bool_decide as Hc.
  - rewrite size_difference by set_solver. by rewrite size_singleton.
  - replace (s ∖ {[c]}) with s by set_solver. lia.
Qed.

Lemma size_add (s : gset ptr) c :
  size ({[c]} ∪ s) = (size s + if bool_decide (c ∈ s) then 0 else 1)%nat.
Proof.
  case_bool_decide as Hc.
  - replace ({[c]} ∪ s) with s by set_solver. lia.
  - rewrite size_union by set_solver. rewrite size_singleton. lia.
Qed.

Lemma lookup_table_add t k c k' :
  default ∅ (table_add k c t !! k')
  = if decide (k' = k) then {[c]} ∪ default ∅ (t !! k) else default ∅ (t !! k').
Proof.
  unfold table_add. case_decide as Hk.
  - subst. by rewrite lookup_insert_eq.
  - by rewrite lookup_insert_ne.
Qed.

(** X3. Once [registerClient] has run for a client, the queries report it:
    its identity is connected, it is among the connections of its identity
    and, when it has a room, among those of its room, whose count has grown
    by one unless the client was in it already. The connections reported
    for another identity or another room are as before, and a client
    without a room changes no room. *)
Theorem registered_client_is_reported c w w' cl :
  heap w !! c = Some cl →
  registerClient c w = Ok w' →
  IsUserConnected (userID cl) w' = true ∧
  c ∈ GetUserClients (userID cl) w' ∧
  (conversationID cl ≠ uuid_Nil →
   c ∈ GetConversationClients (conversationID cl) w' ∧
   GetConversationClientCount (conversationID cl) w'
   = (GetConversationClientCount (conversationID cl) w
      + if bool_decide (c ∈ GetConversationClients (conversationID cl) w)
        then 0 else 1)%nat) ∧
  (conversationID cl = uuid_Nil →
   ∀ r, GetConversationClients r w' = GetConversationClients r w) ∧
  (∀ u, u ≠ userID cl → GetUserClients u w' = GetUserClients u w) ∧
  (∀ r, r ≠ conversationID cl →
        GetConversationClients r w' = GetConversationClients r w).
Proof.
  intros Hcl (cl' & Hcl' & ->)%registerClient_Ok.
  rewrite Hcl in Hcl'. injection Hcl' as <-.
  assert (member (table_add (userID cl) c (clients (hub w))) (userID cl) c)
    as Hm by (apply member_table_add; by left).
  split; [apply IsUserConnected_true; by exists c|].
  split; [by apply elem_of_GetUserClients|].
  split; [|split; [|split]].
  - intros Hr. rewrite decide_True by done. split.
    + apply elem_of_GetConversationClients. simpl.
      apply member_table_add. by left.
    + rewrite !GetConversationClientCount_size. simpl.
      rewrite lookup_table_add, decide_True by done. rewrite size_add.
      assert (c ∈ default ∅ (conversations (hub w) !! conversationID cl)
              ↔ c ∈ GetConversationClients (conversationID cl) w) as Hiff
        by (by rewrite elem_of_GetConversationClients, member_default).
      f_equal. repeat case_bool_decide; try done; tauto.
  - intros Hr r. unfold GetConversationClients. simpl.
    by rewrite decide_False by (intros ?; done).
  - intros u Hu. unfold GetUserClients, table_add. simpl.
    by rewrite lookup_insert_ne.
  - intros r Hr. unfold GetConversationClients. simpl.
    case_decide; [|done]. unfold table_add. by rewrite lookup_insert_ne.
Qed.

Lemma unregisterClient_sets c w w' cl :
  tables_inv w → heap w !! c = Some cl → unregisterClient c w = Ok w' →
  (∀ u, default ∅ (clients (hub w') !! u)
        = default ∅ (clients (hub w) !! u) ∖ {[c]}) ∧
  (∀ r, default ∅ (conversations (hub w') !! r)
        = default ∅ (conversations (hub w) !! r) ∖ {[c]}).
Proof.
  intros Hinv Hcl Hun.
  destruct (unregisterClient_Ok _ _ _ Hun) as (cl' & Hcl' & Hcs & Hcv & _).
  rewrite Hcl in Hcl'. injection Hcl' as <-. split.
  - intros u. apply set_eq. intros x.
    rewrite elem_of_difference, <- !member_default, Hcs, elem_of_singleton.
    split; [|intros [? ?]; split; [done|]; by intros [_ ?]].
    intros [Hm Hne]. split; [done|]. intros ->. apply Hne. split; [|done].
    destruct (inv_identity _ Hinv u c Hm) as (cl' & Hcl' & <-).
    rewrite Hcl in Hcl'. by injection Hcl' as <-.
  - intros r. apply set_eq. intros x.
    rewrite elem_of_difference, <- !member_default, Hcv, elem_of_singleton.
    split; [|intros [? ?]; split; [done|]; by intros (_ & ? & _)].
    intros [Hm Hne]. split; [done|]. intros ->. apply Hne.
    destruct (inv_room _ Hinv r c Hm) as (cl' & Hcl' & <- & Hnil & _).
    rewrite Hcl in Hcl'. by injection Hcl' as <-.
Qed.

(** X4. Once [unregisterClient] has run for a client of a well-formed
    hub, no query reports it: the connections of every identity and the
    members of every room are those of before without the client, the count
    of its room is one less when it was a member, and its identity is still
    connected exactly when it has another connection. *)
Theorem unregistered_client_is_not_reported c w w' cl :
  tables_inv w → heap w !! c = Some cl → unregisterClient c w = Ok w' →
  (∀ u c', c' ∈ GetUserClients u w' ↔ c' ∈ GetUserClients u w ∧ c' ≠ c) ∧
  (∀ r c', c' ∈ GetConversationClients r w' ↔
           c' ∈ GetConversationClients r w ∧ c' ≠ c) ∧
  (∀ u, IsUserConnected u w' = true ↔
        ∃ c', c' ≠ c ∧ c' ∈ GetUserClients u w) ∧
  (∀ r, GetConversationClientCount r w'
        = (GetConversationClientCount r w
           - if bool_decide (c ∈ GetConversationClients r w) then 1 else 0)%nat).
Proof.
  intros Hinv Hcl Hun.
  destruct (unregisterClient_sets _ _ _ _ Hinv Hcl Hun) as [Hcs Hcv].
  assert (∀ u c', c' ∈ GetUserClients u w' ↔ c' ∈ GetUserClients u w ∧ c' ≠ c)
    as Hu.
  { intros u c'. rewrite !elem_of_GetUserClients, !member_default, Hcs.
    rewrite elem_of_difference, elem_of_singleton. done. }
  split; [exact Hu|]. split; [|split].
  - intros r c'. rewrite !elem_of_GetConversationClients, !member_default, Hcv.
    rewrite elem_of_difference, elem_of_singleton. done.
  - intros u. rewrite IsUserConnected_true. split.
    + intros [c' Hc']. exists c'. apply elem_of_GetUserClients, Hu in Hc'. tauto.
    + intros (c' & Hne & Hc'). exists c'. apply elem_of_GetUserClients, Hu. done.
  - intros r. rewrite !GetConversationClientCount_size, Hcv, size_remove.
    f_equal.
    assert (c ∈ default ∅ (conversations (hub w) !! r)
            ↔ c ∈ GetConversationClients r w) as Hiff
      by (by rewrite elem_of_GetConversationClients, member_default).
    repeat case_bool_decide; try done; tauto.
Qed.

(** ** The statistics *)

Lemma foldl_count (l : list (UUID * gset ptr)) (n : nat) :
  foldl (λ totalClients kv, (totalClients + size (snd kv))%nat) n l
  = (n + length (concat (map (λ kv, elements (snd kv)) l)))%nat.
Proof.
  revert n. induction l as [|kv l IH]; intros n; simpl; [lia|].
  rewrite IH, length_app. unfold size, set_size. simpl. lia.
Qed.

Lemma count_clients_all (w : World) :
  count_clients (clients (hub w)) = length (all_clients w).
Proof. unfold count_clients, all_clients. by rewrite foldl_count. Qed.

Lemma tables_inv_NoDup w : tables_inv w → NoDup (all_clients w).
Proof.
  intros Hinv. apply NoDup_concat_elements; [apply NoDup_fst_map_to_list|].
  intros k1 s1 k2 s2 c H1%elem_of_map_to_list H2%elem_of_map_to_list Hc1 Hc2.
  destruct (inv_identity _ Hinv k1 c) as (cl1 & Hcl1 & <-); [by exists s1|].
  destruct (inv_identity _ Hinv k2 c) as (cl2 & Hcl2 & <-); [by exists s2|].
  rewrite Hcl1 in Hcl2. by injection Hcl2 as <-.
Qed.

Lemma length_concat_elements (l : list (UUID * gset ptr)) :
  Forall (λ kv, snd kv ≠ ∅) l →
  (length l ≤ length (concat (map (λ kv, elements (snd kv)) l)))%nat.
Proof.
  induction 1 as [|kv l Hkv _ IH]; simpl; [lia|].
  rewrite length_app.
  assert (length (elements (snd kv)) ≠ 0)%nat; [|lia].
  intros Hz. apply Hkv. apply size_empty_inv in Hz. by apply leibniz_equiv.
Qed.

(** A member of each set, for a list of non-empty sets. *)
Lemma head_elements (s : gset ptr) :
  s ≠ ∅ → ∃ c, head (elements s) = Some c ∧ c ∈ s.
Proof.
  intros Hs. destruct (elements s) as [|c l] eqn:He.
  - apply elements_empty_inv in He. destruct Hs. by apply leibniz_equiv.
  - exists c. split; [done|]. apply elem_of_elements. rewrite He. by left.
Qed.

Lemma rooms_le_clients w :
  tables_inv w → (size (conversations (hub w)) ≤ length (all_clients w))%nat.
Proof.
  intros Hinv.
  pose (rep := λ kv : UUID * gset ptr, default 1%positive (head (elements (snd kv)))).
  assert (∀ r s, (r, s) ∈ map_to_list (conversations (hub w)) →
                 member (conversations (hub w)) r (rep (r, s))) as Hrep.
  { intros r s Hin%elem_of_map_to_list.
    destruct (head_elements s) as (c & Hc & Hin');
      [by apply (inv_conversations_no_empty _ Hinv r)|].
    exists s. split; [done|]. unfold rep. simpl. by rewrite Hc. }
  rewrite <- length_map_to_list,
    <- (length_fmap rep (map_to_list (conversations (hub w)))).
  apply submseteq_length, NoDup_submseteq.
  - apply NoDup_fmap_2_strong; [|apply NoDup_map_to_list].
    intros [r1 s1] [r2 s2] H1 H2 Heq.
    pose proof (Hrep _ _ H1) as Hm1. pose proof (Hrep _ _ H2) as Hm2.
    rewrite Heq in Hm1.
    destruct (inv_room _ Hinv _ _ Hm1) as (cl1 & Hcl1 & <- & _).
    destruct (inv_room _ Hinv _ _ Hm2) as (cl2 & Hcl2 & <- & _).
    rewrite Hcl1 in Hcl2. injection Hcl2 as <-.
    apply elem_of_map_to_list in H1, H2. rewrite H1 in H2. by injection H2 as <-.
  - intros c ([r s] & -> & Hin)%list_elem_of_fmap.
    destruct (inv_room _ Hinv _ _ (Hrep _ _ Hin)) as (cl & _ & _ & _ & Hm).
    apply elem_of_all_clients. by exists (userID cl).
Qed.

(** X5. On a well-formed hub, and so in every state that registrations
    and unregistrations reach, the statistics count each registered
    connection once, and neither the number of identities nor the number of
    rooms they report exceeds the number of connections. After [cleanup]
    they report no connection, no identity and no room. *)
Theorem statistics_are_consistent w :
  tables_inv w →
  (NoDup (all_clients w) ∧
   (∀ c, c ∈ all_clients w ↔ ∃ u, c ∈ GetUserClients u w) ∧
   total_clients (GetStats w) = length (all_clients w)) ∧
  (unique_users (GetStats w) ≤ total_clients (GetStats w))%nat ∧
  (active_conversations (GetStats w) ≤ total_clients (GetStats w))%nat ∧
  (∀ w', cleanup w = Ok w' → GetStats w' = mkStats 0 0 0 (now w')).
Proof.
  intros Hinv. simpl. rewrite count_clients_all. split; [|split; [|split]].
  - split; [by apply tables_inv_NoDup|]. split; [|done].
    intros c. rewrite elem_of_all_clients.
    by setoid_rewrite elem_of_GetUserClients.
  - rewrite <- length_map_to_list. unfold all_clients.
    apply length_concat_elements, Forall_forall. intros [u s] Hin.
    apply elem_of_map_to_list in Hin.
    by apply (inv_clients_no_empty _ Hinv u).
  - by apply rooms_le_clients.
  - intros w' Hc. destruct (cleanup_twice _ _ Hc) as [Ht _].
    unfold tables in Ht. injection Ht as Hcs Hcv.
    unfold GetStats. rewrite Hcs, Hcv. done.
Qed.

(** ** What can panic *)

Lemma safe_Ok {A} (a : A) : safe (Ok a).
Proof. by intros msg. Qed.

Lemma safe_Blocked {A} : safe (@Blocked A).
Proof. by intros msg. Qed.

Lemma safe_bind {A B} (m : res A) (f : A → res B) :
  safe m → (∀ a, m = Ok a → safe (f a)) → safe (m ≫= f).
Proof.
  intros Hm Hf. destruct m as [a|msg|]; simpl.
  - by apply Hf.
  - by destruct (Hm msg).
  - apply safe_Blocked.
Qed.

Lemma safe_deref w c : is_Some (heap w !! c) → safe (deref w c).
Proof. intros [cl Hcl]. unfold deref. rewrite Hcl. apply safe_Ok. Qed.

Lemma keeps_queues_refl w : keeps_queues w w.
Proof. intros c cl ?. by exists cl. Qed.

Lemma keeps_queues_trans w1 w2 w3 :
  keeps_queues w1 w2 → keeps_queues w2 w3 → keeps_queues w1 w3.
Proof.
  intros H1 H2 c cl Hcl. destruct (H1 c cl Hcl) as (cl1 & Hcl1 & ? & ? & ?).
  destruct (H2 c cl1 Hcl1) as (cl2 & Hcl2 & ? & ? & ?).
  exists cl2. split_and!; congruence.
Qed.

Lemma keeps_queues_heap (w w' : World) : heap w' = heap w → keeps_queues w w'.
Proof. intros Hh c cl Hcl. exists cl. by rewrite Hh. Qed.

Lemma keeps_queues_store c cl cl' (w : World) :
  heap w !! c = Some cl →
  userID cl' = userID cl → conversationID cl' = conversationID cl →
  closed (send cl') = closed (send cl) →
  keeps_queues w (store c cl' w).
Proof.
  intros Hcl Hu Hr Hq c0 cl0 Hcl0. simpl. destruct (decide (c0 = c)) as [->|Hne].
  - rewrite lookup_insert_eq. rewrite Hcl in Hcl0. injection Hcl0 as <-.
    by exists cl'.
  - rewrite lookup_insert_ne by done. by exists cl0.
Qed.

Lemma keeps_queues_is_Some w w' c :
  keeps_queues w w' → is_Some (heap w !! c) → is_Some (heap w' !! c).
Proof. intros Hk [cl Hcl]. destruct (Hk c cl Hcl) as (cl' & -> & _). done. Qed.

Lemma tables_inv_frame w w' :
  tables_inv w → keeps_queues w w' → tables w' = tables w → tables_inv w'.
Proof.
  intros [H1 H2 H3 H4] Hk [= Hcs Hcv]. split; rewrite ?Hcs, ?Hcv; try done.
  - intros u c Hm. destruct (H3 u c Hm) as (cl & Hcl & <-).
    destruct (Hk c cl Hcl) as (cl' & Hcl' & ? & _). by exists cl'.
  - intros r c Hm. destruct (H4 r c Hm) as (cl & Hcl & <- & Hnil & Hm').
    destruct (Hk c cl Hcl) as (cl' & Hcl' & Hu & Hr & _). exists cl'.
    rewrite Hu, Hr. done.
Qed.

Lemma registered_open_frame w w' :
  registered_open w → keeps_queues w w' → tables w' = tables w →
  registered_open w'.
Proof.
  intros Ho Hk [= Hcs Hcv] u c Hm. rewrite Hcs in Hm.
  destruct (Ho u c Hm) as (cl & Hcl & <- & Hopen).
  destruct (Hk c cl Hcl) as (cl' & Hcl' & ? & _ & Hq). exists cl'.
  split_and!; congruence.
Qed.

(** The invariant looks at the tables, at what the channels of the hub
    hold, at the goroutines, and at the identity, the room and the queue of
    each client. *)
Lemma hub_inv_frame hp pend pend' w w' :
  hub_inv hp pend w → keeps_queues w w' → tables w' = tables w →
  closed (register (hub w')) = false →
  closed (unregister (hub w')) = false →
  closed (broadcast (hub w')) = false →
  buf (register (hub w')) ++ pend' = buf (register (hub w)) ++ pend →
  (∀ c, c ∈ buf (unregister (hub w')) →
        c ∈ buf (unregister (hub w)) ∨ is_Some (heap w !! c)) →
  (∀ c, c ∈ goroutines w' → c ∈ goroutines w ∨ is_Some (heap w !! c)) →
  hub_inv hp pend' w'.
Proof.
  intros [] Hk Ht Hr Hu Hb Hpend Hsub Hgo.
  pose proof Ht as [= Hcs Hcv]. split; try done.
  - by eapply tables_inv_frame.
  - by eapply registered_open_frame.
  - intros c Hc. eapply keeps_queues_is_Some; [done|]. auto.
  - by rewrite Hpend.
  - intros c Hc. rewrite Hpend in Hc. destruct (hi_pending0 c Hc) as [(cl & Hcl & Ho) Hm].
    split; [|by rewrite Hcs].
    destruct (Hk c cl Hcl) as (cl' & Hcl' & _ & _ & Hq). exists cl'.
    split; congruence.
  - intros c Hc. eapply keeps_queues_is_Some; [done|].
    destruct (Hsub c Hc); auto.
  - intros c Hc. eapply keeps_queues_is_Some; [done|].
    destruct (Hgo c Hc); auto.
Qed.

Lemma hub_inv_quiet hp pend w w' :
  hub_inv hp pend w → keeps_queues w w' → hub w' = hub w →
  goroutines w' = goroutines w → hub_inv hp pend w'.
Proof.
  intros Hinv Hk Hh Hg. pose proof Hinv as [].
  eapply hub_inv_frame; try done; rewrite ?Hh, ?Hg; try done; auto.
  unfold tables. by rewrite Hh.
Qed.

Lemma safe_chan_recv {A} (ch : chan A) : safe (chan_recv ch).
Proof.
  unfold chan_recv. destruct (buf ch); [|apply safe_Ok].
  destruct (closed ch); [apply safe_Ok|apply safe_Blocked].
Qed.

Lemma chan_recv_open {A} (ch ch' : chan A) r :
  closed ch = false → chan_recv ch = Ok (r, ch') →
  ∃ x, r = Some x ∧ buf ch = x :: buf ch' ∧ closed ch' = false ∧ cap ch' = cap ch.
Proof.
  unfold chan_recv. intros Hopen. destruct (buf ch) as [|x rest] eqn:Hb.
  - by rewrite Hopen.
  - intros [= <- <-]. by exists x.
Qed.

Lemma chan_recv_closed {A} (ch ch' : chan A) r :
  chan_recv ch = Ok (r, ch') → closed ch' = closed ch.
Proof.
  unfold chan_recv. destruct (buf ch) as [|x rest].
  - destruct (closed ch) eqn:Hc; [|done]. intros [= _ <-]. by rewrite Hc.
  - by intros [= _ <-].
Qed.

Lemma safe_chan_send {A} (a : A) (ch : chan A) :
  closed ch = false → safe (chan_send a ch).
Proof.
  unfold chan_send. intros ->. destruct (chan_full ch);
    [apply safe_Blocked|apply safe_Ok].
Qed.

Lemma chan_send_Ok {A} (a : A) (ch ch' : chan A) :
  chan_send a ch = Ok ch' → closed ch = false ∧ ch' = enqueue a ch.
Proof.
  unfold chan_send. destruct (closed ch); [done|].
  destruct (chan_full ch); [done|]. by intros [= <-].
Qed.

(** [unregisterClient] assigns to the tables and to the queue of the
    client, and to nothing else. *)
Lemma unregisterClient_channels c w w' :
  unregisterClient c w = Ok w' →
  register (hub w') = register (hub w) ∧
  unregister (hub w') = unregister (hub w) ∧
  broadcast (hub w') = broadcast (hub w) ∧
  hub_ctx (hub w') = hub_ctx (hub w) ∧
  goroutines w' = goroutines w ∧ now w' = now w.
Proof. unfold unregisterClient. intros H. res_inv; done. Qed.

Lemma unregisterClient_hub_inv hp pend w c :
  hub_inv hp pend w → is_Some (heap w !! c) →
  ∃ w', unregisterClient c w = Ok w' ∧ hub_inv hp pend w'.
Proof.
  intros Hinv [cl Hcl]. pose proof Hinv as [].
  destruct (unregisterClient_returns c w cl Hcl) as [w' Hun].
  { intros Hm. by destruct (hi_open0 _ _ Hm) as (cl' & Hcl' & _ & ?);
      rewrite Hcl in Hcl'; injection Hcl' as <-. }
  exists w'. split; [done|].
  destruct (unregisterClient_Ok _ _ _ Hun) as (cl' & Hcl' & Hcs & Hcv & _ & _ & Hids).
  rewrite Hcl in Hcl'. injection Hcl' as <-.
  destruct (unregisterClient_channels _ _ _ Hun) as (Hr & Hu & Hb & _ & Hg & _).
  assert (∀ x, is_Some (heap w !! x) → is_Some (heap w' !! x)) as Hdom.
  { intros x [clx Hclx]. destruct (Hids x clx Hclx) as (? & -> & _). done. }
  assert (∀ x, (x ≠ c ∨ ¬ member (clients (hub w)) (userID cl) c) →
               heap w' !! x = heap w !! x) as Hsame.
  { intros x Hx.
    destruct (unregisterClient_heap _ _ _ _ Hcl Hun) as [[_ ->]|(Hm & _ & ->)];
      [done|].
    destruct Hx as [Hne|Hnm]; [by rewrite lookup_insert_ne|done]. }
  split; rewrite ?Hr, ?Hu, ?Hb, ?Hg; try done.
  - by eapply unregisterClient_inv.
  - intros u x Hm. apply Hcs in Hm as [Hm Hne].
    destruct (hi_open0 u x Hm) as (clx & Hclx & Hux & Hox).
    exists clx. split; [|done]. rewrite Hsame; [done|]. left. intros ->.
    apply Hne. rewrite Hcl in Hclx. by injection Hclx as <-.
  - auto.
  - intros x Hx. destruct (hi_pending0 x Hx) as [(clx & Hclx & Hox) Hnm].
    split; [|intros u Hm; apply Hcs in Hm as [Hm _]; by apply (Hnm u)].
    exists clx. split; [|done]. rewrite Hsame; [done|].
    destruct (decide (x = c)) as [->|]; [right; apply Hnm|by left].
  - auto.
  - auto.
Qed.

(** *** Calls that keep the hub and the queues *)

Lemma quiet_refl w : quiet w w.
Proof. split_and!; try done. apply keeps_queues_refl. Qed.

Lemma quiet_trans w1 w2 w3 : quiet w1 w2 → quiet w2 w3 → quiet w1 w3.
Proof.
  intros (? & ? & ?) (? & ? & ?). split_and!; try congruence.
  by eapply keeps_queues_trans.
Qed.

Lemma quiet_emit e w w0 : quiet w w0 → quiet w (emit e w0).
Proof. intros (? & ? & ?). by split_and!. Qed.

Lemma quiet_set_now t w w0 : quiet w w0 → quiet w (set_now t w0).
Proof. intros (? & ? & ?). by split_and!. Qed.

Lemma quiet_wait d w w0 : quiet w w0 → quiet w (wait d w0).
Proof. intros (? & ? & ?). by split_and!. Qed.

Lemma quiet_store c cl cl' w w0 :
  quiet w w0 → heap w0 !! c = Some cl →
  userID cl' = userID cl → conversationID cl' = conversationID cl →
  closed (send cl') = closed (send cl) →
  quiet w (store c cl' w0).
Proof.
  intros (? & ? & Hk) Hcl ? ? ?. split_and!; try done.
  eapply keeps_queues_trans; [exact Hk|]. by eapply keeps_queues_store.
Qed.

Lemma quiet_is_Some w w' c :
  quiet w w' → is_Some (heap w !! c) → is_Some (heap w' !! c).
Proof. intros (_ & _ & Hk). by apply keeps_queues_is_Some. Qed.

Lemma quiet_open w w' c cl :
  quiet w w' → heap w !! c = Some cl →
  ∃ cl', heap w' !! c = Some cl' ∧ closed (send cl') = closed (send cl).
Proof.
  intros (_ & _ & Hk) Hcl. destruct (Hk c cl Hcl) as (cl' & ? & _ & _ & ?).
  by exists cl'.
Qed.

(** Solves [quiet w w'] for a world [w'] built from [w] by assignments to
    fields of clients other than the identity, the room and the queue. *)
Ltac quiet_tac :=
  repeat first
    [ apply quiet_refl
    | apply quiet_emit
    | apply quiet_set_now
    | apply quiet_wait
    | eapply quiet_store; [| eassumption | done | done | done ] ].

Lemma updateActivity_quiet c w w' : updateActivity c w = Ok w' → quiet w w'.
Proof.
  unfold updateActivity. intros (cl & Hcl%deref_Ok & [= <-])%bind_Ok. quiet_tac.
Qed.

Lemma await_quiet t c w b w' : await t c w = Ok (b, w') → quiet w w'.
Proof. unfold await. intros H. res_inv; quiet_tac. Qed.

Lemma on_pong_quiet c w w' : on_pong c w = Ok w' → quiet w w'.
Proof.
  unfold on_pong. intros (cl & Hcl%deref_Ok & H)%bind_Ok.
  destruct (pongHandler (conn cl)); [|injection H as <-; apply quiet_refl].
  apply updateActivity_quiet in H. eapply quiet_trans; [|exact H]. quiet_tac.
Qed.

Lemma read_pongs_quiet ps c w b w' : read_pongs ps c w = Ok (b, w') → quiet w w'.
Proof.
  revert w. induction ps as [|t ps IH]; intros w; simpl.
  - intros [= _ <-]. apply quiet_refl.
  - intros H. res_inv.
    + eapply quiet_trans; [by eapply await_quiet|].
      eapply quiet_trans; [by eapply on_pong_quiet|by apply IH].
    + by eapply await_quiet.
Qed.

Lemma ReadMessage_quiet inp c w r w' :
  ReadMessage inp c w = Ok (r, w') → quiet w w'.
Proof.
  unfold ReadMessage. intros H. res_inv;
    try apply quiet_refl;
    repeat match goal with
    | H : read_pongs _ _ _ = Ok _ |- _ => apply read_pongs_quiet in H
    | H : await _ _ _ = Ok _ |- _ => apply await_quiet in H
    end;
    try done; try (apply quiet_set_now; done); by eapply quiet_trans.
Qed.

Lemma safe_updateActivity c w : is_Some (heap w !! c) → safe (updateActivity c w).
Proof.
  intros [cl Hcl]. unfold updateActivity, deref. rewrite Hcl. apply safe_Ok.
Qed.

Lemma safe_await t c w : is_Some (heap w !! c) → safe (await t c w).
Proof.
  intros [cl Hcl]. unfold await, deref. rewrite Hcl. simpl.
  destruct (readDeadline (conn cl)); [case_decide|]; apply safe_Ok.
Qed.

Lemma safe_on_pong c w : is_Some (heap w !! c) → safe (on_pong c w).
Proof.
  intros [cl Hcl]. unfold on_pong, deref. rewrite Hcl. simpl.
  destruct (pongHandler (conn cl)); [|apply safe_Ok].
  apply safe_updateActivity. simpl. by rewrite lookup_insert_eq.
Qed.

Lemma safe_read_pongs ps c w : is_Some (heap w !! c) → safe (read_pongs ps c w).
Proof.
  revert w. induction ps as [|t ps IH]; intros w Hc; simpl; [apply safe_Ok|].
  apply safe_bind; [by apply safe_await|]. intros [alive w1] H1.
  pose proof (quiet_is_Some _ _ c (await_quiet _ _ _ _ _ H1) Hc) as Hc1.
  destruct alive; [|apply safe_Ok].
  apply safe_bind; [by apply safe_on_pong|]. intros w2 H2.
  apply IH. by eapply quiet_is_Some; [eapply on_pong_quiet|].
Qed.

Lemma safe_ReadMessage inp c w : is_Some (heap w !! c) → safe (ReadMessage inp c w).
Proof.
  intros Hc. unfold ReadMessage.
  apply safe_bind; [by apply safe_deref|]. intros cl _.
  destruct (conn_closed (conn cl)); [apply safe_Ok|].
  apply safe_bind; [by apply safe_read_pongs|]. intros [alive w1] H1.
  pose proof (quiet_is_Some _ _ c (read_pongs_quiet _ _ _ _ _ H1) Hc) as Hc1.
  destruct alive; [|apply safe_Ok].
  apply safe_bind; [by apply safe_deref|]. intros cl1 _.
  destruct (outcome inp).
  - apply safe_bind; [by apply safe_await|]. intros [alive' w2] _.
    destruct alive'; [case_decide|]; apply safe_Ok.
  - apply safe_bind; [by apply safe_await|]. intros [? w2] _. apply safe_Ok.
  - destruct (readDeadline (conn cl1)); [apply safe_Ok|apply safe_Blocked].
Qed.

(** A read gives a payload only when a frame arrived. *)
Lemma ReadMessage_payload inp c w payload w' :
  ReadMessage inp c w = Ok (Some payload, w') → outcome inp = GotFrame payload.
Proof.
  unfold ReadMessage. intros H. res_inv; try done.
Qed.

Lemma SendMessage_quiet tie c m w e w' :
  SendMessage tie c m w = Ok (e, w') → quiet w w'.
Proof.
  unfold SendMessage. intros H. res_inv; try quiet_tac.
  match goal with H : chan_send _ _ = Ok _ |- _ =>
    apply chan_send_Ok in H as [Hopen ->] end.
  match goal with H : deref _ _ = Ok _ |- _ => apply deref_Ok in H end.
  quiet_tac.
Qed.

(** A send to a client whose queue is open does not panic. *)
Lemma safe_SendMessage tie c m w cl :
  heap w !! c = Some cl → closed (send cl) = false →
  safe (SendMessage tie c m w).
Proof.
  intros Hcl Hopen. unfold SendMessage, deref. simpl.
  destruct (marshal (ofWS m)); [|apply safe_Ok]. rewrite Hcl. simpl.
  destruct ((closed (send cl) || negb (chan_full (send cl))) &&
            negb (ctx cl && tie)).
  - apply safe_bind; [by apply safe_chan_send|]. intros ? _. apply safe_Ok.
  - destruct (ctx cl); apply safe_Ok.
Qed.

Lemma SendError_quiet tie c msg w w' : SendError tie c msg w = Ok w' → quiet w w'.
Proof.
  unfold SendError. intros H. res_inv. by eapply SendMessage_quiet.
Qed.

Lemma safe_SendError tie c msg w cl :
  heap w !! c = Some cl → closed (send cl) = false →
  safe (SendError tie c msg w).
Proof.
  intros Hcl Hopen. unfold SendError, deref. rewrite Hcl. simpl.
  apply safe_bind; [by eapply safe_SendMessage|]. intros [? ?] _. apply safe_Ok.
Qed.

Lemma handleIncomingMessage_quiet tie c msg w e w' :
  handleIncomingMessage tie c msg w = Ok (e, w') → quiet w w'.
Proof.
  unfold handleIncomingMessage. intros H. res_inv; try apply quiet_refl.
  by eapply SendMessage_quiet.
Qed.

Lemma safe_handleIncomingMessage tie c msg w cl :
  heap w !! c = Some cl → closed (send cl) = false →
  safe (handleIncomingMessage tie c msg w).
Proof.
  intros Hcl Hopen. unfold handleIncomingMessage, deref. rewrite Hcl. simpl.
  repeat case_match; try apply safe_Ok. by eapply safe_SendMessage.
Qed.

Lemma ReadPump_iter_quiet inp c w st w' :
  ReadPump_iter inp c w = Ok (st, w') → quiet w w'.
Proof.
  unfold ReadPump_iter. intros H. res_inv; try apply quiet_refl;
    repeat match goal with
    | H : ReadMessage _ _ _ = Ok _ |- _ => apply ReadMessage_quiet in H
    | H : updateActivity _ _ = Ok _ |- _ => apply updateActivity_quiet in H
    | H : SendError _ _ _ _ = Ok _ |- _ => apply SendError_quiet in H
    | H : handleIncomingMessage _ _ _ _ = Ok _ |- _ =>
        apply handleIncomingMessage_quiet in H
    end;
    repeat (first [eassumption | eapply quiet_trans; [eassumption|]]).
Qed.

(** An iteration of the read pump panics only in a reply, on a queue that
    is closed. *)
Lemma safe_ReadPump_iter inp c w cl :
  heap w !! c = Some cl →
  closed (send cl) = false ∨ (∀ p, outcome inp ≠ GotFrame p) →
  safe (ReadPump_iter inp c w).
Proof.
  intros Hcl Hopen. unfold ReadPump_iter, deref. rewrite Hcl. simpl.
  destruct (ctx cl); [apply safe_Ok|].
  apply safe_bind; [by apply safe_ReadMessage|]. intros [[payload|] w1] H1;
    [|apply safe_Ok].
  destruct Hopen as [Hopen|Hno];
    [|by destruct (Hno payload); eapply ReadMessage_payload].
  destruct (quiet_open _ _ _ _ (ReadMessage_quiet _ _ _ _ _ H1) Hcl)
    as (cl1 & Hcl1 & Ho1). rewrite Hopen in Ho1.
  apply safe_bind; [by apply safe_updateActivity|]. intros w2 H2.
  destruct (quiet_open _ _ _ _ (updateActivity_quiet _ _ _ H2) Hcl1)
    as (cl2 & Hcl2 & Ho2). rewrite Ho1 in Ho2.
  destruct (unmarshal payload) as [incomingMsg|].
  - apply safe_bind; [by eapply safe_handleIncomingMessage|].
    intros [[e|] w3] H3; [|apply safe_Ok].
    destruct (quiet_open _ _ _ _ (handleIncomingMessage_quiet _ _ _ _ _ _ H3) Hcl2)
      as (cl3 & Hcl3 & Ho3). rewrite Ho2 in Ho3.
    apply safe_bind; [by eapply safe_SendError|]. intros ? _. apply safe_Ok.
  - apply safe_bind; [by eapply safe_SendError|]. intros ? _. apply safe_Ok.
Qed.

Lemma ReadPump_defer_rest c w w' :
  ReadPump_defer c w = Ok w' →
  goroutines w' = goroutines w ∧ register (hub w') = register (hub w) ∧
  broadcast (hub w') = broadcast (hub w).
Proof. unfold ReadPump_defer. intros H. res_inv; done. Qed.

Lemma ReadPump_defer_frame c w w' :
  ReadPump_defer c w = Ok w' →
  keeps_queues w w' ∧ tables w' = tables w ∧ goroutines w' = goroutines w ∧
  register (hub w') = register (hub w) ∧ broadcast (hub w') = broadcast (hub w) ∧
  closed (unregister (hub w)) = false ∧
  unregister (hub w') = enqueue c (unregister (hub w)) ∧
  is_Some (heap w !! c).
Proof.
  intros H. destruct (ReadPump_defer_inv _ _ _ H) as (cl & Hcl & Hopen & Hfull).
  destruct (ReadPump_defer_Ok c w cl Hcl Hopen Hfull) as (w2 & H2 & _ & Hu & Hh).
  rewrite H in H2. injection H2 as <-.
  destruct (ReadPump_defer_rest _ _ _ H) as (Hg & Hr & Hb).
  split_and!; try done.
  - intros x clx Hx. rewrite Hh. destruct (decide (x = c)) as [->|Hne].
    + rewrite lookup_insert_eq. rewrite Hcl in Hx. injection Hx as <-.
      by eexists.
    + rewrite lookup_insert_ne by done. by exists clx.
  - by eapply ReadPump_defer_tables.
Qed.

Lemma safe_ReadPump_defer c w :
  is_Some (heap w !! c) → closed (unregister (hub w)) = false →
  safe (ReadPump_defer c w).
Proof.
  intros [cl Hcl] Hopen. unfold ReadPump_defer.
  apply safe_bind; [by apply safe_chan_send|]. intros ch _.
  unfold deref. simpl. rewrite Hcl. simpl. rewrite lookup_insert_eq. simpl.
  destruct (messageHandler cl); apply safe_Ok.
Qed.

Lemma drain_closed n (ch ch' : chan bytes) acc payload :
  drain n ch acc = Ok (payload, ch') → closed ch' = closed ch.
Proof.
  revert ch acc. induction n as [|n IH]; intros ch acc; simpl.
  - by intros [= _ <-].
  - intros H. apply bind_Ok in H as ([r ch1] & H1 & H).
    apply IH in H. rewrite H. by eapply chan_recv_closed.
Qed.

Lemma safe_drain n (ch : chan bytes) acc : safe (drain n ch acc).
Proof.
  revert ch acc. induction n as [|n IH]; intros ch acc; simpl; [apply safe_Ok|].
  apply safe_bind; [apply safe_chan_recv|]. intros [r ch1] _. apply IH.
Qed.

Lemma WritePump_iter_quiet sel c w st w' :
  WritePump_iter sel c w = Ok (st, w') → quiet w w'.
Proof.
  unfold WritePump_iter. intros H.
  apply bind_Ok in H as (cl & Hcl%deref_Ok & H).
  destruct sel as [|nextWriterErr closeErr|pingErr].
  - res_inv. apply quiet_refl.
  - apply bind_Ok in H as ([r ch] & Hr & H).
    pose proof (chan_recv_closed _ _ _ Hr) as Hc.
    destruct r as [message|].
    + destruct (conn_closed _ || nextWriterErr).
      { injection H as <- <-.
        eapply quiet_store; [apply quiet_refl|eassumption|done..]. }
      apply bind_Ok in H as ([payload ch'] & Hd & H).
      apply drain_closed in Hd.
      destruct closeErr; injection H as <- <-;
        (eapply quiet_store; [apply quiet_refl|eassumption|done|done|]);
        simpl; congruence.
    + injection H as <- <-.
      eapply quiet_store; [apply quiet_refl|eassumption|done..].
  - res_inv; quiet_tac.
Qed.

Lemma safe_WritePump_iter sel c w :
  is_Some (heap w !! c) → safe (WritePump_iter sel c w).
Proof.
  intros [cl Hcl]. unfold WritePump_iter, deref. rewrite Hcl. simpl.
  destruct sel as [|nextWriterErr closeErr|pingErr].
  - destruct (ctx cl); [apply safe_Ok|apply safe_Blocked].
  - apply safe_bind; [apply safe_chan_recv|]. intros [[message|] ch] _;
      [|apply safe_Ok].
    destruct (conn_closed _ || nextWriterErr); [apply safe_Ok|].
    apply safe_bind; [apply safe_drain|]. intros [payload ch'] _.
    destruct closeErr; apply safe_Ok.
  - destruct (conn_closed _ || pingErr); apply safe_Ok.
Qed.

Lemma WritePump_defer_quiet c w w' : WritePump_defer c w = Ok w' → quiet w w'.
Proof.
  unfold WritePump_defer. intros H.
  apply bind_Ok in H as (cl & Hcl%deref_Ok & H).
  apply bind_Ok in H as (cl1 & Hcl1%deref_Ok & [= <-]).
  quiet_tac.
Qed.

Lemma safe_WritePump_defer c w : is_Some (heap w !! c) → safe (WritePump_defer c w).
Proof.
  intros [cl Hcl]. unfold WritePump_defer, deref. rewrite Hcl. simpl.
  rewrite lookup_insert_eq. apply safe_Ok.
Qed.

Lemma SendToClient_quiet c m w e w' :
  SendToClient c m w = Ok (e, w') → quiet w w'.
Proof.
  unfold SendToClient. intros H. res_inv; try quiet_tac.
  match goal with H : chan_send _ _ = Ok _ |- _ =>
    apply chan_send_Ok in H as [Hopen ->] end.
  match goal with H : deref _ _ = Ok _ |- _ => apply deref_Ok in H end.
  quiet_tac.
Qed.

Lemma safe_SendToClient c m w cl :
  heap w !! c = Some cl → closed (send cl) = false →
  safe (SendToClient c m w).
Proof.
  intros Hcl Hopen. unfold SendToClient, deref. simpl.
  destruct (marshal m); [|apply safe_Ok]. rewrite Hcl. simpl.
  destruct (closed (send cl) || negb (chan_full (send cl))); [|apply safe_Ok].
  apply safe_bind; [by apply safe_chan_send|]. intros ? _. apply safe_Ok.
Qed.

(** *** The operations of the hub keep the invariant *)

Lemma for_range_deliver_frame spawn data x l w w' :
  NoDup l → for_range (deliver_one spawn data x) l w = Ok w' →
  hub w' = hub w ∧ keeps_queues w w' ∧
  ∀ c, c ∈ goroutines w' → c ∈ goroutines w ∨ is_Some (heap w !! c).
Proof.
  intros Hnd H.
  pose proof (for_range_deliver _ _ _ _ _ _ Hnd H)
    as (Hhub & evs & gs & Htr & Hgo & _ & Hgs & _ & Hk & Ha).
  split; [done|]. split.
  - intros c cl Hcl. destruct (decide (c ∈ l ∧ x ≠ Some c)) as [[Hin Hx]|Hn].
    + destruct (Ha c Hin Hx) as (cl0 & Hcl0 & Hopen & Hif).
      rewrite Hcl in Hcl0. injection Hcl0 as <-.
      destruct (chan_full (send cl)); destruct Hif as [-> _]; by eexists.
    + rewrite Hk; [by exists cl|]. destruct (decide (c ∈ l)); [right|by left].
      destruct (decide (x = Some c)); [done|]. by destruct Hn.
  - intros c. rewrite Hgo, elem_of_app. intros [?|Hc]; [by left|]. right.
    apply Hgs in Hc as [_ Hc].
    destruct (for_range_deliver_dropped _ _ _ _ _ _ c Hnd H)
      as (_ & _ & cl & Hcl & _); [by rewrite Htr, drop_app_length|].
    by exists cl.
Qed.

Lemma hub_inv_emit hp pend e w : hub_inv hp pend w → hub_inv hp pend (emit e w).
Proof.
  intros Hinv. eapply hub_inv_quiet; [done|by apply keeps_queues_heap|done..].
Qed.

Lemma broadcastMessage_hub_inv hp pend b w :
  hub_inv hp pend w → ∃ w', broadcastMessage b w = Ok w' ∧ hub_inv hp pend w'.
Proof.
  intros Hinv. pose proof Hinv as [].
  pose proof (hub_inv_emit _ _ EvMarshal _ Hinv) as Hinv0.
  unfold broadcastMessage. destruct (marshal (Message_ b)) as [data|]; [|eauto].
  simpl. destruct (conversations (hub w) !! ConversationID b) as [cs|] eqn:Hcs;
    [|eauto].
  rewrite broadcast_one_deliver.
  destruct (for_range_deliver_total true data (ExcludeClient b) (elements cs)
              (emit EvMarshal w)) as [w' Hw'].
  { intros c Hc%elem_of_elements.
    destruct (inv_room _ hi_tables0 (ConversationID b) c)
      as (cl & Hcl & _ & _ & Hm); [by exists cs|].
    destruct (hi_open0 _ _ Hm) as (cl' & Hcl' & _ & Hopen). by exists cl'. }
  exists w'. split; [done|].
  destruct (for_range_deliver_frame _ _ _ _ _ _ (NoDup_elements cs) Hw')
    as (Hhub & Hk & Hg).
  eapply hub_inv_frame; [exact Hinv0|done|..]; rewrite ?Hhub; try done.
  - unfold tables. by rewrite Hhub.
  - auto.
Qed.

Lemma BroadcastToUser_hub_inv hp pend uid m w :
  hub_inv hp pend w → ∃ w', BroadcastToUser uid m w = Ok w' ∧ hub_inv hp pend w'.
Proof.
  intros Hinv. pose proof Hinv as [].
  pose proof (hub_inv_emit _ _ EvMarshal _ Hinv) as Hinv0.
  unfold BroadcastToUser. destruct (marshal m) as [data|]; [|eauto].
  simpl. destruct (clients (hub w) !! uid) as [cs|] eqn:Hcs; [|eauto].
  rewrite (for_range_ext _ (deliver_one false data None))
    by (intros; apply user_one_deliver).
  destruct (for_range_deliver_total false data None (elements cs)
              (emit EvMarshal w)) as [w' Hw'].
  { intros c Hc%elem_of_elements.
    destruct (hi_open0 uid c) as (cl' & Hcl' & _ & Hopen); [by exists cs|].
    by exists cl'. }
  exists w'. split; [done|].
  destruct (for_range_deliver_frame _ _ _ _ _ _ (NoDup_elements cs) Hw')
    as (Hhub & Hk & Hg).
  eapply hub_inv_frame; [exact Hinv0|done|..]; rewrite ?Hhub; try done.
  - unfold tables. by rewrite Hhub.
  - auto.
Qed.

Lemma cleanupStaleConnections_hub_inv hp pend w :
  hub_inv hp pend w →
  ∃ w', cleanupStaleConnections w = Ok w' ∧ hub_inv hp pend w'.
Proof.
  intros Hinv. pose proof Hinv as []. unfold cleanupStaleConnections.
  destruct (collect_stale_Ok (now w) (all_clients w) w) as (gs & -> & Hgs).
  { intros c (u & Hm)%elem_of_all_clients.
    destruct (inv_identity _ hi_tables0 u c Hm) as (cl & -> & _). done. }
  simpl. eexists. split; [done|].
  destruct (foldl_go_unregister gs w) as (Hh & Hb & Hg).
  eapply hub_inv_frame; [exact Hinv|by apply keeps_queues_heap|..];
    rewrite ?Hb; try done.
  - unfold tables. by rewrite Hb.
  - auto.
  - intros c. rewrite Hg, elem_of_app. intros [?|Hc]; [by left|right].
    apply Hgs in Hc as [_ (cl & -> & _)]. done.
Qed.

Lemma for_range_close_one_goroutines l w w' :
  for_range close_one l w = Ok w' → goroutines w' = goroutines w.
Proof.
  revert w. induction l as [|c l IH]; intros w; simpl; [by intros [= <-]|].
  intros (w1 & H1 & H)%bind_Ok. rewrite (IH _ H).
  unfold close_one in H1. by res_inv.
Qed.

Lemma cleanup_hub_inv hp pend w :
  hub_inv hp pend w → ∃ w', cleanup w = Ok w' ∧ hub_inv hp pend w'.
Proof.
  intros Hinv. pose proof Hinv as []. unfold cleanup.
  destruct (for_range_close_one (all_clients w) w)
    as (w1 & Hw1 & _ & Hhub & Hcl & Hsame).
  { by apply all_clients_NoDup. }
  { intros c (u & Hm)%elem_of_all_clients.
    destruct (hi_open0 u c Hm) as (cl & ? & _ & ?). by exists cl. }
  pose proof (for_range_close_one_goroutines _ _ _ Hw1) as Hg.
  rewrite Hw1. simpl. eexists. split; [done|].
  assert (∀ c, is_Some (heap w !! c) → is_Some (heap w1 !! c)) as Hdom.
  { intros c Hc. destruct (decide (c ∈ all_clients w)) as [Hin|Hout].
    - destruct (Hcl c Hin) as (cl & -> & _). done.
    - by rewrite Hsame. }
  split; simpl; rewrite ?Hhub, ?Hg; try done.
  - split; simpl.
    + intros ? ? Hl. by rewrite lookup_empty in Hl.
    + intros ? ? Hl. by rewrite lookup_empty in Hl.
    + intros ? ? (s & Hs & _). by rewrite lookup_empty in Hs.
    + intros ? ? (s & Hs & _). by rewrite lookup_empty in Hs.
  - intros u c (s & Hs & _). simpl in Hs. by rewrite lookup_empty in Hs.
  - auto.
  - intros c Hc. destruct (hi_pending0 c Hc) as [(cl & Hcl0 & Ho) Hnm]. split.
    + exists cl. split; [|done]. rewrite Hsame; [done|].
      intros (u & Hm)%elem_of_all_clients. by apply (Hnm u).
    + intros u (s & Hs & _). simpl in Hs. by rewrite lookup_empty in Hs.
  - auto.
  - auto.
Qed.

Lemma bind_Panic {A B} (m : res A) (f : A → res B) msg :
  m ≫= f = Panic msg → m = Panic msg ∨ ∃ a, m = Ok a ∧ f a = Panic msg.
Proof. destruct m as [a|msg'|]; simpl; [eauto|intros [= ->]; by left|done]. Qed.

Lemma tables_inv_heap_hub (w w' : World) :
  tables_inv w → heap w' = heap w → tables w' = tables w → tables_inv w'.
Proof.
  intros Hinv Hh Ht. eapply tables_inv_frame; [done| |done].
  by apply keeps_queues_heap.
Qed.

Lemma Run_case_hub_inv hp pend s w :
  hub_inv hp pend w → s ≠ SelDone →
  safe (Run_case s w) ∧ ∀ w', Run_case s w = Ok w' → hub_inv hp pend w'.
Proof.
  intros Hinv Hs. pose proof Hinv as []. destruct s; try done; simpl.
  - (* register *)
    destruct (chan_recv (register (hub w))) as [[r ch]|msg|] eqn:Hrecv; simpl.
    2: { by destruct (safe_chan_recv (register (hub w)) msg). }
    2: { split; [apply safe_Blocked|done]. }
    destruct (chan_recv_open _ _ _ hi_register0 Hrecv) as (c & -> & Hbuf & Hch & _).
    destruct (hi_pending0 c) as [(cl & Hcl & Hopen) Hnm];
      [rewrite Hbuf; by left|].
    rewrite Hbuf in hi_nodup0. simpl in hi_nodup0.
    apply NoDup_cons in hi_nodup0 as [Hnin Hnd].
    assert (registerClient c (set_register ch w)
            = Ok (set_tables
                    (table_add (userID cl) c (clients (hub w)))
                    (if decide (conversationID cl ≠ uuid_Nil)
                     then table_add (conversationID cl) c (conversations (hub w))
                     else conversations (hub w)) (set_register ch w))) as Hreg.
    { apply registerClient_Ok. by exists cl. }
    rewrite Hreg. split; [apply safe_Ok|]. intros w' [= <-].
    split; simpl; try done.
    + eapply registerClient_inv; [|exact Hreg].
      by apply (tables_inv_heap_hub w).
    + intros u x Hm. simpl in Hm. apply member_table_add in Hm as [[-> ->]|Hm].
      * by exists cl.
      * by apply hi_open0.
    + intros x Hx. destruct (hi_pending0 x) as [Hx1 Hx2];
        [rewrite Hbuf; by right|].
      split; [done|]. intros u Hm. simpl in Hm.
      apply member_table_add in Hm as [[-> ->]|Hm]; [done|by apply (Hx2 u)].
  - (* unregister *)
    destruct (chan_recv (unregister (hub w))) as [[r ch]|msg|] eqn:Hrecv; simpl.
    2: { by destruct (safe_chan_recv (unregister (hub w)) msg). }
    2: { split; [apply safe_Blocked|done]. }
    destruct (chan_recv_open _ _ _ hi_unregister0 Hrecv) as (c & -> & Hbuf & Hch & _).
    assert (hub_inv hp pend (set_unregister ch w)) as Hinv1.
    { eapply hub_inv_frame; [exact Hinv|by apply keeps_queues_heap|done..| |];
        simpl; [|auto].
      intros x Hx. left. rewrite Hbuf. by right. }
    destruct (unregisterClient_hub_inv hp pend (set_unregister ch w) c Hinv1)
      as (w' & -> & Hinv'); [apply hi_submitted0; rewrite Hbuf; by left|].
    split; [apply safe_Ok|]. by intros ? [= <-].
  - (* broadcast *)
    destruct (chan_recv (broadcast (hub w))) as [[r ch]|msg|] eqn:Hrecv; simpl.
    2: { by destruct (safe_chan_recv (broadcast (hub w)) msg). }
    2: { split; [apply safe_Blocked|done]. }
    destruct (chan_recv_open _ _ _ hi_broadcast0 Hrecv) as (b & -> & Hbuf & Hch & _).
    assert (hub_inv hp pend (set_broadcast ch w)) as Hinv1.
    { eapply hub_inv_frame; [exact Hinv|by apply keeps_queues_heap|done..| |];
        simpl; auto. }
    destruct (broadcastMessage_hub_inv hp pend b _ Hinv1) as (w' & -> & Hinv').
    split; [apply safe_Ok|]. by intros ? [= <-].
  - (* sweep *)
    destruct (cleanupStaleConnections_hub_inv hp pend w Hinv) as (w' & -> & Hinv').
    split; [apply safe_Ok|]. by intros ? [= <-].
  - split; [apply safe_Ok|]. by intros ? [= <-].
Qed.

(** One transition keeps the invariant, and panics only when it sends
    directly to a client whose queue is closed. *)
Lemma step_hub_inv hp pend l w :
  hub_inv hp (admits [l] ++ pend) w → label_ok hp l →
  (∀ w', step l w = Ok w' → hub_inv hp pend w') ∧
  (∀ msg, step l w = Panic msg →
     ∃ c, sends_directly l = Some c ∧ queue_closed c w).
Proof.
  intros Hinv Hl.
  destruct l as [s|i|c|conv m x|uid m|c m| |c inp|c sel|d];
    simpl in Hinv, Hl; pose proof Hinv as []; [|simpl..].
  - (* the loop *)
    assert (s = SelDone ∨ s ≠ SelDone) as [->|Hs]
      by (destruct s; [by left|by right..]).
    + simpl. destruct (hub_ctx (hub w)); [|done].
      destruct (cleanup_hub_inv hp pend w Hinv) as (w' & -> & Hinv').
      split; [by intros ? [= <-]|done].
    + destruct (Run_case_hub_inv hp pend s w Hinv Hs) as [Hsafe Hok].
      assert (step (LLoop s) w = Run_case s w) as -> by by destruct s.
      split; [done|]. intros msg Hp. by destruct (Hsafe msg).
  - (* a goroutine *)
    destruct (goroutines w !! i) as [c|] eqn:Hi; [|done].
    assert (hub_inv hp pend (set_goroutines (delete i (goroutines w)) w)) as Hinv1.
    { eapply hub_inv_frame; [exact Hinv|by apply keeps_queues_heap|done..| |];
        simpl; [auto|].
      intros x Hx%list_elem_of_delete_inv. by left. }
    destruct (unregisterClient_hub_inv hp pend _ c Hinv1) as (w' & -> & Hinv').
    { apply hi_goroutines0. by eapply list_elem_of_lookup_2. }
    split; [by intros ? [= <-]|done].
  - (* an admission *)
    destruct (chan_send c (register (hub w))) as [ch|msg|] eqn:Hsend; simpl.
    3: done.
    2: { by destruct (safe_chan_send c _ hi_register0 msg). }
    apply chan_send_Ok in Hsend as [_ ->]. split; [|done]. intros w' [= <-].
    eapply hub_inv_frame; [exact Hinv|by apply keeps_queues_heap|done..| | |];
      simpl; auto. by rewrite <- app_assoc.
  - (* a call of BroadcastToConversation *)
    unfold BroadcastToConversation.
    destruct (chan_send _ (broadcast (hub w))) as [ch|msg|] eqn:Hsend; simpl.
    3: done.
    2: { by destruct (safe_chan_send _ _ hi_broadcast0 _ Hsend). }
    apply chan_send_Ok in Hsend as [_ ->]. split; [|done]. intros w' [= <-].
    eapply hub_inv_frame; [exact Hinv|by apply keeps_queues_heap|done..| |];
      simpl; auto.
  - (* a call of BroadcastToUser *)
    destruct (BroadcastToUser_hub_inv hp pend uid m w Hinv) as (w' & -> & Hinv').
    split; [by intros ? [= <-]|done].
  - (* a call of SendToClient *)
    destruct (hi_heap0 c Hl) as [cl Hcl]. split.
    + intros w' H. apply bind_Ok in H as ([e w1] & H1 & [= <-]).
      destruct (SendToClient_quiet _ _ _ _ _ H1) as (? & ? & ?).
      by eapply hub_inv_quiet.
    + intros msg [H|([e w1] & _ & H)]%bind_Panic; [|done].
      exists c. split; [done|]. exists cl. split; [done|].
      destruct (closed (send cl)) eqn:Hc; [done|].
      by destruct (safe_SendToClient c m w cl Hcl Hc msg).
  - (* Shutdown *)
    split; [|done]. intros w' [= <-].
    eapply hub_inv_frame; [exact Hinv|by apply keeps_queues_heap|done..| |];
      simpl; auto.
  - (* the read pump *)
    destruct (hi_heap0 c Hl) as [cl Hcl]. split.
    + intros w' H. apply bind_Ok in H as ([st w1] & H1 & H).
      pose proof (ReadPump_iter_quiet _ _ _ _ _ H1) as (Hh & Hg & Hk).
      assert (hub_inv hp pend w1) as Hinv1 by by eapply hub_inv_quiet.
      destruct st; [by injection H as <-|].
      destruct (ReadPump_defer_frame _ _ _ H)
        as (Hk' & Ht & Hg' & Hr & Hb & Hopen & Hu & Hc).
      pose proof Hinv1 as [].
      eapply hub_inv_frame; [exact Hinv1|exact Hk'|exact Ht|..];
        rewrite ?Hr, ?Hb, ?Hu, ?Hg'; simpl; auto.
      intros x [Hx| ->%list_elem_of_singleton]%elem_of_app; auto.
    + intros msg [H|([st w1] & H1 & H)]%bind_Panic.
      * exists c. destruct (outcome inp) as [payload| |] eqn:Ho.
        -- split; [done|]. exists cl. split; [done|].
           destruct (closed (send cl)) eqn:Hc; [done|].
           destruct (safe_ReadPump_iter inp c w cl Hcl (or_introl Hc) msg H).
        -- destruct (safe_ReadPump_iter inp c w cl Hcl) with (msg := msg);
             [right; intros p; by rewrite Ho|done].
        -- destruct (safe_ReadPump_iter inp c w cl Hcl) with (msg := msg);
             [right; intros p; by rewrite Ho|done].
      * pose proof (ReadPump_iter_quiet _ _ _ _ _ H1) as Hq.
        destruct st; [done|].
        destruct (safe_ReadPump_defer c w1) with (msg := msg); [| |done].
        -- eapply quiet_is_Some; [done|by exists cl].
        -- destruct Hq as (-> & _). done.
  - (* the write pump *)
    destruct (hi_heap0 c Hl) as [cl Hcl]. split.
    + intros w' H. apply bind_Ok in H as ([st w1] & H1 & H).
      pose proof (WritePump_iter_quiet _ _ _ _ _ H1) as Hq.
      assert (quiet w w') as (? & ? & ?).
      { destruct st; [by injection H as <-|].
        eapply quiet_trans; [done|by eapply WritePump_defer_quiet]. }
      by eapply hub_inv_quiet.
    + intros msg [H|([st w1] & H1 & H)]%bind_Panic.
      * destruct (safe_WritePump_iter sel c w) with (msg := msg); [by exists cl|done].
      * pose proof (WritePump_iter_quiet _ _ _ _ _ H1) as Hq.
        destruct st; [done|].
        destruct (safe_WritePump_defer c w1) with (msg := msg); [|done].
        eapply quiet_is_Some; [done|by exists cl].
  - (* time *)
    split; [|done]. intros w' [= <-].
    eapply hub_inv_quiet; [done|by apply keeps_queues_heap|done..].
Qed.

Lemma admits_cons (l : Label) ls : admits (l :: ls) = admits [l] ++ admits ls.
Proof. unfold admits. simpl. by destruct l. Qed.

Lemma steps_hub_inv hp ls pend w :
  hub_inv hp (admits ls ++ pend) w → Forall (label_ok hp) ls →
  (∀ w', steps ls w = Ok w' → hub_inv hp pend w') ∧
  (∀ msg, steps ls w = Panic msg →
     ∃ ls1 l ls2 w1 c, ls = ls1 ++ l :: ls2 ∧ steps ls1 w = Ok w1 ∧
       hub_inv hp (admits (l :: ls2) ++ pend) w1 ∧
       sends_directly l = Some c ∧ queue_closed c w1).
Proof.
  revert w. induction ls as [|l ls IH]; intros w Hinv Hls; simpl.
  - split; [by intros ? [= <-]|done].
  - apply Forall_cons in Hls as [Hl Hls].
    pose proof Hinv as Hinv0. rewrite admits_cons, <- app_assoc in Hinv.
    destruct (step_hub_inv hp _ l w Hinv Hl) as [Hok Hpanic]. split.
    + intros w' (w1 & H1 & H)%bind_Ok. by apply (IH w1 (Hok w1 H1) Hls).
    + intros msg [H|(w1 & H1 & H)]%bind_Panic.
      * destruct (Hpanic msg H) as (c & Hc & Hq).
        exists [], l, ls, w, c. split_and!; try done.
      * destruct (proj2 (IH w1 (Hok w1 H1) Hls) msg H)
          as (ls1 & l' & ls2 & w2 & c & -> & H2 & Hinv2 & Hc & Hq).
        exists (l :: ls1), l', ls2, w2, c. split_and!; try done.
        simpl. by rewrite H1.
Qed.

Lemma fresh_world_hub_inv hp t pend :
  NoDup pend →
  (∀ c, c ∈ pend → ∃ cl, hp !! c = Some cl ∧ closed (send cl) = false) →
  hub_inv hp pend (fresh_world hp t).
Proof.
  intros Hnd Hopen. split; simpl; try done.
  - apply fresh_world_inv.
  - intros u c (s & Hs & _). simpl in Hs. by rewrite lookup_empty in Hs.
  - intros c Hc. split; [by apply Hopen|].
    intros u (s & Hs & _). simpl in Hs. by rewrite lookup_empty in Hs.
  - intros c Hc. by apply elem_of_nil in Hc.
  - intros c Hc. by apply elem_of_nil in Hc.
Qed.

(** X6. From a fresh hub, along any transitions of the loop, the
    goroutines, the callers and the pumps in which no client is admitted
    twice and the admitted clients have open queues, every state that is
    reached has well-formed tables whose clients have open queues, and the
    program panics in one way only: a transition that sends to a client on
    its own queue ([SendToClient], or the read pump of the client replying
    to a frame) meets a queue that is closed, that of a client that is not
    registered. The delivery loops of the hub, the sweep, [cleanup] and the
    write pumps never panic. *)
Theorem panics_only_on_send_to_closed_queue hp t ls :
  Forall (label_ok hp) ls →
  NoDup (admits ls) →
  (∀ c, c ∈ admits ls → ∃ cl, hp !! c = Some cl ∧ closed (send cl) = false) →
  (∀ w, steps ls (fresh_world hp t) = Ok w → tables_inv w ∧ registered_open w) ∧
  (∀ msg, steps ls (fresh_world hp t) = Panic msg →
     ∃ ls1 l ls2 w c, ls = ls1 ++ l :: ls2 ∧
       steps ls1 (fresh_world hp t) = Ok w ∧
       sends_directly l = Some c ∧ queue_closed c w ∧
       ∀ u, ¬ member (clients (hub w)) u c).
Proof.
  intros Hls Hnd Hopen.
  destruct (steps_hub_inv hp ls [] (fresh_world hp t)) as [Hok Hpanic];
    [rewrite app_nil_r; by apply fresh_world_hub_inv|done|].
  split.
  - intros w Hw. by destruct (Hok w Hw).
  - intros msg Hmsg.
    destruct (Hpanic msg Hmsg)
      as (ls1 & l & ls2 & w & c & -> & H1 & Hinv & Hc & cl & Hcl & Hq).
    exists ls1, l, ls2, w, c. split_and!; try done; [by exists cl|].
    intros u Hm. destruct (hi_open _ _ _ Hinv u c Hm) as (cl' & Hcl' & _ & Ho).
    rewrite Hcl in Hcl'. injection Hcl' as <-. by rewrite Hq in Ho.
Qed.

(** ** Sending to a client that was unregistered *)

Lemma SendMessage_closed tie c m w cl data :
  heap w !! c = Some cl → marshal (ofWS m) = Some data →
  closed (send cl) = true → ctx cl = false →
  SendMessage tie c m w = Panic "send on closed channel".
Proof.
  intros Hcl Hdata Hclosed Hctx. unfold SendMessage, deref, chan_send. simpl.
  rewrite Hdata, Hcl. simpl. by rewrite Hclosed, Hctx.
Qed.

Lemma SendToClient_closed c m w cl data :
  heap w !! c = Some cl → marshal m = Some data → closed (send cl) = true →
  SendToClient c m w = Panic "send on closed channel".
Proof.
  intros Hcl Hdata Hclosed. unfold SendToClient, deref, chan_send. simpl.
  rewrite Hdata, Hcl. simpl. by rewrite Hclosed.
Qed.

(** X7. A send on the queue of a client whose queue is closed panics: in
    a [select], a send on a closed channel is ready and panics when taken,
    and with a live context nothing else is ready. So [SendMessage] and
    [SendToClient] panic on a client the hub has unregistered, and so does
    the read pump of such a client, its context not yet cancelled, when it
    answers a frame that does not decode or has an unknown type. *)
Theorem send_after_unregistration_panics c w cl :
  heap w !! c = Some cl → ctx cl = false →
  (closed (send cl) = true →
   (∀ tie m data, marshal (ofWS m) = Some data →
      SendMessage tie c m w = Panic "send on closed channel") ∧
   (∀ m data, marshal m = Some data →
      SendToClient c m w = Panic "send on closed channel")) ∧
  (∀ w1 inp payload w2 text data,
     member (clients (hub w)) (userID cl) c →
     unregisterClient c w = Ok w1 →
     ReadMessage inp c w1 = Ok (Some payload, w2) →
     protocol_error payload = Some text →
     marshal (ofWS (error_event (conversationID cl) text)) = Some data →
     ReadPump_iter inp c w1 = Panic "send on closed channel").
Proof.
  intros Hcl Hctx. split.
  - intros Hclosed. split.
    + intros tie m data Hdata. by eapply SendMessage_closed.
    + intros m data Hdata. by eapply SendToClient_closed.
  - intros w1 inp payload w2 text data (s & Hs & Hin) Hun Hread Herr Hdata.
    destruct (unregisterClient_registered _ _ _ _ _ Hcl Hs Hin Hun)
      as (Hheap & _ & _ & _).
    assert (heap w1 !! c
            = Some (set_send (Chan (buf (send cl)) (cap (send cl)) true) cl))
      as Hcl1 by (by rewrite Hheap, lookup_insert_eq).
    destruct (ReadMessage_reads_only _ _ _ _ _ Hread) as (_ & _ & _ & Hc).
    destruct (Hc _ Hcl1) as (cl2 & Hcl2 & Hsend & Hctx2 & _ & Hconv & _).
    rewrite (ReadPump_iter_protocol_error inp c w1 _ payload w2 cl2 text
               Hcl1 Hctx Hread Hcl2 Herr).
    simpl in Hsend, Hctx2, Hconv.
    rewrite (SendMessage_closed (reply_tie inp payload) c _ _
               (set_lastActivity (now w2) cl2) data); [done|..].
    + simpl. by rewrite lookup_insert_eq.
    + by rewrite Hconv.
    + simpl. by rewrite Hsend.
    + simpl. by rewrite Hctx2.
Qed.

(** ** The frames the read pump dispatches *)

(** The iteration of the read pump up to the dispatch of a frame that
    decodes. *)
Lemma ReadPump_iter_decoded inp c w cl payload w1 cl1 msg :
  heap w !! c = Some cl → ctx cl = false →
  ReadMessage inp c w = Ok (Some payload, w1) →
  heap w1 !! c = Some cl1 →
  unmarshal payload = Some msg →
  ReadPump_iter inp c w =
    '(err, w3) ← handleIncomingMessage (tie1 inp) c msg
                   (store c (set_lastActivity (now w1) cl1) w1);
    match err with
    | Some e =>
        w4 ← SendError (tie2 inp) c ("Error processing message: " +:+ e) w3;
        Ok (Running, w4)
    | None => Ok (Running, w3)
    end.
Proof.
  intros Hcl Hctx Hread Hcl1 Hum. unfold ReadPump_iter, deref.
  rewrite Hcl. simpl. rewrite Hctx, Hread. simpl.
  rewrite (updateActivity_Ok _ _ _ Hcl1). simpl. by rewrite Hum.
Qed.

(** X8. A [ping] frame is answered with a [pong] event for the room of the
    client, on the queue of that client and of no other, and the hub is not
    involved. When the queue is full the pong waits five seconds and is
    given up, and so is the error event that reports the timeout: the
    iteration ends ten seconds after the read, the queue as it was and the
    loop still running. *)
Theorem ping_is_answered_with_pong inp c w cl payload w1 msg pong :
  heap w !! c = Some cl → ctx cl = false → closed (send cl) = false →
  ReadMessage inp c w = Ok (Some payload, w1) →
  unmarshal payload = Some msg → Type_ msg = "ping" →
  marshal (ofWS (NewWebSocketMessage "pong" (conversationID cl) uuid_Nil))
    = Some pong →
  (chan_full (send cl) = false →
   ∃ w' cl', ReadPump_iter inp c w = Ok (Running, w') ∧
     heap w' !! c = Some cl' ∧ send cl' = enqueue pong (send cl) ∧
     hub w' = hub w ∧ goroutines w' = goroutines w ∧ now w' = now w1 ∧
     ∀ c', c' ≠ c → heap w' !! c' = heap w1 !! c') ∧
  (chan_full (send cl) = true →
   ∀ data,
     marshal (ofWS (error_event (conversationID cl)
                      ("Error processing message: " +:+
                       "timeout sending message to client"))) = Some data →
     ∃ w' cl', ReadPump_iter inp c w = Ok (Running, w') ∧
       heap w' !! c = Some cl' ∧ send cl' = send cl ∧
       hub w' = hub w ∧ goroutines w' = goroutines w ∧
       now w' = now w1 + 10 * second).
Proof.
  intros Hcl Hctx Hopen Hread Hum Hty Hpong.
  destruct (ReadMessage_reads_only _ _ _ _ _ Hread) as (Hhub & Hgo & _ & Hc).
  destruct (Hc _ Hcl) as (cl1 & Hcl1 & Hsend & Hctx1 & _ & Hconv & _).
  rewrite (ReadPump_iter_decoded _ _ _ _ _ _ _ _ Hcl Hctx Hread Hcl1 Hum).
  set (cl2 := set_lastActivity (now w1) cl1).
  set (w2 := store c cl2 w1).
  assert (heap w2 !! c = Some cl2) as Hcl2 by apply lookup_insert_eq.
  assert (handleIncomingMessage (tie1 inp) c msg w2
          = SendMessage (tie1 inp) c
              (NewWebSocketMessage "pong" (conversationID cl) uuid_Nil) w2)
    as ->.
  { unfold handleIncomingMessage, deref. rewrite Hcl2. simpl.
    rewrite Hty. simpl. by rewrite Hconv. }
  split.
  - intros Hfull.
    rewrite (SendMessage_room _ c _ w2 cl2 pong Hcl2 Hpong); simpl;
      [|by rewrite Hsend..|by rewrite Hctx1].
    do 2 eexists. split; [done|]. simpl. rewrite lookup_insert_eq.
    split; [done|]. simpl. rewrite Hsend. split_and!; try done.
    intros c' Hne. by rewrite !lookup_insert_ne.
  - intros Hfull data Hdata.
    rewrite (SendMessage_full _ c _ w2 cl2 pong Hcl2 Hpong); simpl;
      [|by rewrite Hsend..|by rewrite Hctx1].
    unfold SendError, deref. simpl. rewrite lookup_insert_eq. simpl.
    rewrite (SendMessage_full _ c _ _ cl2 data); simpl;
      [|apply lookup_insert_eq|by rewrite Hconv|by rewrite Hsend..
       |by rewrite Hctx1].
    do 2 eexists. split; [done|]. simpl. rewrite lookup_insert_eq.
    split; [done|]. simpl. split_and!; try done. lia.
Qed.


(** ** The write pump of a client whose queue was closed *)

Lemma WritePump_closed_queue c w cl :
  heap w !! c = Some cl → closed (send cl) = true →
  conn_closed (conn cl) = false →
  ∃ w' cl', WritePump [WRecv false false; WRecv false false] c w
            = Ok (Returned, w') ∧
    heap w' !! c = Some cl' ∧
    wire (conn cl') = wire (conn cl) ++
      match buf (send cl) with
      | [] => []
      | _ :: _ => [TextMessage (frame_of (buf (send cl)))]
      end ++ [CloseMessage] ∧
    buf (send cl') = [] ∧ conn_closed (conn cl') = true ∧ ctx cl' = true ∧
    hub w' = hub w ∧ goroutines w' = goroutines w ∧
    ∀ c', c' ≠ c → heap w' !! c' = heap w !! c'.
Proof.
  intros Hcl Hclosed Hconn.
  destruct cl as [i k [l n b] u v la mh x]. simpl in *. subst b.
  destruct l as [|m rest].
  - unfold WritePump, WritePump_iter, WritePump_defer, deref, chan_recv.
    rewrite Hcl. simpl. rewrite Hconn. simpl. rewrite lookup_insert_eq. simpl.
    rewrite lookup_insert_eq. simpl.
    do 2 eexists. split; [done|]. simpl. rewrite lookup_insert_eq.
    split; [done|]. simpl. split_and!; try done.
    intros c' Hne. by rewrite !lookup_insert_ne.
  - unfold WritePump, WritePump_iter, WritePump_defer, deref, chan_recv, chan_len.
    rewrite Hcl. simpl. rewrite Hconn. simpl.
    rewrite (drain_all rest n true m). simpl. rewrite lookup_insert_eq. simpl.
    rewrite Hconn. simpl. rewrite lookup_insert_eq. simpl.
    rewrite lookup_insert_eq. simpl.
    do 2 eexists. split; [done|]. simpl. rewrite lookup_insert_eq.
    split; [done|]. simpl. rewrite <- app_assoc. split_and!; try done.
    intros c' Hne. by rewrite !lookup_insert_ne.
Qed.

(** X10. After the hub has unregistered a client, its write pump, when
    the connection takes the writes, sends what was queued before the
    unregistration in one text frame, the items in order with a newline
    between two, then a close frame, and returns: the connection is closed
    and the context cancelled. Nothing that was queued is lost. *)
Theorem write_pump_drains_and_exits_after_unregistration c w cl w1 :
  heap w !! c = Some cl →
  member (clients (hub w)) (userID cl) c →
  conn_closed (conn cl) = false →
  unregisterClient c w = Ok w1 →
  ∃ w' cl', WritePump [WRecv false false; WRecv false false] c w1
            = Ok (Returned, w') ∧
    heap w' !! c = Some cl' ∧
    wire (conn cl') = wire (conn cl) ++
      match buf (send cl) with
      | [] => []
      | _ :: _ => [TextMessage (frame_of (buf (send cl)))]
      end ++ [CloseMessage] ∧
    buf (send cl') = [] ∧ conn_closed (conn cl') = true ∧ ctx cl' = true ∧
    hub w' = hub w1 ∧ goroutines w' = goroutines w1.
Proof.
  intros Hcl (s & Hs & Hin) Hconn Hun.
  destruct (unregisterClient_registered _ _ _ _ _ Hcl Hs Hin Hun)
    as (Hheap & _ & _ & _).
  destruct (WritePump_closed_queue c w1
              (set_send (Chan (buf (send cl)) (cap (send cl)) true) cl))
    as (w' & cl' & Hrun & Hcl' & Hwire & ? & ? & ? & ? & ? & _);
    [by rewrite Hheap, lookup_insert_eq|done..|].
  exists w', cl'. by split_and!.
Qed.

(** ** Tearing a connection down *)

(** The read pump of a client whose context is cancelled returns at its
    next iteration and submits the client to the hub. *)
Lemma step_ReadPump_cancelled c inp w cl :
  heap w !! c = Some cl → ctx cl = true →
  closed (unregister (hub w)) = false → chan_full (unregister (hub w)) = false →
  ∃ w', step (LReadPump c inp) w = Ok w' ∧
    unregister (hub w') = enqueue c (unregister (hub w)) ∧
    tables w' = tables w ∧ goroutines w' = goroutines w ∧
    heap w' = <[c := set_ctx true (set_conn (Conn_Close (conn cl)) cl)]> (heap w).
Proof.
  intros Hcl Hctx Hopen Hfull.
  destruct (ReadPump_defer_Ok c w cl Hcl Hopen Hfull) as (w' & H & _ & Hu & Hh).
  exists w'. simpl. unfold ReadPump_iter, deref. rewrite Hcl. simpl.
  rewrite Hctx. simpl. split; [done|]. split; [done|].
  split; [by eapply ReadPump_defer_tables|]. split; [|done].
  by destruct (ReadPump_defer_rest _ _ _ H).
Qed.

Lemma WritePump_Returned sels c w w' :
  WritePump sels c w = Ok (Returned, w') →
  ∃ w0, hub w0 = hub w ∧ goroutines w0 = goroutines w ∧ keeps_queues w w0 ∧
        WritePump_defer c w0 = Ok w'.
Proof.
  revert w. induction sels as [|sel sels IH]; intros w; simpl; [done|].
  intros ([st w1] & H1 & H)%bind_Ok.
  destruct (WritePump_iter_quiet _ _ _ _ _ H1) as (Hh & Hg & Hk).
  destruct st.
  - destruct (IH _ H) as (w0 & ? & ? & ? & ?). exists w0.
    split_and!; try congruence. by eapply keeps_queues_trans.
  - apply bind_Ok in H as (w2 & H2 & [= <-]). by exists w1.
Qed.

(** X11. The write pump, however it returns (the queue was closed, a
    write failed, the context was cancelled), closes the connection and
    cancels the context of its client, and that is all: it does not touch
    the hub, so the client is still registered and nothing is submitted for
    it. It is the read pump that submits it: with the context cancelled,
    its next iteration returns and puts the client on the hub's unregister
    channel. *)
Theorem write_pump_exit_cancels_and_read_pump_unregisters sels c w cl w1 :
  heap w !! c = Some cl →
  WritePump sels c w = Ok (Returned, w1) →
  hub w1 = hub w ∧ goroutines w1 = goroutines w ∧
  (∃ cl1, heap w1 !! c = Some cl1 ∧ ctx cl1 = true ∧
          conn_closed (conn cl1) = true ∧
          closed (send cl1) = closed (send cl)) ∧
  (∀ inp, closed (unregister (hub w)) = false →
          chan_full (unregister (hub w)) = false →
          ∃ w2, step (LReadPump c inp) w1 = Ok w2 ∧
            unregister (hub w2) = enqueue c (unregister (hub w)) ∧
            tables w2 = tables w).
Proof.
  intros Hcl Hrun.
  destruct (WritePump_Returned _ _ _ _ Hrun) as (w0 & Hh0 & Hg0 & Hk0 & Hd).
  destruct (Hk0 c cl Hcl) as (cl0 & Hcl0 & _ & _ & Hq0).
  assert (w1 = emit (EvCancel c)
                 (store c (set_ctx true (set_conn (Conn_Close (conn cl0)) cl0))
                    (emit (EvConnClose c)
                       (store c (set_conn (Conn_Close (conn cl0)) cl0) w0))))
    as Hw1.
  { unfold WritePump_defer, deref in Hd. rewrite Hcl0 in Hd. simpl in Hd.
    rewrite lookup_insert_eq in Hd. simpl in Hd. by injection Hd as <-. }
  assert (hub w1 = hub w) as Hh1 by (by rewrite Hw1).
  assert (heap w1 !! c
          = Some (set_ctx true (set_conn (Conn_Close (conn cl0)) cl0))) as Hcl1
    by (rewrite Hw1; apply lookup_insert_eq).
  split; [done|]. split; [by rewrite Hw1|]. split.
  - eexists. split; [exact Hcl1|]. by split_and!.
  - intros inp Hopen Hfull.
    destruct (step_ReadPump_cancelled c inp w1 _ Hcl1)
      as (w2 & H2 & Hu & Ht & _); [done|by rewrite Hh1..|].
    exists w2. split; [done|]. rewrite Hu, Ht, Hh1. split; [done|].
    unfold tables. by rewrite Hh1.
Qed.

(** What [unregisterClient] does for a registered client of a well-formed
    hub. *)
Lemma unregisterClient_removes c w cl :
  tables_inv w → heap w !! c = Some cl →
  member (clients (hub w)) (userID cl) c → closed (send cl) = false →
  ∃ w', unregisterClient c w = Ok w' ∧
    (∀ u, ¬ member (clients (hub w')) u c) ∧
    (∀ r, ¬ member (conversations (hub w')) r c) ∧
    (∀ u c', c' ≠ c →
       member (clients (hub w')) u c' ↔ member (clients (hub w)) u c') ∧
    (∀ r c', c' ≠ c →
       member (conversations (hub w')) r c' ↔ member (conversations (hub w)) r c') ∧
    heap w' = <[c := set_send (Chan (buf (send cl)) (cap (send cl)) true) cl]>
                (heap w) ∧
    trace w' = trace w ++ [EvClose c] ∧ goroutines w' = goroutines w.
Proof.
  intros Hinv Hcl (s & Hs & Hin) Hopen.
  destruct (unregisterClient_total c w cl Hcl Hopen) as [w' Hun].
  exists w'. split; [done|].
  destruct (unregisterClient_registered c w w' cl s Hcl Hs Hin Hun)
    as (Hheap & _ & Htr & Hg).
  destruct (unregisterClient_Ok _ _ _ Hun) as (cl1 & Hcl1 & Hmc & Hmv & _).
  rewrite Hcl in Hcl1. injection Hcl1 as <-.
  split_and!; try done.
  - intros u [Hm Hn]%Hmc. apply Hn. split; [|done].
    destruct (inv_identity _ Hinv u c Hm) as (cl1 & Hcl1 & <-). congruence.
  - intros r [Hm Hn]%Hmv. apply Hn.
    destruct (inv_room _ Hinv r c Hm) as (cl1 & Hcl1 & <- & ? & _).
    split_and!; try done; congruence.
  - intros u c' Hne. rewrite Hmc. split; [tauto|]. intros ?. split; [done|].
    by intros [_ ?].
  - intros r c' Hne. rewrite Hmv. split; [tauto|]. intros ?. split; [done|].
    by intros (_ & ? & _).
Qed.

(** X12. [Close] cancels the context of the client and closes its
    connection; it leaves the queue and the tables as they are, so the
    client is still registered when it returns. The read pump then returns
    at its next iteration and submits the client, and when the loop takes
    that command the client is in neither table and its queue is closed,
    what was queued still in it for the write pump. *)
Theorem close_leads_to_unregistration c w cl :
  tables_inv w → heap w !! c = Some cl →
  member (clients (hub w)) (userID cl) c → closed (send cl) = false →
  buf (unregister (hub w)) = [] → closed (unregister (hub w)) = false →
  chan_full (unregister (hub w)) = false →
  ∃ w1, Client_Close c w = Ok w1 ∧ tables w1 = tables w ∧
    (∃ cl1, heap w1 !! c = Some cl1 ∧ ctx cl1 = true ∧
       conn_closed (conn cl1) = true ∧ send cl1 = send cl) ∧
    ∀ inp, ∃ w3,
      steps [LReadPump c inp; LLoop SelUnregister] w1 = Ok w3 ∧
      (∀ u, ¬ member (clients (hub w3)) u c) ∧
      (∀ r, ¬ member (conversations (hub w3)) r c) ∧
      ∃ cl3, heap w3 !! c = Some cl3 ∧ closed (send cl3) = true ∧
        buf (send cl3) = buf (send cl).
Proof.
  intros Hinv Hcl Hm Hopen Hbuf Huopen Hfull.
  set (cl1 := set_conn (Conn_Close (conn cl)) (set_ctx true cl)).
  set (w1 := emit (EvConnClose c) (store c cl1
               (emit (EvCancel c) (store c (set_ctx true cl) w)))).
  assert (Client_Close c w = Ok w1) as Hclose.
  { unfold Client_Close, deref. rewrite Hcl. simpl. by rewrite lookup_insert_eq. }
  assert (heap w1 !! c = Some cl1) as Hcl1 by apply lookup_insert_eq.
  exists w1. split; [done|]. split; [done|].
  split; [by exists cl1|]. intros inp.
  destruct (step_ReadPump_cancelled c inp w1 cl1 Hcl1)
    as (w2 & H2 & Hu & Ht & _ & Hh2); [done..|].
  assert (unregister (hub w2) = Chan [c] (cap (unregister (hub w))) false) as Hu'.
  { rewrite Hu. unfold enqueue. simpl. by rewrite Hbuf, Huopen. }
  set (cl2 := set_ctx true (set_conn (Conn_Close (conn cl1)) cl1)) in *.
  set (ch := Chan (A := positive) [] (cap (unregister (hub w))) false).
  set (w2' := set_unregister ch w2).
  assert (heap w2' !! c = Some cl2) as Hcl2
    by (simpl; rewrite Hh2; apply lookup_insert_eq).
  assert (tables w2' = tables w) as Ht2.
  { change (tables w2') with (tables w2). by rewrite Ht. }
  assert (tables_inv w2') as Hinv2.
  { eapply tables_inv_frame; [exact Hinv| |done].
    intros x clx Hx. simpl. rewrite Hh2. unfold w1. simpl.
    destruct (decide (x = c)) as [->|Hne].
    - rewrite lookup_insert_eq. rewrite Hcl in Hx. injection Hx as <-.
      by eexists.
    - rewrite !lookup_insert_ne by done. by exists clx. }
  destruct (unregisterClient_removes c w2' cl2 Hinv2 Hcl2)
    as (w3 & H3 & Hnc & Hnv & _ & _ & Hh3 & _); [|done|].
  { assert (clients (hub w2') = clients (hub w)) as -> by (by injection Ht2).
    exact Hm. }
  exists w3. split.
  - simpl in H2. simpl. rewrite H2. simpl. rewrite Hu'.
    unfold chan_recv. simpl. unfold w2', ch in H3. by rewrite H3.
  - split; [done|]. split; [done|]. eexists. rewrite Hh3, lookup_insert_eq.
    by split.
Qed.

(** ** Who a delivery touches *)

Lemma for_range_deliver_effect spawn data x l w w' :
  NoDup l → for_range (deliver_one spawn data x) l w = Ok w' →
  hub w' = hub w ∧
  (∀ c, c ∉ l ∨ x = Some c → heap w' !! c = heap w !! c) ∧
  (∀ c, c ∈ l → x ≠ Some c →
     ∃ cl, heap w !! c = Some cl ∧ closed (send cl) = false ∧
       heap w' !! c
       = Some (if chan_full (send cl) then cl
               else set_send (enqueue data (send cl)) cl)).
Proof.
  intros Hnd H.
  destruct (for_range_deliver _ _ _ _ _ _ Hnd H)
    as (Hhub & evs & gs & _ & _ & _ & _ & _ & Hk & Ha).
  split; [done|]. split; [done|]. intros c Hin Hx.
  destruct (Ha c Hin Hx) as (cl & Hcl & Hopen & Hif). exists cl.
  split; [done|]. split; [done|]. by destruct (chan_full (send cl)); destruct Hif.
Qed.

Lemma broadcastMessage_effect b w w' :
  broadcastMessage b w = Ok w' →
  hub w' = hub w ∧
  (∀ c, ¬ member (conversations (hub w)) (ConversationID b) c ∨
        ExcludeClient b = Some c ∨ marshal (Message_ b) = None →
        heap w' !! c = heap w !! c) ∧
  (∀ data c, marshal (Message_ b) = Some data →
     member (conversations (hub w)) (ConversationID b) c →
     ExcludeClient b ≠ Some c →
     ∃ cl, heap w !! c = Some cl ∧ closed (send cl) = false ∧
       heap w' !! c
       = Some (if chan_full (send cl) then cl
               else set_send (enqueue data (send cl)) cl)).
Proof.
  unfold broadcastMessage, member.
  destruct (marshal (Message_ b)) as [data|] eqn:Hdata;
    [|intros [= <-]; split_and!; try done].
  simpl. destruct (conversations (hub w) !! ConversationID b) as [cs|] eqn:Hcs.
  - rewrite broadcast_one_deliver. intros H.
    destruct (for_range_deliver_effect _ _ _ _ _ _ (NoDup_elements cs) H)
      as (Hhub & Hk & Ha).
    split; [done|]. split.
    + intros c [Hn|[Hx|?]]; [| |done]; apply Hk; [|by right].
      left. intros Hin%elem_of_elements. apply Hn. by exists cs.
    + intros data' c [= <-] (s & [= <-] & Hin) Hx.
      apply (Ha c); [by apply elem_of_elements|done].
  - intros [= <-]. split_and!; try done. by intros ? ? _ (? & ? & _).
Qed.

Lemma BroadcastToUser_effect uid m w w' :
  BroadcastToUser uid m w = Ok w' →
  hub w' = hub w ∧
  (∀ c, ¬ member (clients (hub w)) uid c ∨ marshal m = None →
        heap w' !! c = heap w !! c) ∧
  (∀ data c, marshal m = Some data → member (clients (hub w)) uid c →
     ∃ cl, heap w !! c = Some cl ∧ closed (send cl) = false ∧
       heap w' !! c
       = Some (if chan_full (send cl) then cl
               else set_send (enqueue data (send cl)) cl)).
Proof.
  unfold BroadcastToUser, member.
  destruct (marshal m) as [data|] eqn:Hdata;
    [|intros [= <-]; split_and!; try done].
  simpl. destruct (clients (hub w) !! uid) as [cs|] eqn:Hcs.
  - rewrite (for_range_ext _ (deliver_one false data None))
      by (intros; apply user_one_deliver).
    intros H.
    destruct (for_range_deliver_effect _ _ _ _ _ _ (NoDup_elements cs) H)
      as (Hhub & Hk & Ha).
    split; [done|]. split.
    + intros c [Hn|?]; [|done]. apply Hk.
      left. intros Hin%elem_of_elements. apply Hn. by exists cs.
    + intros data' c [= <-] (s & [= <-] & Hin).
      apply (Ha c); [by apply elem_of_elements|done].
  - intros [= <-]. split_and!; try done. by intros ? ? _ (? & ? & _).
Qed.

(** X13. A broadcast to a room changes no client outside the room, and a
    direct delivery to an identity changes no client of another identity;
    what they change of a recipient is its queue, by one item at the tail,
    and they never change the tables. [SendToClient] changes its target
    only. On a well-formed hub a broadcast to the room [uuid.Nil], the room
    of a client without a room, changes no client at all. *)
Theorem deliveries_touch_their_recipients_only :
  (∀ b w w', broadcastMessage b w = Ok w' →
     tables w' = tables w ∧
     (∀ c, ¬ member (conversations (hub w)) (ConversationID b) c →
           heap w' !! c = heap w !! c) ∧
     (∀ c cl, heap w !! c = Some cl →
        ∃ cl', heap w' !! c = Some cl' ∧ cl' = set_send (send cl') cl ∧
          (send cl' = send cl ∨ ∃ data, send cl' = enqueue data (send cl))) ∧
     (tables_inv w → ConversationID b = uuid_Nil → heap w' = heap w)) ∧
  (∀ uid m w w', BroadcastToUser uid m w = Ok w' →
     tables w' = tables w ∧
     (∀ c, ¬ member (clients (hub w)) uid c → heap w' !! c = heap w !! c) ∧
     (∀ c cl, heap w !! c = Some cl →
        ∃ cl', heap w' !! c = Some cl' ∧ cl' = set_send (send cl') cl ∧
          (send cl' = send cl ∨ ∃ data, send cl' = enqueue data (send cl)))) ∧
  (∀ c m w e w' c', SendToClient c m w = Ok (e, w') →
     tables w' = tables w ∧ (c' ≠ c → heap w' !! c' = heap w !! c')).
Proof.
  assert (∀ cl : Client, cl = set_send (send cl) cl) as Hself by by intros [].
  split; [|split].
  - intros b w w' H. destruct (broadcastMessage_effect _ _ _ H) as (Hhub & Hk & Ha).
    split; [unfold tables; by rewrite Hhub|]. split; [intros c ?; apply Hk; by left|].
    split.
    + intros c cl Hcl. destruct (marshal (Message_ b)) as [data|] eqn:Hdata.
      2: { exists cl. rewrite Hk by auto. split_and!; auto. }
      destruct (decide (c ∈ GetConversationClients (ConversationID b) w
                        ∧ ExcludeClient b ≠ Some c)) as [[Hin Hx]|Hn].
      * apply elem_of_GetConversationClients in Hin.
        destruct (Ha data c eq_refl Hin Hx) as (cl0 & Hcl0 & _ & ->).
        rewrite Hcl in Hcl0. injection Hcl0 as <-.
        destruct (chan_full (send cl)); eexists; (split; [done|]);
          simpl; (split; [by destruct cl|eauto]).
      * exists cl. rewrite Hk; [split_and!; auto|].
        destruct (decide (ExcludeClient b = Some c)); [auto|]. left.
        intros Hm%elem_of_GetConversationClients. by apply Hn.
    + intros Hinv Hnil. apply map_eq. intros c. apply Hk. left.
      intros Hm. destruct (inv_room _ Hinv _ _ Hm) as (_ & _ & _ & Hne & _).
      by rewrite Hnil in Hne.
  - intros uid m w w' H. destruct (BroadcastToUser_effect _ _ _ _ H) as (Hhub & Hk & Ha).
    split; [unfold tables; by rewrite Hhub|]. split; [intros c ?; apply Hk; by left|].
    intros c cl Hcl. destruct (marshal m) as [data|] eqn:Hdata.
    2: { exists cl. rewrite Hk by auto. split_and!; auto. }
    destruct (decide (c ∈ GetUserClients uid w)) as [Hin|Hn].
    + apply elem_of_GetUserClients in Hin.
      destruct (Ha data c eq_refl Hin) as (cl0 & Hcl0 & _ & ->).
      rewrite Hcl in Hcl0. injection Hcl0 as <-.
      destruct (chan_full (send cl)); eexists; (split; [done|]);
        simpl; (split; [by destruct cl|eauto]).
    + exists cl. rewrite Hk; [split_and!; auto|]. left.
      intros Hm%elem_of_GetUserClients. by apply Hn.
  - intros c m w e w' c' H. split.
    + unfold tables. by rewrite (SendToClient_hub _ _ _ _ _ H).
    + intros Hne. unfold SendToClient in H. res_inv; simpl; try done.
      by rewrite lookup_insert_ne.
Qed.

(** ** The capacity of a queue *)

Lemma drain_cap n (ch ch' : chan bytes) acc payload :
  drain n ch acc = Ok (payload, ch') → cap ch' = cap ch.
Proof.
  revert ch acc. induction n as [|n IH]; intros ch acc; simpl.
  - by intros [= _ <-].
  - intros H. apply bind_Ok in H as ([r ch1] & H1 & H).
    apply IH in H. rewrite H. unfold chan_recv in H1.
    destruct (buf ch); [destruct (closed ch); [|done]|]; by injection H1 as _ <-.
Qed.

Lemma step_fifo_cap l w w1 c cl R :
  fifo_label c l → step l w = Ok w1 → member_ok c cl R w →
  ∀ cl1, heap w1 !! c = Some cl1 → cap (send cl1) = cap (send cl).
Proof.
  destruct l as [[]|i|c0|conv m x|uid m|c0 m| |c0 inp|c0 [|[] []|]|d]; simpl;
    try done; intros Hl H [Hcl Hopen Hconn Hmem Honly] cl1 Hcl1.
  - destruct (chan_recv (broadcast (hub w))) as [[[b|] ch]| |] eqn:Hrecv;
      simpl in H; try done.
    destruct (broadcastMessage_effect _ _ _ H) as (_ & Hk & Ha).
    destruct (marshal (Message_ b)) as [data|] eqn:Hdata.
    2: { rewrite Hk in Hcl1 by auto. simpl in Hcl1. congruence. }
    destruct (decide (c ∈ GetConversationClients (ConversationID b) w
                      ∧ ExcludeClient b ≠ Some c)) as [[Hin Hx]|Hn].
    + apply elem_of_GetConversationClients in Hin.
      destruct (Ha data c eq_refl Hin Hx) as (cl0 & Hcl0 & _ & Hcl').
      simpl in Hcl0. rewrite Hcl in Hcl0. injection Hcl0 as <-.
      rewrite Hcl1 in Hcl'. injection Hcl' as ->.
      by destruct (chan_full (send cl)).
    + rewrite Hk in Hcl1; [simpl in Hcl1; congruence|].
      destruct (decide (ExcludeClient b = Some c)); [auto|]. left.
      intros Hm. apply Hn. split; [|done].
      by apply elem_of_GetConversationClients.
  - unfold BroadcastToConversation in H. res_inv. simpl in Hcl1. congruence.
  - subst c0. revert H. unfold WritePump_iter, deref. rewrite Hcl. simpl.
    intros H. apply bind_Ok in H as ([st w2] & H & H2).
    apply bind_Ok in H as ([r ch] & Hr & H).
    assert (cap ch = cap (send cl)) as Hcap.
    { unfold chan_recv in Hr. destruct (buf (send cl));
        [destruct (closed (send cl)); [|done]|]; by injection Hr as _ <-. }
    destruct r as [message|].
    + rewrite Hconn in H. simpl in H.
      apply bind_Ok in H as ([payload ch'] & Hd & [= <- <-]).
      injection H2 as <-. simpl in Hcl1. rewrite lookup_insert_eq in Hcl1.
      injection Hcl1 as <-. simpl. rewrite (drain_cap _ _ _ _ _ Hd). done.
    + unfold chan_recv in Hr. destruct (buf (send cl)); [|done].
      by rewrite Hopen in Hr.
Qed.

Lemma step_no_drop l w w1 c cl R :
  fifo_label c l → step l w = Ok w1 → member_ok c cl R w →
  (length (buf (send cl)) + length (pending c R w) ≤ cap (send cl))%nat →
  EvFull c ∉ drop (length (trace w)) (trace w1).
Proof.
  destruct l as [[]|i|c0|conv m x|uid m|c0 m| |c0 inp|c0 [|[] []|]|d]; simpl;
    try done; intros Hl H [Hcl Hopen Hconn Hmem Honly] Hfit.
  - destruct (chan_recv (broadcast (hub w))) as [[[b|] ch]| |] eqn:Hrecv;
      simpl in H; try done.
    unfold chan_recv in Hrecv.
    destruct (buf (broadcast (hub w))) as [|b0 rest] eqn:Hbuf;
      [by destruct (closed (broadcast (hub w)))|].
    injection Hrecv as <- <-.
    revert H. unfold broadcastMessage. simpl.
    destruct (marshal (Message_ b0)) as [data|] eqn:Hdata.
    2: { intros [= <-]. simpl. rewrite drop_app_length.
         by intros [=]%list_elem_of_singleton. }
    destruct (conversations (hub w) !! ConversationID b0) as [cs|] eqn:Hcs.
    2: { intros [= <-]. simpl. rewrite drop_app_length.
         by intros [=]%list_elem_of_singleton. }
    rewrite broadcast_one_deliver. intros H Hfull.
    pose proof (for_range_deliver _ _ _ _ _ _ (NoDup_elements cs) H)
      as (_ & evs & _ & Htr & _).
    destruct (for_range_deliver_dropped _ _ _ _ _ _ c (NoDup_elements cs) H)
      as (Hin & Hx & cl0 & Hcl0 & Hf).
    { rewrite Htr, drop_app_length. rewrite Htr in Hfull. simpl in Hfull.
      rewrite <- app_assoc, drop_app_length in Hfull.
      apply elem_of_cons in Hfull as [[=]|?]. done. }
    simpl in Hcl0. rewrite Hcl in Hcl0. injection Hcl0 as <-.
    apply elem_of_elements in Hin.
    assert (ConversationID b0 = R) as HR by (apply Honly; by exists cs).
    assert (for_member c R b0 = Some data) as Hfor
      by (unfold for_member; by rewrite decide_True).
    unfold pending in Hfit. rewrite Hbuf in Hfit. simpl in Hfit.
    rewrite Hfor in Hfit. simpl in Hfit.
    unfold chan_full, chan_len in Hf. apply bool_decide_eq_true in Hf. lia.
  - unfold BroadcastToConversation in H. res_inv. simpl.
    rewrite drop_all. apply not_elem_of_nil.
  - subst c0. revert H. unfold WritePump_iter, deref. rewrite Hcl. simpl.
    unfold chan_recv. destruct (send cl) as [b n x] eqn:Hsend. simpl in *.
    subst x. destruct b as [|message rest]; [done|]. simpl.
    rewrite Hconn. simpl. unfold chan_len. simpl. rewrite drain_all. simpl.
    intros [= <-]. simpl. rewrite drop_all. apply not_elem_of_nil.
Qed.

(** X14. While what is queued for a member, what the hub has still to
    process for it and what the callers submit for it fit in its queue, no
    broadcast finds the queue full: nothing is dropped for the member, and
    the backlog still fits at the end of the run. With the 256 slots
    [NewClient] gives a queue, a member whose write pump never runs is sent
    256 events without a drop. *)
Theorem no_drop_while_backlog_fits ls w w' c cl R :
  Forall (fifo_label c) ls →
  steps ls w = Ok w' →
  member_ok c cl R w →
  (length (buf (send cl) ++ pending c R w ++ omap (for_member c R) (calls ls))
   ≤ cap (send cl))%nat →
  (EvFull c ∉ drop (length (trace w)) (trace w')) ∧
  ∃ cl', heap w' !! c = Some cl' ∧ closed (send cl') = false ∧
    cap (send cl') = cap (send cl) ∧
    (length (buf (send cl')) + length (pending c R w') ≤ cap (send cl))%nat.
Proof.
  intros Hls. revert w cl.
  induction Hls as [|l ls Hl Hls IH]; intros w cl H Hok Hfit; simpl in H.
  - injection H as <-. split; [rewrite drop_all; apply not_elem_of_nil|].
    exists cl. destruct Hok. split_and!; try done.
    rewrite !length_app in Hfit. lia.
  - apply bind_Ok in H as (w1 & H1 & H2).
    replace (calls (l :: ls)) with (calls [l] ++ calls ls) in Hfit
      by (unfold calls; simpl; by destruct l).
    rewrite omap_app, !length_app in Hfit.
    destruct (step_trace_extends _ _ _ _ Hl H1) as [e1 He1].
    destruct (steps_trace_extends _ _ _ _ Hls H2) as [e2 He2].
    pose proof (step_no_drop _ _ _ _ _ _ Hl H1 Hok) as Hr1.
    destruct (step_fifo _ _ _ _ _ _ Hl H1 Hok) as (cl1 & ch1 & Hok1 & _ & _ & Hs1);
      [apply Hr1; lia|].
    pose proof (step_fifo_cap _ _ _ _ _ _ Hl H1 Hok cl1 (mo_heap _ _ _ _ Hok1))
      as Hcap1.
    apply (f_equal length) in Hs1. rewrite !length_app in Hs1.
    destruct (IH w1 cl1 H2 Hok1) as (Hr2 & cl' & Hcl' & Hopen' & Hcap' & Hfit');
      [rewrite !length_app, Hcap1; lia|].
    split.
    + rewrite He2, He1, <- app_assoc, drop_app_length.
      apply not_elem_of_app. split.
      * rewrite He1, drop_app_length in Hr1. apply Hr1. lia.
      * by rewrite He2, drop_app_length in Hr2.
    + exists cl'. split_and!; try done; congruence.
Qed.

(** ** Registering again, and registering then unregistering *)

Lemma tables_ext (t1 t2 : gmap UUID (gset ptr)) :
  no_empty t1 → no_empty t2 →
  (∀ k, default ∅ (t1 !! k) = default ∅ (t2 !! k)) → t1 = t2.
Proof.
  intros H1 H2 Heq. apply map_eq. intros k. specialize (Heq k).
  destruct (t1 !! k) as [s1|] eqn:E1, (t2 !! k) as [s2|] eqn:E2;
    simpl in Heq; try done.
  - by rewrite Heq.
  - by destruct (H1 k s1 E1).
  - by destruct (H2 k s2 E2).
Qed.

Lemma union_remove (s : gset ptr) c : c ∉ s → ({[c]} ∪ s) ∖ {[c]} = s.
Proof. set_solver. Qed.

Lemma remove_absent (s : gset ptr) c : c ∉ s → s ∖ {[c]} = s.
Proof. set_solver. Qed.

Lemma table_add_twice k c t : table_add k c (table_add k c t) = table_add k c t.
Proof.
  unfold table_add. rewrite lookup_insert_eq, insert_insert_eq. simpl.
  f_equal. set_solver.
Qed.

(** X15. Registering a client that is registered changes nothing, and on
    a well-formed hub registering a client that was not registered and then
    unregistering it gives back the two tables as they were, with the queue
    of the client closed. *)
Theorem register_twice_and_register_then_unregister :
  (∀ c w w1, registerClient c w = Ok w1 → registerClient c w1 = Ok w1) ∧
  (∀ c w cl w1 w2,
     tables_inv w → heap w !! c = Some cl →
     (∀ u, ¬ member (clients (hub w)) u c) →
     registerClient c w = Ok w1 → unregisterClient c w1 = Ok w2 →
     tables w2 = tables w ∧
     ∃ cl2, heap w2 !! c = Some cl2 ∧ closed (send cl2) = true ∧
       buf (send cl2) = buf (send cl)).
Proof.
  split.
  - intros c w w1 (cl & Hcl & ->)%registerClient_Ok.
    apply registerClient_Ok. exists cl. split; [done|]. simpl.
    rewrite table_add_twice. unfold set_tables, set_hub. simpl.
    case_decide; [by rewrite table_add_twice|done].
  - intros c w cl w1 w2 Hinv Hcl Hnew Hreg Hun.
    pose proof (registerClient_inv _ _ _ Hinv Hreg) as Hinv1.
    pose proof (unregisterClient_inv _ _ _ Hinv1 Hun) as Hinv2.
    apply registerClient_Ok in Hreg as (cl' & Hcl' & ->).
    rewrite Hcl in Hcl'. injection Hcl' as <-.
    assert (∀ r, ¬ member (conversations (hub w)) r c) as Hnewr.
    { intros r Hm. destruct (inv_room _ Hinv r c Hm) as (cl' & _ & _ & _ & Hm').
      by apply (Hnew (userID cl')). }
    destruct (unregisterClient_sets _ _ _ cl Hinv1 Hcl Hun) as [Hcs Hcv].
    split.
    + unfold tables. f_equal.
      * apply tables_ext; [apply Hinv2|apply Hinv|]. intros u.
        rewrite Hcs. simpl. rewrite lookup_table_add.
        pose proof (Hnew u) as Hu. rewrite member_default in Hu.
        destruct (decide (u = userID cl)) as [->|Hd];
          [by apply union_remove|by apply remove_absent].
      * apply tables_ext; [apply Hinv2|apply Hinv|]. intros r.
        rewrite Hcv. simpl.
        pose proof (Hnewr r) as Hr. rewrite member_default in Hr.
        destruct (decide (conversationID cl ≠ uuid_Nil));
          [|by apply remove_absent].
        rewrite lookup_table_add.
        destruct (decide (r = conversationID cl)) as [->|Hd];
          [by apply union_remove|by apply remove_absent].
    + set (w1 := set_tables _ _ w) in Hun.
      destruct (unregisterClient_heap c w1 w2 cl Hcl Hun)
        as [[Hn _]|(_ & _ & ->)].
      * destruct Hn. simpl. apply member_table_add. by left.
      * simpl. rewrite lookup_insert_eq. by eexists.
Qed.

(** ** The helpers of the chat handler *)

Lemma string_length_app (a b : string) :
  String.length (a +:+ b) = (String.length a + String.length b)%nat.
Proof. induction a as [|x a IH]; simpl; [done|]. by rewrite IH. Qed.

Lemma length_substring_0 (m : nat) (s : string) :
  (m ≤ String.length s)%nat → String.length (String.substring 0 m s) = m.
Proof.
  revert m. induction s as [|x s IH]; intros [|m]; simpl; try done; try lia.
  intros Hm. rewrite IH; [done|lia].
Qed.

Lemma substring_0_app (a b : string) :
  String.substring 0 (String.length a) (a +:+ b) = a.
Proof. induction a as [|x a IH]; simpl; [by destruct b|]. by rewrite IH. Qed.

Lemma truncate_long s maxLen :
  0 ≤ maxLen → maxLen < Z.of_nat (String.length s) →
  truncate s maxLen = Ok (String.substring 0 (Z.to_nat maxLen) s +:+ "...") ∧
  String.length (String.substring 0 (Z.to_nat maxLen) s) = Z.to_nat maxLen.
Proof.
  intros H0 Hlt. unfold truncate.
  rewrite decide_False by lia. rewrite decide_False by lia. split; [done|].
  apply length_substring_0. lia.
Qed.

(** X16. [truncate] returns a string of at most [maxLen] bytes as it is,
    and cuts a longer one to its first [maxLen] bytes followed by three
    dots, so the result has at most [maxLen + 3] bytes; truncating the
    result again gives the result; a negative [maxLen] makes the slice
    expression panic, whatever the string. [generateMockResponse] quotes at
    most 53 bytes of its input and does not panic. *)
Theorem truncate_bounds_and_is_idempotent s maxLen :
  (maxLen < 0 → truncate s maxLen = Panic "slice bounds out of range") ∧
  (0 ≤ maxLen →
   ∃ t, truncate s maxLen = Ok t ∧
     Z.of_nat (String.length t) ≤ maxLen + 3 ∧
     (Z.of_nat (String.length s) ≤ maxLen → t = s) ∧
     (maxLen < Z.of_nat (String.length s) →
      t = String.substring 0 (Z.to_nat maxLen) s +:+ "..." ∧
      Z.of_nat (String.length t) = maxLen + 3) ∧
     truncate t maxLen = Ok t) ∧
  (∃ t, truncate s 50 = Ok t ∧
     generateMockResponse s
     = Ok ("I received your message: '" +:+ t +:+
           "'. I'm an AI assistant helping you create UGC ad content. How can I assist you with your product advertisement needs?") ∧
     (String.length t ≤ 53)%nat).
Proof.
  assert (0 ≤ maxLen →
    ∃ t, truncate s maxLen = Ok t ∧
     Z.of_nat (String.length t) ≤ maxLen + 3 ∧
     (Z.of_nat (String.length s) ≤ maxLen → t = s) ∧
     (maxLen < Z.of_nat (String.length s) →
      t = String.substring 0 (Z.to_nat maxLen) s +:+ "..." ∧
      Z.of_nat (String.length t) = maxLen + 3) ∧
     truncate t maxLen = Ok t) as Hpos.
  { intros H0. destruct (decide (Z.of_nat (String.length s) ≤ maxLen)) as [Hle|Hgt].
    - exists s. unfold truncate. rewrite decide_True by done.
      split_and!; try done; lia.
    - destruct (truncate_long s maxLen) as [Ht Hlen]; [lia..|].
      eexists. split; [exact Ht|].
      assert (Z.of_nat (String.length
                (String.substring 0 (Z.to_nat maxLen) s +:+ "...")) = maxLen + 3)
        as Hlen'.
      { rewrite string_length_app, Hlen. simpl. lia. }
      split_and!; try done; try lia.
      destruct (truncate_long (String.substring 0 (Z.to_nat maxLen) s +:+ "...")
                  maxLen) as [Ht2 _]; [lia..|].
      rewrite Ht2. do 2 f_equal. rewrite <- Hlen at 1. apply substring_0_app. }
  split; [|split; [exact Hpos|]].
  - intros Hneg. unfold truncate. rewrite decide_False by lia.
    by rewrite decide_True.
  - clear Hpos.
    destruct (decide (Z.of_nat (String.length s) ≤ 50)) as [Hle|Hgt].
    + exists s. unfold generateMockResponse, truncate.
      rewrite decide_True by done. split_and!; try done. lia.
    + destruct (truncate_long s 50) as [Ht Hlen]; [lia..|].
      eexists. unfold generateMockResponse. rewrite Ht. split_and!; try done.
      rewrite string_length_app, Hlen. simpl. lia.
Qed.

(** ** When the loop returns *)

Lemma Run_case_hub_ctx s w w' :
  Run_case s w = Ok w' → hub_ctx (hub w') = hub_ctx (hub w).
Proof.
  destruct s; simpl; try done.
  - intros H. apply bind_Ok in H as ([[c|] ch] & _ & H); [|done].
    by apply registerClient_Ok in H as (cl & _ & ->).
  - intros H. apply bind_Ok in H as ([[c|] ch] & _ & H); [|done].
    by destruct (unregisterClient_channels _ _ _ H) as (_ & _ & _ & -> & _).
  - intros H. apply bind_Ok in H as ([[b|] ch] & _ & H); [|done].
    by rewrite (broadcastMessage_hub _ _ _ H).
  - unfold cleanupStaleConnections. intros H.
    apply bind_Ok in H as (gs & _ & [= <-]).
    by destruct (foldl_go_unregister gs w) as (_ & -> & _).
  - by intros [= <-].
Qed.


(** ** The sweep, and the goroutines it starts *)

Lemma collect_stale_sublist t l w gs :
  collect_stale t l w = Ok gs → gs `sublist_of` l.
Proof.
  revert gs. induction l as [|c l IH]; intros gs; simpl.
  - by intros [= <-].
  - intros H. apply bind_Ok in H as (cl & _ & H).
    apply bind_Ok in H as (rest & Hrest & [= <-]).
    case_decide; [apply sublist_skip|apply sublist_cons]; by apply IH.
Qed.

Lemma foldl_go_unregister_trace l w :
  trace (foldl (λ w' c, go_unregister c w') w l) = trace w ++ map EvGo l.
Proof.
  revert w. induction l as [|c l IH]; intros w; simpl; [by rewrite app_nil_r|].
  rewrite IH. simpl. by rewrite <- app_assoc.
Qed.

(** The goroutines that unregister the registered clients [gs] run one
    after the other. *)
Lemma run_unregister_goroutines gs w :
  goroutines w = gs → NoDup gs →
  tables_inv w → registered_open w →
  (∀ c, c ∈ gs → ∃ u, member (clients (hub w)) u c) →
  ∃ w', steps (replicate (length gs) (LGoroutine 0)) w = Ok w' ∧
    goroutines w' = [] ∧ now w' = now w ∧
    trace w' = trace w ++ map EvClose gs ∧
    (∀ u c, member (clients (hub w')) u c ↔
            member (clients (hub w)) u c ∧ c ∉ gs) ∧
    (∀ r c, member (conversations (hub w')) r c ↔
            member (conversations (hub w)) r c ∧ c ∉ gs) ∧
    (∀ c, c ∈ gs → ∃ cl cl', heap w !! c = Some cl ∧ heap w' !! c = Some cl' ∧
                     closed (send cl') = true ∧ buf (send cl') = buf (send cl)) ∧
    (∀ c, c ∉ gs → heap w' !! c = heap w !! c).
Proof.
  revert w. induction gs as [|c gs IH]; intros w Hg Hnd Hinv Hopen Hreg; simpl.
  - exists w. rewrite app_nil_r. split_and!; try done.
    + intros u c. split; [|tauto]. intros ?. split; [done|apply not_elem_of_nil].
    + intros r c. split; [|tauto]. intros ?. split; [done|apply not_elem_of_nil].
    + intros c Hc. by apply elem_of_nil in Hc.
  - apply NoDup_cons in Hnd as [Hnin Hnd]. rewrite Hg. simpl.
    set (w0 := set_goroutines gs w).
    destruct (Hreg c) as [u Hm]; [by left|].
    destruct (Hopen u c Hm) as (cl & Hcl & <- & Hq).
    assert (tables_inv w0) as Hinv0 by (by apply (tables_inv_heap_hub w)).
    destruct (unregisterClient_removes c w0 cl Hinv0 Hcl Hm Hq) as
      (w1 & H1 & Hnc & Hnv & Hoc & Hov & Hh & Htr & Hg1).
    rewrite H1. simpl.
    destruct (IH w1) as (w' & H' & Hg' & Hnow & Htr' & Hc' & Hv' & Hcl' & Hk');
      try done.
    { by eapply unregisterClient_inv. }
    { intros u' c' Hm'. destruct (decide (c' = c)) as [->|Hne];
        [by destruct (Hnc u')|].
      apply Hoc in Hm'; [|done]. destruct (Hopen u' c' Hm') as (cl' & ? & ? & ?).
      exists cl'. rewrite Hh. simpl. by rewrite lookup_insert_ne. }
    { intros c' Hc'. destruct (Hreg c') as [u' Hm']; [by right|].
      exists u'. apply Hoc; [|done]. intros ->. done. }
    exists w'. split; [done|]. split; [done|].
    split; [rewrite Hnow; by destruct (unregisterClient_channels _ _ _ H1)
              as (_ & _ & _ & _ & _ & ->)|].
    split; [rewrite Htr', Htr; simpl; by rewrite <- app_assoc|].
    split_and!.
    + intros u' c'. rewrite Hc', not_elem_of_cons. split.
      * intros [Hm' Hn]. destruct (decide (c' = c)) as [->|Hne];
          [by destruct (Hnc u')|].
        split; [|done]. by apply (Hoc u' c' Hne).
      * intros [Hm' [Hne Hn]]. split; [|done]. by apply Hoc.
    + intros r c'. rewrite Hv', not_elem_of_cons. split.
      * intros [Hm' Hn]. destruct (decide (c' = c)) as [->|Hne];
          [by destruct (Hnv r)|].
        split; [|done]. by apply (Hov r c' Hne).
      * intros [Hm' [Hne Hn]]. split; [|done]. by apply Hov.
    + intros c' [->|Hin]%elem_of_cons.
      * exists cl. rewrite Hk' by done. rewrite Hh. simpl.
        rewrite lookup_insert_eq. eexists. by split_and!.
      * destruct (Hcl' c' Hin) as (cl1 & cl2 & Hcl1 & ? & ? & ?).
        rewrite Hh in Hcl1. simpl in Hcl1.
        rewrite lookup_insert_ne in Hcl1 by (by intros ->).
        by exists cl1, cl2.
    + intros c' [Hne Hn]%not_elem_of_cons. rewrite Hk' by done.
      rewrite Hh. simpl. by rewrite lookup_insert_ne.
Qed.

(** X19. A sweep of a well-formed hub whose registered clients have open
    queues, followed by the goroutines it started, unregisters the
    registered clients that have been silent for more than five minutes and
    no other: they are in neither table, the queue of each has been closed
    once, what was queued still in it for the write pump, and the other
    clients and their memberships are as they were. *)
Theorem sweep_unregisters_the_stale_clients w :
  tables_inv w → registered_open w → goroutines w = [] →
  ∃ w1 gs w2,
    cleanupStaleConnections w = Ok w1 ∧ goroutines w1 = gs ∧ NoDup gs ∧
    steps (replicate (length gs) (LGoroutine 0)) w1 = Ok w2 ∧
    trace w2 = trace w ++ map EvGo gs ++ map EvClose gs ∧
    (∀ c, c ∈ gs ↔ (∃ u, member (clients (hub w)) u c) ∧ stale (now w) w c) ∧
    (∀ u c, member (clients (hub w2)) u c ↔
            member (clients (hub w)) u c ∧ ¬ stale (now w) w c) ∧
    (∀ r c, member (conversations (hub w2)) r c ↔
            member (conversations (hub w)) r c ∧ ¬ stale (now w) w c) ∧
    (∀ c, c ∈ gs → ∃ cl cl', heap w !! c = Some cl ∧ heap w2 !! c = Some cl' ∧
                     closed (send cl') = true ∧ buf (send cl') = buf (send cl)) ∧
    (∀ c, c ∉ gs → heap w2 !! c = heap w !! c).
Proof.
  intros Hinv Hopen Hg.
  destruct (collect_stale_Ok (now w) (all_clients w) w) as (gs & Hgs & Hin).
  { intros c (u & Hm)%elem_of_all_clients.
    destruct (inv_identity _ Hinv u c Hm) as (cl & -> & _). done. }
  assert (NoDup gs) as Hnd.
  { eapply sublist_NoDup; [|by eapply collect_stale_sublist].
    by apply tables_inv_NoDup. }
  set (w1 := foldl (λ w' c, go_unregister c w') w gs).
  destruct (foldl_go_unregister gs w) as (Hh1 & Hb1 & Hg1).
  pose proof (foldl_go_unregister_trace gs w) as Htr1.
  assert (∀ c, c ∈ gs ↔ (∃ u, member (clients (hub w)) u c) ∧ stale (now w) w c)
    as Hin'.
  { intros c. by rewrite Hin, elem_of_all_clients. }
  destruct (run_unregister_goroutines gs w1)
    as (w2 & H2 & _ & _ & Htr2 & Hc2 & Hv2 & Hcl2 & Hk2); try done.
  { fold w1 in Hg1. by rewrite Hg1, Hg. }
  { eapply tables_inv_heap_hub; [exact Hinv|done|]. unfold tables.
    fold w1 in Hb1. by rewrite Hb1. }
  { intros u c Hm. fold w1 in Hb1, Hh1. rewrite Hb1 in Hm. rewrite Hh1.
    by apply Hopen. }
  { intros c Hc. fold w1 in Hb1. rewrite Hb1. by apply Hin'. }
  fold w1 in Hb1, Hh1, Hg1, Htr1.
  exists w1, gs, w2. unfold cleanupStaleConnections. rewrite Hgs. simpl.
  split; [done|]. split; [by rewrite Hg1, Hg|]. split; [done|].
  split; [done|]. split; [by rewrite Htr2, Htr1, <- app_assoc|].
  split; [done|]. split_and!.
  - intros u c. rewrite Hc2, Hb1, Hin'. split; [|tauto].
    intros [Hm Hn]. split; [done|]. intros Hs. apply Hn. split; [by exists u|done].
  - intros r c. rewrite Hv2, Hb1, Hin'. split; [|tauto].
    intros [Hm Hn]. split; [done|]. intros Hs. apply Hn. split; [|done].
    destruct (inv_room _ Hinv r c Hm) as (cl & _ & _ & _ & Hm').
    by exists (userID cl).
  - intros c Hc. destruct (Hcl2 c Hc) as (cl & cl' & Hcl & ?).
    rewrite Hh1 in Hcl. by exists cl, cl'.
  - intros c Hc. by rewrite Hk2, Hh1.
Qed.

(** ** The broadcasts a client submits *)

Local Abbreviation delivered := (delivered marshal).

(** A call of [BroadcastToConversation] on a hub with nothing waiting in
    its broadcast channel, and the iteration of the loop that takes it. *)
Lemma call_then_loop conv m x w :
  buf (broadcast (hub w)) = [] → closed (broadcast (hub w)) = false →
  chan_full (broadcast (hub w)) = false →
  ∃ w1, BroadcastToConversation conv m x w = Ok w1 ∧
    heap w1 = heap w ∧ tables w1 = tables w ∧
    (tables_inv w → registered_open w → is_Ok (step (LLoop SelBroadcast) w1)) ∧
    ∀ w2, step (LLoop SelBroadcast) w1 = Ok w2 → delivered conv m x w w2.
Proof.
  intros Hbuf Hopen Hfull. unfold BroadcastToConversation, chan_send.
  rewrite Hopen, Hfull. simpl. eexists. split; [done|].
  split; [done|]. split; [done|].
  unfold chan_recv, enqueue. simpl. rewrite Hbuf. simpl.
  set (w0 := set_broadcast _ _). split.
  - intros Hinv Ho. unfold broadcastMessage. simpl.
    destruct (marshal m) as [data|]; [|by eexists].
    destruct (conversations (hub w) !! conv) as [cs|] eqn:Hcs; [|by eexists].
    rewrite broadcast_one_deliver. apply for_range_deliver_total.
    intros c Hc%elem_of_elements.
    destruct (inv_room _ Hinv conv c) as (cl & _ & _ & _ & Hm); [by exists cs|].
    destruct (Ho _ _ Hm) as (cl' & Hcl' & _ & Hopen'). by exists cl'.
  - intros w2 H. destruct (broadcastMessage_effect _ _ _ H) as (Hhub & Hk & Ha).
    split; [unfold tables; by rewrite Hhub|]. split.
    + intros c Hc. rewrite Hk; [done|]. simpl. tauto.
    + intros data c Hdata Hm Hx.
      destruct (Ha data c Hdata Hm Hx) as (cl & Hcl & _ & Hcl'). by exists cl.
Qed.

(** [uuid.UUID.String()] belongs to google/uuid. *)
Variable uuid_String : UUID → string.

Local Abbreviation SendTypingIndicator := (SendTypingIndicator ofWS uuid_String).
Local Abbreviation ChatHandler_HandleTyping :=
  (ChatHandler_HandleTyping ofWS uuid_String).
Local Abbreviation typing_event := (typing_event uuid_String).

(** X17. The three broadcasts of a client go to its own room, through the
    hub's broadcast channel: none touches a queue before the loop takes it.
    The typing indicator (which [HandleTyping] sends) and
    [BroadcastToConversationExceptSelf] exclude the sender, whose queue the
    loop leaves as it was; [Client.BroadcastToConversation] excludes nobody,
    so the sender, a member of the room, gets its own event. The clients of
    the other rooms get nothing. *)
Theorem client_broadcasts_go_to_its_room c w cl :
  heap w !! c = Some cl →
  buf (broadcast (hub w)) = [] → closed (broadcast (hub w)) = false →
  chan_full (broadcast (hub w)) = false →
  (∀ isTyping, ∃ w1,
     SendTypingIndicator isTyping c w = Ok w1 ∧
     (isTyping = true → ChatHandler_HandleTyping c w = Ok (None, w1)) ∧
     heap w1 = heap w ∧ tables w1 = tables w ∧
     (tables_inv w → registered_open w → is_Ok (step (LLoop SelBroadcast) w1)) ∧
     ∀ w2, step (LLoop SelBroadcast) w1 = Ok w2 →
       heap w2 !! c = Some cl ∧
       delivered (conversationID cl) (ofWS (typing_event cl isTyping))
                 (Some c) w w2) ∧
  (∀ m, ∃ w1,
     BroadcastToConversationExceptSelf c m w = Ok w1 ∧
     heap w1 = heap w ∧ tables w1 = tables w ∧
     (tables_inv w → registered_open w → is_Ok (step (LLoop SelBroadcast) w1)) ∧
     ∀ w2, step (LLoop SelBroadcast) w1 = Ok w2 →
       heap w2 !! c = Some cl ∧
       delivered (conversationID cl) (ofWS m) (Some c) w w2) ∧
  (∀ m, ∃ w1,
     Client_BroadcastToConversation c m w = Ok w1 ∧
     heap w1 = heap w ∧ tables w1 = tables w ∧
     (tables_inv w → registered_open w → is_Ok (step (LLoop SelBroadcast) w1)) ∧
     ∀ w2, step (LLoop SelBroadcast) w1 = Ok w2 →
       delivered (conversationID cl) (ofWS m) None w w2).
Proof.
  intros Hcl Hbuf Hopen Hfull. split; [|split].
  - intros isTyping.
    destruct (call_then_loop (conversationID cl)
                (ofWS (typing_event cl isTyping)) (Some c) w Hbuf Hopen Hfull)
      as (w1 & H1 & Hh & Ht & Htot & Hd).
    exists w1.
    split; [unfold SendTypingIndicator, deref; by rewrite Hcl|].
    split.
    { intros ->. unfold ChatHandler_HandleTyping, SendTypingIndicator, deref.
      rewrite Hcl. simpl. by rewrite H1. }
    split; [done|]. split; [done|]. split; [done|].
    intros w2 H2. pose proof (Hd w2 H2) as Hdel. split; [|done].
    destruct Hdel as (_ & Hk & _). rewrite Hk; [done|by right].
  - intros m.
    destruct (call_then_loop (conversationID cl) (ofWS m) (Some c) w
                Hbuf Hopen Hfull) as (w1 & H1 & Hh & Ht & Htot & Hd).
    exists w1.
    split; [unfold BroadcastToConversationExceptSelf, deref; by rewrite Hcl|].
    split; [done|]. split; [done|]. split; [done|].
    intros w2 H2. pose proof (Hd w2 H2) as Hdel. split; [|done].
    destruct Hdel as (_ & Hk & _). rewrite Hk; [done|by right].
  - intros m.
    destruct (call_then_loop (conversationID cl) (ofWS m) None w
                Hbuf Hopen Hfull) as (w1 & H1 & Hh & Ht & Htot & Hd).
    exists w1.
    split; [unfold Client_BroadcastToConversation, deref; by rewrite Hcl|].
    by split_and!.
Qed.

End Properties.

(** * Concrete worlds

    The properties above at explicit inputs: two tabs of one user and a
    second user in room 7, a client without a room, a client whose queue is
    full, and a client that has been silent for six minutes. The broadcast
    values are [WebSocketMessage]s; the stand-in for [json.Marshal] writes
    the type and the error text, and refuses a message without a type; the
    stand-in for [json.Unmarshal] reads the payload as the type, and refuses
    the empty payload. *)

Lemma register_unregister_tables_invariant_witness :
  run_ops demo_ops demo_world = Ok (world_of (run_ops demo_ops demo_world)) ∧
  (∀ u s, clients (hub (world_of (run_ops demo_ops demo_world))) !! u = Some s →
          s ≠ ∅).
Proof.
  split; [by vm_compute|].
  apply (proj1 (register_unregister_tables_invariant demo_heap 0 demo_ops)).
  by vm_compute.
Defined.

Lemma broadcast_serialises_once_and_skips_excluded_witness :
  broadcastMessage demo_marshal demo_broadcast registered_world = Ok after_broadcast ∧
  tables after_broadcast = tables registered_world ∧
  ∃ evs, trace after_broadcast = trace registered_world ++ EvMarshal :: evs ∧
    (EvMarshal ∉ evs) ∧
    (∀ x, ExcludeClient demo_broadcast = Some x →
       heap after_broadcast !! x = heap registered_world !! x ∧
       ∀ d, EvSend x d ∉ evs) ∧
    (∀ data cs c,
       demo_marshal (Message_ demo_broadcast) = Some data →
       conversations (hub registered_world) !! ConversationID demo_broadcast = Some cs →
       c ∈ cs → ExcludeClient demo_broadcast ≠ Some c →
       attempted data c registered_world after_broadcast evs).
Proof.
  assert (broadcastMessage demo_marshal demo_broadcast registered_world
          = Ok after_broadcast) as Hrun by by vm_compute.
  split; [exact Hrun|].
  exact (proj2 (proj2 (broadcast_serialises_once_and_skips_excluded
                         demo_marshal demo_broadcast registered_world
                         after_broadcast)) Hrun).
Defined.



Lemma direct_delivery_does_not_unregister :
  (∃ cl, heap registered_world !! 5%positive = Some cl ∧
         chan_full (send cl) = true) ∧
  BroadcastToUser demo_marshal 4%N hello registered_world = Ok after_direct ∧
  EvFull 5%positive ∈ trace after_direct ∧
  goroutines after_direct = [] ∧
  ∃ w', Run demo_marshal [SelCleanupTick; SelStatsTick] after_direct
          = Ok (Running, w') ∧
    goroutines w' = [] ∧
    member (clients (hub w')) 4%N 5%positive ∧
    member (conversations (hub w')) 7%N 5%positive.
Proof.
  split; [eexists; split; by vm_compute|].
  split; [by vm_compute|].
  split; [vm_compute; apply list_elem_of_In; simpl; tauto|].
  split; [by vm_compute|].
  eexists. split; [by vm_compute|]. split; [by vm_compute|].
  split; eexists; (split; [by vm_compute|]); by vm_compute.
Qed.

Lemma registered_world_inv : tables_inv registered_world.
Proof.
  apply (run_ops_inv [OpRegister 1; OpRegister 2; OpRegister 3; OpRegister 4;
                      OpRegister 5]%positive demo_world);
    [apply fresh_world_inv|by vm_compute].
Qed.

Lemma full_queue_eviction_by_broadcast_only_witness :
  heap after_broadcast !! 5%positive = heap registered_world !! 5%positive ∧
  tables after_broadcast = tables registered_world ∧
  ∃ i, goroutines after_broadcast !! i = Some 5%positive ∧
  ∃ w'', step demo_marshal demo_unmarshal id (LGoroutine i) after_broadcast = Ok w'' ∧
    (∀ u, ¬ member (clients (hub w'')) u 5%positive) ∧
    (∀ r, ¬ member (conversations (hub w'')) r 5%positive) ∧
    ∃ cl'', heap w'' !! 5%positive = Some cl'' ∧ closed (send cl'') = true.
Proof.
  assert (heap registered_world !! 5%positive
          = Some (set_send full_chan (NewClient "slow" 4%N 7%N (Some demo_handler) 0)))
    as Hcl by by vm_compute.
  rewrite Hcl.
  refine (proj1 (full_queue_eviction_by_broadcast_only
                   demo_marshal demo_unmarshal id)
            demo_broadcast registered_world after_broadcast
            (String.list_byte_of_string "stream_start:")
            (list_to_set [1; 2; 3; 5]%positive) 5%positive _
            registered_world_inv _ _ _ _ _ Hcl _); by vm_compute.
Defined.

Lemma unregister_and_shutdown_idempotent_witness :
  unregisterClient 2%positive registered_world
    = Ok (world_of (unregisterClient 2%positive registered_world)) ∧
  unregisterClient 2%positive (world_of (unregisterClient 2%positive registered_world))
    = Ok (world_of (unregisterClient 2%positive registered_world)).
Proof.
  assert (unregisterClient 2%positive registered_world
          = Ok (world_of (unregisterClient 2%positive registered_world))) as H
    by by vm_compute.
  split; [exact H|].
  exact (proj1 unregister_and_shutdown_idempotent 2%positive _ _ H).
Defined.

Lemma frame_does_not_refresh_read_deadline :
  ReadPump_iter demo_marshal demo_unmarshal id (frame_at (30 * second) "typing")
    1%positive pump_started = Ok (Running, after_typing) ∧
  now after_typing = 30 * second ∧
  (∃ cl, heap after_typing !! 1%positive = Some cl ∧
         lastActivity cl = 30 * second ∧
         readDeadline (conn cl) = Some (60 * second) ∧
         readDeadline (conn cl) ≠ Some (now after_typing + pongWait)) ∧
  ∃ w', ReadPump_iter demo_marshal demo_unmarshal id
          (frame_at (70 * second) "typing") 1%positive after_typing
        = Ok (Returned, w') ∧ now w' = 60 * second.
Proof.
  split; [by vm_compute|]. split; [by vm_compute|]. split.
  - eexists. split; [by vm_compute|]. split; [by vm_compute|].
    split; [by vm_compute|]. vm_compute. intros [=].
  - eexists. split; by vm_compute.
Qed.

Lemma read_deadline_is_refreshed_by_pongs_only_witness :
  ∃ w0 cl0, ReadPump_setup 1%positive registered_world = Ok w0 ∧
    heap w0 !! 1%positive = Some cl0 ∧
    readDeadline (conn cl0) = Some (now registered_world + pongWait) ∧
    pongHandler (conn cl0) = true.
Proof.
  refine (proj1 (read_deadline_is_refreshed_by_pongs_only
                   demo_marshal demo_unmarshal id 1%positive registered_world
                   (NewClient "tab-1" 1%N 7%N (Some demo_handler) 0) _)).
  by vm_compute.
Defined.

Lemma client3_member_ok :
  member_ok 3%positive (NewClient "other" 2%N 7%N (Some demo_handler) 0) 7%N
            registered_world.
Proof.
  split; try by vm_compute.
  - eexists. split; by vm_compute.
  - intros r Hr. destruct (inv_room _ registered_world_inv r _ Hr)
      as (cl & Hcl & <- & _).
    vm_compute in Hcl. by injection Hcl as <-.
Qed.




(** C10 at an input: client 5, whose queue is full. *)
Lemma single_client_send_waits_and_keeps_client_registered_witness :
  SendMessage demo_marshal id false 5%positive hello registered_world =
    Ok (Some "timeout sending message to client",
        wait (5 * second) (emit EvMarshal registered_world)).
Proof.
  refine (proj1 (single_client_send_waits_and_keeps_client_registered
                   demo_marshal demo_unmarshal id false 5%positive registered_world
                   (client_of registered_world 5%positive) _ _ _ _)
            hello (String.list_byte_of_string "stream_start:") _);
    by vm_compute.
Defined.

Lemma sweep_starts_unregister_for_stale_clients_witness :
  ∃ w' gs, cleanupStaleConnections idle_world = Ok w' ∧
    heap w' = heap idle_world ∧ hub w' = hub idle_world ∧
    goroutines w' = goroutines idle_world ++ gs ∧
    ∀ c, c ∈ gs ↔ (∃ u, member (clients (hub idle_world)) u c) ∧
                  stale (now idle_world) idle_world c.
Proof.
  apply (sweep_starts_unregister_for_stale_clients idle_world).
  intros u c Hm.
  destruct (inv_identity _ registered_world_inv u c Hm) as (cl & Hcl & _).
  by exists cl.
Defined.

Lemma broadcast_range_order_irrelevant_witness :
  ∃ w2, for_range (broadcast_one (String.list_byte_of_string "stream_start:")
                     (Some 1%positive))
          (reverse [1; 2; 3; 5]%positive) registered_world = Ok w2 ∧
    heap w2 = heap after_broadcast ∧ hub w2 = hub after_broadcast ∧
    ∀ c, c ∈ drop (length (goroutines registered_world)) (goroutines w2) ↔
         c ∈ drop (length (goroutines registered_world))
               (goroutines after_broadcast).
Proof.
  apply (broadcast_range_order_irrelevant
           (String.list_byte_of_string "stream_start:") (Some 1%positive)
           [1; 2; 3; 5]%positive (reverse [1; 2; 3; 5]%positive)
           registered_world
           (world_of (for_range (broadcast_one
                                   (String.list_byte_of_string "stream_start:")
                                   (Some 1%positive))
                        [1; 2; 3; 5]%positive registered_world))).
  - symmetry. apply reverse_Permutation.
  - apply (bool_decide_eq_true_1 _). by vm_compute.
  - by vm_compute.
Defined.

(** * The properties of the rest of the package at the concrete worlds *)

Lemma registered_world_open : registered_open registered_world.
Proof.
  destruct (run_ops_total
              [OpRegister 1; OpRegister 2; OpRegister 3; OpRegister 4;
               OpRegister 5]%positive demo_world) as (w' & Hrun & Hopen).
  - apply fresh_world_ready.
    + apply (bool_decide_eq_true_1 _). by vm_compute.
    + intros c Hc. simpl in Hc. set_unfold.
      destruct Hc as [->|[->|[->|[->|[->|[]]]]]]; eexists; split; by vm_compute.
    + intros c Hc. set_unfold. naive_solver.
  - unfold registered_world. rewrite Hrun. exact Hopen.
Qed.

Lemma registered_client_is_reported_witness :
  IsUserConnected 1%N (world_of (registerClient 1%positive demo_world)) = true.
Proof.
  refine (proj1 (registered_client_is_reported 1%positive demo_world
                   (world_of (registerClient 1%positive demo_world))
                   (client_of demo_world 1%positive) _ _)); by vm_compute.
Defined.

Lemma unregistered_client_is_not_reported_witness :
  3%positive ∈ GetUserClients 2%N
                 (world_of (unregisterClient 2%positive registered_world))
  ↔ 3%positive ∈ GetUserClients 2%N registered_world ∧ 3%positive ≠ 2%positive.
Proof.
  refine (proj1 (unregistered_client_is_not_reported 2%positive registered_world
                   (world_of (unregisterClient 2%positive registered_world))
                   (client_of registered_world 2%positive)
                   registered_world_inv _ _) 2%N 3%positive); by vm_compute.
Defined.

Lemma statistics_are_consistent_witness :
  (unique_users (GetStats registered_world)
   ≤ total_clients (GetStats registered_world))%nat ∧
  (active_conversations (GetStats registered_world)
   ≤ total_clients (GetStats registered_world))%nat.
Proof.
  destruct (statistics_are_consistent registered_world registered_world_inv)
    as (_ & H1 & H2 & _).
  by split.
Defined.

Lemma panics_only_on_send_to_closed_queue_witness :
  (∀ w, steps demo_marshal demo_unmarshal id evicted_run (fresh_world demo_heap 0)
        = Ok w → tables_inv w ∧ registered_open w) ∧
  (∀ msg, steps demo_marshal demo_unmarshal id evicted_run (fresh_world demo_heap 0)
          = Panic msg →
     ∃ ls1 l ls2 w c, evicted_run = ls1 ++ l :: ls2 ∧
       steps demo_marshal demo_unmarshal id ls1 (fresh_world demo_heap 0) = Ok w ∧
       sends_directly l = Some c ∧ queue_closed c w ∧
       ∀ u, ¬ member (clients (hub w)) u c).
Proof.
  apply (panics_only_on_send_to_closed_queue demo_marshal demo_unmarshal id
           demo_heap 0 evicted_run).
  - repeat (apply Forall_cons; split; [simpl; try done; by (vm_compute; eexists)|]).
    by apply Forall_nil.
  - apply (bool_decide_eq_true_1 _). by vm_compute.
  - intros c Hc. simpl in Hc. set_unfold.
    destruct Hc as [->|[->|[]]]; eexists; split; by vm_compute.
Defined.

Lemma send_after_unregistration_panics_witness :
  ReadPump_iter demo_marshal demo_unmarshal id (frame_at 5 "bogus") 2%positive
    (world_of (unregisterClient 2%positive registered_world))
  = Panic "send on closed channel".
Proof.
  refine (proj2 (send_after_unregistration_panics demo_marshal demo_unmarshal id
                   2%positive registered_world
                   (client_of registered_world 2%positive) _ _)
            (world_of (unregisterClient 2%positive registered_world))
            (frame_at 5 "bogus") (String.list_byte_of_string "bogus")
            (set_now 5 (world_of (unregisterClient 2%positive registered_world)))
            "Error processing message: unknown message type: bogus"
            (String.list_byte_of_string
               "error:Error processing message: unknown message type: bogus")
            _ _ _ _ _); try by vm_compute.
  eexists. split; by vm_compute.
Defined.

Lemma ping_is_answered_with_pong_witness :
  ∃ w' cl', ReadPump_iter demo_marshal demo_unmarshal id (frame_at 5 "ping")
              1%positive pump_started = Ok (Running, w') ∧
    heap w' !! 1%positive = Some cl' ∧
    buf (send cl') = [String.list_byte_of_string "pong:"].
Proof.
  destruct (ping_is_answered_with_pong demo_marshal demo_unmarshal id
              (frame_at 5 "ping") 1%positive pump_started
              (client_of pump_started 1%positive)
              (String.list_byte_of_string "ping") (set_now 5 pump_started)
              ping_msg (String.list_byte_of_string "pong:"))
    as [Hroom _]; try by vm_compute.
  destruct Hroom as (w' & cl' & Hrun & Hcl' & Hsend & _); [by vm_compute|].
  exists w', cl'. split; [exact Hrun|]. split; [exact Hcl'|].
  rewrite Hsend. by vm_compute.
Defined.


Lemma evicted_run_panics :
  steps demo_marshal demo_unmarshal id evicted_run (fresh_world demo_heap 0)
  = Panic "send on closed channel".
Proof. by vm_compute. Qed.

Lemma write_pump_drains_and_exits_after_unregistration_witness :
  ∃ w' cl',
    WritePump [WRecv false false; WRecv false false] 5%positive
      (world_of (unregisterClient 5%positive registered_world))
    = Ok (Returned, w') ∧
    heap w' !! 5%positive = Some cl' ∧
    wire (conn cl')
    = wire (conn (client_of registered_world 5%positive)) ++
      match buf (send (client_of registered_world 5%positive)) with
      | [] => []
      | _ :: _ =>
          [TextMessage
             (frame_of (buf (send (client_of registered_world 5%positive))))]
      end ++ [CloseMessage] ∧
    buf (send cl') = [] ∧ conn_closed (conn cl') = true ∧ ctx cl' = true ∧
    hub w' = hub (world_of (unregisterClient 5%positive registered_world)) ∧
    goroutines w'
    = goroutines (world_of (unregisterClient 5%positive registered_world)).
Proof.
  apply (write_pump_drains_and_exits_after_unregistration 5%positive
           registered_world (client_of registered_world 5%positive)
           (world_of (unregisterClient 5%positive registered_world))).
  - by vm_compute.
  - eexists. split; by vm_compute.
  - by vm_compute.
  - by vm_compute.
Defined.

Lemma write_pump_exit_cancels_and_read_pump_unregisters_witness :
  hub (world_of_pump (WritePump [WTick true] 1%positive registered_world))
  = hub registered_world.
Proof.
  refine (proj1 (write_pump_exit_cancels_and_read_pump_unregisters
                   demo_marshal demo_unmarshal id [WTick true] 1%positive
                   registered_world (client_of registered_world 1%positive)
                   (world_of_pump (WritePump [WTick true] 1%positive
                                     registered_world)) _ _)); by vm_compute.
Defined.

Lemma close_leads_to_unregistration_witness :
  ∃ w1, Client_Close 1%positive registered_world = Ok w1 ∧
    tables w1 = tables registered_world ∧
    (∃ cl1, heap w1 !! 1%positive = Some cl1 ∧ ctx cl1 = true ∧
       conn_closed (conn cl1) = true ∧
       send cl1 = send (client_of registered_world 1%positive)) ∧
    ∀ inp, ∃ w3,
      steps demo_marshal demo_unmarshal id
        [LReadPump 1%positive inp; LLoop SelUnregister] w1 = Ok w3 ∧
      (∀ u, ¬ member (clients (hub w3)) u 1%positive) ∧
      (∀ r, ¬ member (conversations (hub w3)) r 1%positive) ∧
      ∃ cl3, heap w3 !! 1%positive = Some cl3 ∧ closed (send cl3) = true ∧
        buf (send cl3) = buf (send (client_of registered_world 1%positive)).
Proof.
  apply (close_leads_to_unregistration demo_marshal demo_unmarshal id
           1%positive registered_world (client_of registered_world 1%positive)
           registered_world_inv); try by vm_compute.
  eexists. split; by vm_compute.
Defined.

Lemma deliveries_touch_their_recipients_only_witness :
  tables after_broadcast = tables registered_world ∧
  (∀ c, ¬ member (conversations (hub registered_world)) 7%N c →
        heap after_broadcast !! c = heap registered_world !! c).
Proof.
  destruct (proj1 (deliveries_touch_their_recipients_only demo_marshal)
              demo_broadcast registered_world after_broadcast)
    as (Ht & Hk & _); [by vm_compute|].
  by split.
Defined.

Lemma no_drop_while_backlog_fits_witness :
  (EvFull 3%positive
     ∉ drop (length (trace registered_world)) (trace after_fifo_run)) ∧
  ∃ cl', heap after_fifo_run !! 3%positive = Some cl' ∧
    closed (send cl') = false ∧
    cap (send cl')
    = cap (send (NewClient "other" 2%N 7%N (Some demo_handler) 0)) ∧
    (length (buf (send cl'))
     + length (pending demo_marshal 3%positive 7%N after_fifo_run)
     ≤ cap (send (NewClient "other" 2%N 7%N (Some demo_handler) 0)))%nat.
Proof.
  refine (no_drop_while_backlog_fits demo_marshal demo_unmarshal id
            fifo_run registered_world after_fifo_run 3%positive
            (NewClient "other" 2%N 7%N (Some demo_handler) 0) 7%N
            _ _ client3_member_ok _).
  - repeat (apply Forall_cons; split; [by vm_compute|]). by apply Forall_nil.
  - by vm_compute.
  - vm_compute. lia.
Defined.

Lemma register_twice_and_register_then_unregister_witness :
  tables (world_of (unregisterClient 1%positive
                      (world_of (registerClient 1%positive demo_world))))
  = tables demo_world.
Proof.
  refine (proj1 (proj2 register_twice_and_register_then_unregister
                   1%positive demo_world (client_of demo_world 1%positive)
                   (world_of (registerClient 1%positive demo_world))
                   (world_of (unregisterClient 1%positive
                                (world_of (registerClient 1%positive demo_world))))
                   (fresh_world_inv demo_heap 0) _ _ _ _)); try by vm_compute.
  intros u (s & Hs & _). simpl in Hs. by rewrite lookup_empty in Hs.
Defined.

Lemma truncate_bounds_and_is_idempotent_witness :
  ∃ t, truncate "hello world" 5 = Ok t ∧ truncate t 5 = Ok t ∧
       (String.length t ≤ 8)%nat.
Proof.
  destruct (proj1 (proj2 (truncate_bounds_and_is_idempotent "hello world" 5)))
    as (t & Ht & Hlen & _ & _ & Hidem); [lia|].
  exists t. split; [exact Ht|]. split; [exact Hidem|]. lia.
Defined.

Lemma client_broadcasts_go_to_its_room_witness :
  ∃ w1,
    BroadcastToConversationExceptSelf id 1%positive hello registered_world = Ok w1 ∧
    heap w1 = heap registered_world ∧ tables w1 = tables registered_world ∧
    (tables_inv registered_world → registered_open registered_world →
     is_Ok (step demo_marshal demo_unmarshal id (LLoop SelBroadcast) w1)) ∧
    ∀ w2, step demo_marshal demo_unmarshal id (LLoop SelBroadcast) w1 = Ok w2 →
      heap w2 !! 1%positive = Some (client_of registered_world 1%positive) ∧
      delivered demo_marshal 7%N (id hello) (Some 1%positive) registered_world w2.
Proof.
  refine (proj1 (proj2 (client_broadcasts_go_to_its_room
                          demo_marshal demo_unmarshal id demo_uuid_String
                          1%positive registered_world
                          (client_of registered_world 1%positive) _ _ _ _))
            hello);
    by vm_compute.
Defined.


Lemma idle_world_open : registered_open idle_world.
Proof. exact registered_world_open. Qed.

Lemma sweep_unregisters_the_stale_clients_witness :
  ∃ w1 gs w2,
    cleanupStaleConnections idle_world = Ok w1 ∧ goroutines w1 = gs ∧ NoDup gs ∧
    steps demo_marshal demo_unmarshal id (replicate (length gs) (LGoroutine 0)) w1
    = Ok w2 ∧
    trace w2 = trace idle_world ++ map EvGo gs ++ map EvClose gs ∧
    (∀ c, c ∈ gs ↔ (∃ u, member (clients (hub idle_world)) u c) ∧
                   stale (now idle_world) idle_world c) ∧
    (∀ u c, member (clients (hub w2)) u c ↔
            member (clients (hub idle_world)) u c ∧
            ¬ stale (now idle_world) idle_world c) ∧
    (∀ r c, member (conversations (hub w2)) r c ↔
            member (conversations (hub idle_world)) r c ∧
            ¬ stale (now idle_world) idle_world c) ∧
    (∀ c, c ∈ gs → ∃ cl cl', heap idle_world !! c = Some cl ∧
                     heap w2 !! c = Some cl' ∧
                     closed (send cl') = true ∧ buf (send cl') = buf (send cl)) ∧
    (∀ c, c ∉ gs → heap w2 !! c = heap idle_world !! c).
Proof.
  apply (sweep_unregisters_the_stale_clients demo_marshal demo_unmarshal id
           idle_world).
  - apply (tables_inv_heap_hub registered_world);
      [exact registered_world_inv|by vm_compute..].
  - exact idle_world_open.
  - by vm_compute.
Defined.
